(** * Payload admin runtime: field binding, document info, rich text field

    A shallow embedding of three source units of the admin console:

    - [src/admin/components/forms/useField/index.tsx]
        (the [useField] hook),
    - the rich text field component that follows it in the same source
        file ([RichText]),
    - [src/admin/components/utilities/DocumentInfo/index.tsx]
        ([DocumentInfoProvider], [getVersions]).

    React hooks are embedded as functions of what one render reads from its
    contexts; what a callback does (a dispatch, a state setter, a fetch, a
    DOM write, an editor transform) is threaded explicitly through a state or
    recorded in a trace. *)

From stdpp Require Import gmap strings list pretty.
From Stdlib Require Import ZArith Lia Ascii String.

Local Open Scope string_scope.
Local Open Scope list_scope.
Local Open Scope Z_scope.

(** ** JavaScript values *)

Module JS.

(** The data values the modelled code handles.  Numbers are kept as exact
    decimals [m * 10^e]; the rounding of doubles is not modelled and no
    property below depends on it.  Objects are association lists in
    insertion order with unique keys. Functions are not values of this
    type: where the source holds a function, the embedding holds a Rocq
    function in a record field of its own. *)
Inductive Value : Type :=
| Undefined : Value
| Null : Value
| Bool (b : bool) : Value
| Num (m e : Z) : Value
| Str (s : string) : Value
| Arr (xs : list Value) : Value
| Obj (kvs : list (string * Value)) : Value.

(** [ToBoolean]: [undefined], [null], [false], zero and the empty string
    are falsy, everything else (every object and array too) is truthy. *)
Definition truthy (v : Value) : bool :=
  match v with
  | Undefined | Null => false
  | Bool b => b
  | Num m _ => negb (m =? 0)%Z
  | Str s => negb (String.eqb s EmptyString)
  | Arr _ | Obj _ => true
  end.

Inductive Typeof : Type :=
| TUndefined | TObject | TBoolean | TNumber | TString.

Definition typeof (v : Value) : Typeof :=
  match v with
  | Undefined => TUndefined
  | Null | Arr _ | Obj _ => TObject
  | Bool _ => TBoolean
  | Num _ _ => TNumber
  | Str _ => TString
  end.

(** [Array.isArray(v)]. *)
Definition isArray (v : Value) : bool :=
  match v with Arr _ => true | _ => false end.

(** Strings are held as their UTF-8 bytes; [s.length] counts UTF-16 code
    units.  A byte that continues a character counts for nothing, the
    first byte of a four-byte character (one above the basic plane, a
    surrogate pair) for two, any other byte for one. *)
Definition units (c : ascii) : nat :=
  let n := N_of_ascii c in
  if (128 <=? n)%N && (n <? 192)%N then 0%nat
  else if (240 <=? n)%N then 2%nat
  else 1%nat.

Fixpoint length (s : string) : nat :=
  match s with
  | EmptyString => 0%nat
  | String c rest => (units c + length rest)%nat
  end.

Fixpoint assoc (k : string) (kvs : list (string * Value)) : option Value :=
  match kvs with
  | [] => None
  | (k', v) :: rest => if String.eqb k k' then Some v else assoc k rest
  end.

(** [o[k] = v] on an association list: overwrite in place or append. *)
Fixpoint assoc_set (k : string) (v : Value) (kvs : list (string * Value))
  : list (string * Value) :=
  match kvs with
  | [] => [(k, v)]
  | (k', v') :: rest =>
      if String.eqb k k' then (k, v) :: rest
      else (k', v') :: assoc_set k v rest
  end.

(** [v.k] for a data property [k] that is neither an index nor [length]:
    [None] is the [TypeError] of reading a property of [undefined] or
    [null]; a primitive or an array has no such own property and yields
    [undefined] (members inherited from prototypes are not modelled, the
    modelled code reads data properties only). *)
Definition get (v : Value) (k : string) : option Value :=
  match v with
  | Undefined | Null => None
  | Obj kvs => Some (default Undefined (assoc k kvs))
  | _ => Some Undefined
  end.

(** [v?.k]: optional chaining short-circuits to [undefined]. *)
Definition get_opt (v : Value) (k : string) : Value :=
  default Undefined (get v k).

(** [v?.[i]] for an index [i]: an element of an array, a character of a
    string, the property named by the index of an object. *)
Definition index_opt (v : Value) (i : nat) : Value :=
  match v with
  | Arr xs => default Undefined (xs !! i)
  | Str s =>
      match String.get i s with
      | Some ch => Str (String ch EmptyString)
      | None => Undefined
      end
  | Obj kvs => default Undefined (assoc (pretty i) kvs)
  | _ => Undefined
  end.

End JS.

(** ** Numbers as strings *)

Module JSNumber.

Definition digitChar (n : N) : ascii := ascii_of_N (48 + n).

(** The decimal digits of a number, most significant first. *)
Fixpoint digitsOf (fuel : nat) (n : N) : list ascii :=
  match fuel with
  | O => []
  | S fuel' =>
      if (n <? 10)%N then [digitChar n]
      else digitsOf fuel' (n / 10) ++ [digitChar (n mod 10)]
  end.

Definition decimal (n : N) : list ascii :=
  digitsOf (S (N.to_nat (N.log2 n))) n.

(** A number without its trailing zeros, and how many there were. *)
Fixpoint stripZeros (fuel : nat) (n : N) (zeros : nat) : N * nat :=
  match fuel with
  | O => (n, zeros)
  | S fuel' =>
      if (n mod 10 =? 0)%N && negb (n =? 0)%N
      then stripZeros fuel' (n / 10) (S zeros)
      else (n, zeros)
  end.

(** [Number::toString] of [m * 10^e], for the digits the decimal has: with
    [s] the digits without trailing zeros, [k] their number and the value
    [0.s * 10^n], plain digits when [k <= n <= 21], a decimal point when
    [0 < n <= 21], leading zeros when [-6 < n <= 0], and the exponent form
    otherwise. *)
Definition numberToString (m e : Z) : list ascii :=
  if (m =? 0)%Z then ["0"%char]
  else
    let a := Z.abs_N m in
    let '(s, zeros) := stripZeros (S (N.to_nat (N.log2 a))) a 0 in
    let ds := decimal s in
    let k := Z.of_nat (List.length ds) in
    let n := (k + Z.of_nat zeros + e)%Z in
    (if (m <? 0)%Z then ["-"%char] else [])
    ++ (if (k <=? n)%Z && (n <=? 21)%Z
        then ds ++ repeat "0"%char (Z.to_nat (n - k))
        else if (0 <? n)%Z && (n <=? 21)%Z
        then take (Z.to_nat n) ds ++ ["."%char] ++ drop (Z.to_nat n) ds
        else if (-6 <? n)%Z && (n <=? 0)%Z
        then ["0"%char; "."%char] ++ repeat "0"%char (Z.to_nat (- n)) ++ ds
        else
          let ex := (n - 1)%Z in
          let exponent :=
            "e"%char :: (if (ex <? 0)%Z then "-"%char else "+"%char)
                     :: decimal (Z.abs_N ex) in
          match ds with
          | [] => []
          | [d] => d :: exponent
          | d :: more => d :: "."%char :: more ++ exponent
          end).

(** [String(x)], [`${x}`]. *)
Definition toString (m e : Z) : string :=
  string_of_list_ascii (numberToString m e).


End JSNumber.

(** ** The field value store (form context) *)

Module Form.

(** What a validation function receives next to the value:
    [{ id, user, data, siblingData, operation }]. *)
Record ValidateOptions : Type := mkValidateOptions {
  vo_id : JS.Value;
  vo_user : JS.Value;
  vo_data : JS.Value;
  vo_siblingData : JS.Value;
  vo_operation : JS.Value;
}.

(** A validation function, through its awaited result.  The result is any
    value: the source tests [typeof validationResult === 'string'] and
    assigns every other result to the action's [valid]. *)
Definition Validate : Type := JS.Value -> ValidateOptions -> JS.Value.
Definition Condition : Type := JS.Value -> JS.Value -> bool.

(** One entry of the store.  [valid] is a JavaScript value because the
    binding itself tests [typeof field.valid === 'boolean']. *)
Record Field : Type := mkField {
  value : JS.Value;
  initialValue : JS.Value;
  valid : JS.Value;
  errorMessage : option string;
  disableFormData : JS.Value;
  validate : option Validate;
  condition : option Condition;
}.

(** The [UPDATE] action, [{ type: 'UPDATE', path } & Partial<Field>]: every
    field key is optional, [None] is a key the action does not carry. *)
Record UPDATE : Type := mkUPDATE {
  path : string;
  u_value : option JS.Value;
  u_initialValue : option JS.Value;
  u_valid : option JS.Value;
  u_errorMessage : option (option string);
  u_disableFormData : option bool;
  u_validate : option (option Validate);
  u_condition : option (option Condition);
}.

(** The field an [UPDATE] starts from when the path has no entry: [{}]. *)
Definition emptyField : Field :=
  {| value := JS.Undefined; initialValue := JS.Undefined;
     valid := JS.Undefined; errorMessage := None;
     disableFormData := JS.Undefined; validate := None; condition := None |}.

(** Modelled from the spec: the reducer of the field value store, which is
    not among the sources.  "FieldState [...] mutated only via dispatched
    update actions"; an [UPDATE] overwrites, in the entry at its path, the
    keys it carries and leaves the other keys of that entry, and every other
    entry, as they are. *)
Definition mergeField (f : Field) (a : UPDATE) : Field :=
  {| value := default (value f) (u_value a);
     initialValue := default (initialValue f) (u_initialValue a);
     valid := default (valid f) (u_valid a);
     errorMessage := default (errorMessage f) (u_errorMessage a);
     disableFormData :=
       default (disableFormData f) (JS.Bool <$> u_disableFormData a);
     validate := default (validate f) (u_validate a);
     condition := default (condition f) (u_condition a) |}.

Definition fieldReducer (state : gmap string Field) (a : UPDATE)
  : gmap string Field :=
  <[path a := mergeField (default emptyField (state !! path a)) a]> state.

(** What the form holds besides the fields. *)
Record State : Type := mkState {
  fields : gmap string Field;
  modified : bool;
  submitted : bool;
  processing : bool;
}.

(** What a callback of the binding asks of the form. *)
Inductive Effect : Type :=
| SetModified (b : bool)
| Dispatch (a : UPDATE).

(** Modelled from the spec: [setModified] is the form's state setter
    ("marks the form modified"), [dispatchField] feeds the reducer. *)
Definition perform (st : State) (ef : Effect) : State :=
  match ef with
  | SetModified b =>
      {| fields := fields st; modified := b;
         submitted := submitted st; processing := processing st |}
  | Dispatch a =>
      {| fields := fieldReducer (fields st) a; modified := modified st;
         submitted := submitted st; processing := processing st |}
  end.

Definition performAll (st : State) (efs : list Effect) : State :=
  foldl perform st efs.

Definition isSetModified (ef : Effect) : bool :=
  match ef with SetModified _ => true | Dispatch _ => false end.

Definition isDispatch (ef : Effect) : bool :=
  match ef with SetModified _ => false | Dispatch _ => true end.

End Form.

(** ** [useField] *)

Module UseField.
Import Form.

(** [Options]: [{ path, validate, disableFormData = false, condition }]. *)
Record Options : Type := mkOptions {
  o_path : string;
  o_validate : option Validate;
  o_disableFormData : bool;
  o_condition : option Condition;
}.

(** What one render of the hook reads from its contexts:
    [useFormSubmitted], [useFormProcessing], [useFormModified], [useAuth],
    [useDocumentInfo], [useOperation], [useFormFields] and [useForm].
    [dispatchField] and [setModified] are functions of the form; the source
    guards some of their uses with [typeof ... === 'function'], so the
    context records whether each is one.  [getData] is the result of
    [getData()], [getSiblingData] maps a path to [getSiblingData(path)]. *)
Record Context : Type := mkContext {
  c_submitted : bool;
  c_processing : bool;
  c_modified : bool;
  c_user : JS.Value;
  c_id : JS.Value;
  c_operation : JS.Value;
  c_fields : gmap string Field;
  dispatchField : bool;
  setModified : bool;
  getData : JS.Value;
  getSiblingData : string -> JS.Value;
}.

(** [const field = useFormFields(([fields]) => fields[path])]. *)
Definition field (c : Context) (o : Options) : option Field :=
  c_fields c !! o_path o.

(** [field?.value] and [field?.initialValue]. *)
Definition value (c : Context) (o : Options) : JS.Value :=
  match field c o with Some f => Form.value f | None => JS.Undefined end.

Definition initialValue (c : Context) (o : Options) : JS.Value :=
  match field c o with
  | Some f => Form.initialValue f
  | None => JS.Undefined
  end.

(** [field?.valid], the operand of the [typeof] test. *)
Definition fieldValid (c : Context) (o : Options) : JS.Value :=
  match field c o with Some f => Form.valid f | None => JS.Undefined end.

(** [typeof field?.valid === 'boolean' ? field.valid : true]. *)
Definition valid (c : Context) (o : Options) : bool :=
  match fieldValid c o with
  | JS.Bool b => b
  | _ => true
  end.

(** [valid === false && submitted]. *)
Definition showError (c : Context) (o : Options) : bool :=
  Bool.eqb (valid c o) false && c_submitted c.

(** The memoised result of the hook, [setValue] apart. *)
Record FieldType : Type := mkFieldType {
  r_showError : bool;
  r_errorMessage : option string;
  r_value : JS.Value;
  r_formSubmitted : bool;
  r_formProcessing : bool;
  r_initialValue : JS.Value;
}.

Definition useField (c : Context) (o : Options) : FieldType :=
  {| r_showError := showError c o;
     r_errorMessage :=
       match field c o with Some f => Form.errorMessage f | None => None end;
     r_value := value c o;
     r_formSubmitted := c_submitted c;
     r_formProcessing := c_processing c;
     r_initialValue := initialValue c o |}.

(** What a callback did: the effects it issued, in order, and whether it
    ended by throwing (a [TypeError]). *)
Record Outcome : Type := mkOutcome {
  effects : list Effect;
  threw : bool;
}.

(** [(e && e.target) ? e.target.value : e].  [None] would be the
    [TypeError] of a property read on [undefined] or [null]. *)
Definition eventValue (e : JS.Value) : option JS.Value :=
  if JS.truthy e then
    t ← JS.get e "target";
    if JS.truthy t then JS.get t "value" else Some e
  else Some e.

(** The action of [setValue]:
    [{ type: 'UPDATE', path, value: val, disableFormData }]. *)
Definition valueUpdate (o : Options) (val : JS.Value) : UPDATE :=
  {| path := o_path o; u_value := Some val; u_initialValue := None;
     u_valid := None; u_errorMessage := None;
     u_disableFormData := Some (o_disableFormData o);
     u_validate := None; u_condition := None |}.

(** [setValue(e, disableModifyingForm = false)]. *)
Definition setValue (c : Context) (o : Options)
    (e : JS.Value) (disableModifyingForm : bool) : Outcome :=
  match eventValue e with
  | None => {| effects := []; threw := true |}
  | Some val =>
      let marks :=
        if negb (c_modified c) && negb disableModifyingForm then
          if setModified c then [SetModified true] else []
        else [] in
      if dispatchField c then
        {| effects := marks ++ [Dispatch (valueUpdate o val)];
           threw := false |}
      else {| effects := marks; threw := true |}
  end.

(** The validation of the throttled effect: [validateField], run when the
    150ms timer fires.  The action starts as
    [{ type, path, disableFormData, validate, condition, value,
       valid: false, errorMessage: undefined }]. *)
Definition validateOptions (c : Context) (o : Options) : ValidateOptions :=
  {| vo_id := c_id c; vo_user := c_user c; vo_data := getData c;
     vo_siblingData := getSiblingData c (o_path o);
     vo_operation := c_operation c |}.

(** [typeof validate === 'function' ? await validate(value, validateOptions)
     : true]. *)
Definition validationResult (c : Context) (o : Options) : JS.Value :=
  match o_validate o with
  | Some validate => validate (value c o) (validateOptions c o)
  | None => JS.Bool true
  end.

(** The action after [if (typeof validationResult === 'string') { ... }
    else { ... }]: a string is the message of an invalid field, any other
    result is stored as [valid] with no message. *)
Definition validationAction (c : Context) (o : Options) : UPDATE :=
  let result := validationResult c o in
  let '(v, msg) :=
    match result with
    | JS.Str s => (JS.Bool false, Some s)
    | _ => (result, None)
    end in
  {| path := o_path o; u_value := Some (value c o);
     u_initialValue := None; u_valid := Some v;
     u_errorMessage := Some msg;
     u_disableFormData := Some (o_disableFormData o);
     u_validate := Some (o_validate o);
     u_condition := Some (o_condition o) |}.

(** [action.valid !== valid], [valid] being a boolean: a value that is not
    a boolean differs from it. *)
Definition differs (v : JS.Value) (valid : bool) : bool :=
  match v with
  | JS.Bool b => negb (Bool.eqb b valid)
  | _ => true
  end.

(** [validateField], from the call of the validator to the end:
    [if (action.valid !== valid && typeof dispatchField === 'function')
       dispatchField(action)].
    [c] is the render the effect closed over: [value], [valid] and the
    options handed to the validator are that render's, however long the
    validator takes. *)
Definition validateField (c : Context) (o : Options) : list Effect :=
  let action := validationAction c o in
  if differs (default JS.Undefined (u_valid action)) (valid c o)
     && dispatchField c
  then [Dispatch action] else [].

(** The context a render reads off the form state; what does not change
    with the form (user, id, operation, the form's functions) comes from the
    previous render. *)
Definition render (c : Context) (st : State) : Context :=
  {| c_submitted := submitted st; c_processing := processing st;
     c_modified := modified st; c_user := c_user c; c_id := c_id c;
     c_operation := c_operation c; c_fields := fields st;
     dispatchField := dispatchField c; setModified := setModified c;
     getData := getData c; getSiblingData := getSiblingData c |}.

(** A series of [setValue] calls, each made from the render that follows
    the previous call's state changes. *)
Fixpoint setValues (c : Context) (o : Options)
    (calls : list (JS.Value * bool)) (st : State) : State * list Effect :=
  match calls with
  | [] => (st, [])
  | (e, skip) :: rest =>
      let efs := effects (setValue (render c st) o e skip) in
      let '(st', efs') := setValues c o rest (performAll st efs) in
      (st', efs ++ efs')
  end.

(** *** Validation over time

    [validateField] is asynchronous: it is called when the throttled
    effect fires, from the latest render, and suspends at
    [await validate(...)]; what follows the [await] runs when the validator
    resolves, with the closure of the call.  Other things can happen in
    between: [setValue], another run firing or resolving.  Without a
    validation function there is no [await] and the run ends where it
    fires.  A validation function that throws, or whose promise rejects,
    ends its run with nothing dispatched ([Reject]). *)
Record Run : Type := mkRun {
  closure : Context;
  options : Options;
}.

Inductive Event : Type :=
| Fire (o : Options)
| Resolve (i : nat)
| Reject (i : nat)
| Edit (o : Options) (e : JS.Value) (disableModifyingForm : bool).

(** The form, the runs that wait for their validator, in the order they
    fired, and the runs that ended, each with what it issued. *)
Record Session : Type := mkSession {
  form : State;
  awaiting : list Run;
  settled : list (Run * list Effect);
}.

Definition start (st : State) : Session :=
  {| form := st; awaiting := []; settled := [] |}.

(** The end of a run: its effects reach the form as it is by then. *)
Definition settle (s : Session) (r : Run) (rest : list Run) : Session :=
  let efs := validateField (closure r) (options r) in
  {| form := performAll (form s) efs; awaiting := rest;
     settled := settled s ++ [(r, efs)] |}.

Definition step (c : Context) (s : Session) (ev : Event) : Session :=
  match ev with
  | Fire o =>
      let r := {| closure := render c (form s); options := o |} in
      match o_validate o with
      | Some _ =>
          {| form := form s; awaiting := awaiting s ++ [r];
             settled := settled s |}
      | None => settle s r (awaiting s)
      end
  | Resolve i =>
      match awaiting s !! i with
      | Some r => settle s r (delete i (awaiting s))
      | None => s
      end
  | Reject i =>
      {| form := form s; awaiting := delete i (awaiting s);
         settled := settled s |}
  | Edit o e disableModifyingForm =>
      {| form :=
           performAll (form s)
             (effects (setValue (render c (form s)) o e
                         disableModifyingForm));
         awaiting := awaiting s; settled := settled s |}
  end.

Definition run (c : Context) (evs : list Event) (s : Session) : Session :=
  foldl (step c) s evs.

(** Runs made one after the other, each ending before anything else
    happens, with calls of [setValue] in between. *)
Inductive Turn : Type :=
| Validation (o : Options)
| Change (o : Options) (e : JS.Value) (disableModifyingForm : bool).

Definition turnEvents (t : Turn) : list Event :=
  match t with
  | Validation o => [Fire o; Resolve 0]
  | Change o e disableModifyingForm => [Edit o e disableModifyingForm]
  end.

Definition inTurn (turns : list Turn) : list Event :=
  List.concat (map turnEvents turns).

(** What a run stores as [valid], and the validity the binding derives
    from it at the next render
    ([typeof field?.valid === 'boolean' ? field.valid : true]). *)
Definition computed (r : Run) : JS.Value :=
  default JS.Undefined (u_valid (validationAction (closure r) (options r))).

Definition computedValid (r : Run) : bool :=
  match computed r with
  | JS.Bool b => b
  | _ => true
  end.

(** A validation function that keeps to its type,
    [boolean | string] once awaited. *)
Definition booleanOrString (v : JS.Value) : bool :=
  match v with
  | JS.Bool _ | JS.Str _ => true
  | _ => false
  end.

Definition typed (o : Options) : Prop :=
  match o_validate o with
  | Some validate =>
      forall value opts, booleanOrString (validate value opts) = true
  | None => True
  end.

(** A turn on the field of [o0]: its validations are for that field's
    path, with a validation function that keeps to its type; a call of
    [setValue] may be for any field. *)
Definition onField (o0 : Options) (t : Turn) : Prop :=
  match t with
  | Validation o => o_path o = o_path o0 /\ typed o
  | Change _ _ _ => True
  end.

(** How many actions the runs that ended dispatched. *)
Definition dispatches (log : list (Run * list Effect)) : nat :=
  List.length (List.filter isDispatch (List.concat (map snd log))).

End UseField.

(** ** [DocumentInfoProvider] *)

Module DocumentInfo.

(** [id?: string | number].  A number is held as the decimal
    [m * 10^e], as [JS.Num] holds it. *)
Inductive Id : Type :=
| IdString (s : string)
| IdNumber (m e : Z).

(** The descriptors, as far as the provider reads them: [slug] and
    [versions] (tested with [Boolean(...)]). *)
Record Entity : Type := mkEntity {
  slug : string;
  versions : JS.Value;
}.

Record Props : Type := mkProps {
  global : option Entity;
  collection : option Entity;
  id : option Id;
  serverURL : string;
  api : string;
}.

Definition idValue (i : option Id) : JS.Value :=
  match i with
  | None => JS.Undefined
  | Some (IdString s) => JS.Str s
  | Some (IdNumber m e) => JS.Num m e
  end.

(** [if (id)] and [!id]. *)
Definition idTruthy (i : option Id) : bool := JS.truthy (idValue i).

(** [`${id}`]. *)
Definition idString (i : Id) : string :=
  match i with
  | IdString s => s
  | IdNumber m e => JSNumber.toString m e
  end.


(** [preferencesKey]: assigned in the [global] branch, then in the
    [collection] branch when [id] is truthy; [None] is [undefined]. *)
Definition preferencesKey (p : Props) : option string :=
  let k := match global p with
           | Some g => Some ("global-" +:+ slug g)
           | None => None
           end in
  match collection p, id p with
  | Some c, Some i =>
      if idTruthy (Some i)
      then Some ("collection-" +:+ slug c +:+ "-" +:+ idString i)
      else k
  | _, _ => k
  end.

(** A request URL, [`${path}?${qs.stringify(params)}`], kept as the path and
    the object handed to [qs.stringify] ([None]: no query string). *)
Record Url : Type := mkUrl {
  urlPath : string;
  urlQuery : option JS.Value;
}.

(** A response: its status and what [res.json()] resolves to ([None]: the
    promise rejects). *)
Record Response : Type := mkResponse {
  status : Z;
  json : option JS.Value;
}.

(** The network: what [fetch(url, { credentials: 'include' })] resolves to;
    [None] is a rejected promise.  The argument is [None] when the source
    passes a URL variable that was never assigned. *)
Definition Fetch : Type := option Url -> option Response.

(** The provider's three pieces of state and the requests sent so far. *)
Record Provider : Type := mkProvider {
  publishedDoc : JS.Value;
  versionsState : JS.Value;
  unpublishedVersions : JS.Value;
  requests : list (option Url);
}.

(** [useState(null)] three times, nothing requested yet. *)
Definition initial : Provider :=
  {| publishedDoc := JS.Null; versionsState := JS.Null;
     unpublishedVersions := JS.Null; requests := [] |}.

(** An asynchronous computation over the provider: [None] is a rejected
    promise, which ends the function where it stands. *)
Definition Async (A : Type) : Type := Provider -> option A * Provider.

Definition ret {A} (a : A) : Async A := fun s => (Some a, s).

Definition bind {A B} (m : Async A) (k : A -> Async B) : Async B :=
  fun s => match m s with
           | (Some a, s') => k a s'
           | (None, s') => (None, s')
           end.

Notation "'await' x <- m ; k" := (bind m (fun x => k))
  (at level 10, x name, m at level 100, k at level 200).
Notation "'call' m ; k" := (bind m (fun _ => k))
  (at level 10, m at level 100, k at level 200).

Definition fetch (net : Fetch) (u : option Url) : Async Response :=
  fun s =>
    (net u,
     {| publishedDoc := publishedDoc s; versionsState := versionsState s;
        unpublishedVersions := unpublishedVersions s;
        requests := requests s ++ [u] |}).

Definition resJson (r : Response) : Async JS.Value := fun s => (json r, s).

Definition setPublishedDoc (v : JS.Value) : Async unit :=
  fun s =>
    (Some tt,
     {| publishedDoc := v; versionsState := versionsState s;
        unpublishedVersions := unpublishedVersions s;
        requests := requests s |}).

Definition setVersions (v : JS.Value) : Async unit :=
  fun s =>
    (Some tt,
     {| publishedDoc := publishedDoc s; versionsState := v;
        unpublishedVersions := unpublishedVersions s;
        requests := requests s |}).

Definition setUnpublishedVersions (v : JS.Value) : Async unit :=
  fun s =>
    (Some tt,
     {| publishedDoc := publishedDoc s; versionsState := versionsState s;
        unpublishedVersions := v; requests := requests s |}).

Definition baseURL (p : Props) : string := serverURL p +:+ api p.

Definition clause (fld op : string) (v : JS.Value) : JS.Value :=
  JS.Obj [(fld, JS.Obj [(op, v)])].

Definition params (and : list JS.Value) : JS.Value :=
  JS.Obj [("where", JS.Obj [("and", JS.Arr and)]); ("depth", JS.Num 0 0)].

(** [versionParams.where.and], after the [collection] branch pushed
    [{ parent: { equals: id } }]. *)
Definition versionAnd (p : Props) : list JS.Value :=
  match collection p with
  | Some _ => [clause "parent" "equals" (idValue (id p))]
  | None => []
  end.

Definition versionParams (p : Props) : JS.Value := params (versionAnd p).

(** [publishedVersionParams.where.and]: published or without a status, and
    for a collection [{ id: { equals: id } }]. *)
Definition publishedAnd (p : Props) : list JS.Value :=
  JS.Obj [("or", JS.Arr [clause "_status" "equals" (JS.Str "published");
                         clause "_status" "exists" (JS.Bool false)])]
  :: match collection p with
     | Some _ => [clause "id" "equals" (idValue (id p))]
     | None => []
     end.

Definition publishedVersionParams (p : Props) : JS.Value :=
  params (publishedAnd p).

(** [{ ...versionParams, where: { ...versionParams.where,
       and: [...versionParams.where.and,
             { updatedAt: { greater_than: publishedJSON?.updatedAt } }] } }]. *)
Definition newerVersionParams (p : Props) (updatedAt : JS.Value) : JS.Value :=
  params (versionAnd p ++ [clause "updatedAt" "greater_than" updatedAt]).

(** The two [let] URLs: the [collection] branch overwrites what the
    [global] branch assigned; [None] when neither branch ran. *)
Definition versionFetchURL (p : Props) : option string :=
  match collection p, global p with
  | Some c, _ => Some (baseURL p +:+ "/" +:+ slug c +:+ "/versions")
  | None, Some g => Some (baseURL p +:+ "/globals/" +:+ slug g +:+ "/versions")
  | None, None => None
  end.

Definition publishedFetchURL (p : Props) : option Url :=
  match collection p, global p with
  | Some c, _ =>
      Some {| urlPath := baseURL p +:+ "/" +:+ slug c;
              urlQuery := Some (publishedVersionParams p) |}
  | None, Some g =>
      (* built before the collection branch: no id clause *)
      Some {| urlPath := baseURL p +:+ "/globals/" +:+ slug g;
              urlQuery := Some (publishedVersionParams p) |}
  | None, None => None
  end.

(** [`${versionFetchURL}?${qs.stringify(q)}`]; an unassigned
    [versionFetchURL] prints as ["undefined"]. *)
Definition versionsUrl (p : Props) (q : JS.Value) : option Url :=
  Some {| urlPath := default "undefined" (versionFetchURL p);
          urlQuery := Some q |}.

Definition shouldFetchVersions (p : Props) : bool :=
  match collection p, global p with
  | Some c, _ => JS.truthy (versions c)
  | None, Some g => JS.truthy (versions g)
  | None, None => false
  end.

Definition shouldFetch (p : Props) : bool :=
  match collection p with
  | Some _ => idTruthy (id p)
  | None => true
  end.

(** [publishedJSON], after [if (collection) publishedJSON =
    publishedJSON?.docs?.[0]]. *)
Definition snapshot (p : Props) (body : JS.Value) : JS.Value :=
  match collection p with
  | Some _ => JS.index_opt (JS.get_opt body "docs") 0
  | None => body
  end.

Definition getVersions (net : Fetch) (p : Props) : Async unit :=
  if shouldFetch p then
    await res <- fetch net (publishedFetchURL p);
    await body <- resJson res;
    let publishedJSON := snapshot p body in
    await versionsAndDrafts <-
      (if shouldFetchVersions p then
         await vres <- fetch net (versionsUrl p (versionParams p));
         await versionJSON <- resJson vres;
         let updatedAt := JS.get_opt publishedJSON "updatedAt" in
         if JS.truthy updatedAt then
           await newerVersionRes <-
             fetch net (versionsUrl p (newerVersionParams p updatedAt));
           if (status newerVersionRes =? 200)%Z then
             await unpublishedVersionJSON <- resJson newerVersionRes;
             ret (versionJSON, unpublishedVersionJSON)
           else ret (versionJSON, JS.Null)
         else ret (versionJSON, JS.Null)
       else ret (JS.Null, JS.Null));
    call setPublishedDoc publishedJSON;
    call setVersions (fst versionsAndDrafts);
    setUnpublishedVersions (snd versionsAndDrafts)
  else ret tt.

(** The [updatedAt] bound of a newer-versions query: the value [t] of a
    [{ updatedAt: { greater_than: t } }] clause that closes [where.and]. *)
Definition greaterThanBound (u : option Url) : option JS.Value :=
  q ← u ≫= urlQuery;
  match JS.get_opt (JS.get_opt q "where") "and" with
  | JS.Arr cs =>
      match last cs with
      | Some (JS.Obj [(fld, JS.Obj [(op, t)])]) =>
          if String.eqb fld "updatedAt" && String.eqb op "greater_than"
          then Some t else None
      | _ => None
      end
  | _ => None
  end.

End DocumentInfo.

(** ** [JSON.parse] *)

Module JSON.

(** The JSON grammar of ECMA-404 over the characters of the text.  A
    character above 127 is a byte of its UTF-8 form; a [\uXXXX] escape above
    127 is stored in UTF-8 as well.  Every parser returns what it read and
    the characters that follow. *)

Definition code (c : ascii) : N := N_of_ascii c.

Definition isWs (c : ascii) : bool :=
  match code c with
  | 32%N | 9%N | 10%N | 13%N => true
  | _ => false
  end.

Fixpoint skipWs (cs : list ascii) : list ascii :=
  match cs with
  | c :: rest => if isWs c then skipWs rest else cs
  | [] => []
  end.

Definition digit (c : ascii) : option Z :=
  let n := code c in
  if (48 <=? n)%N && (n <=? 57)%N then Some (Z.of_N n - 48) else None.

Definition hexDigit (c : ascii) : option N :=
  let n := code c in
  if (48 <=? n)%N && (n <=? 57)%N then Some (n - 48)%N
  else if (65 <=? n)%N && (n <=? 70)%N then Some (n - 55)%N
  else if (97 <=? n)%N && (n <=? 102)%N then Some (n - 87)%N
  else None.

(** A run of digits: its value on top of [acc], how many there were, and
    the rest. *)
Fixpoint digits (acc : Z) (count : nat) (cs : list ascii)
  : Z * nat * list ascii :=
  match cs with
  | c :: rest =>
      match digit c with
      | Some d => digits (10 * acc + d) (S count) rest
      | None => (acc, count, cs)
      end
  | [] => (acc, count, [])
  end.

(** [int frac? exp?] after an optional minus sign; the value is
    [m * 10^e].  The decimal is kept as it is read: [JSON.parse] rounds it
    to a double, so a text beyond the range or the precision of doubles
    (["1e-400"], which is [0] there) reads differently; whether a text
    parses does not depend on that. *)
Definition parseNumber (cs : list ascii) : option (JS.Value * list ascii) :=
  let '(neg, cs1) :=
    match cs with
    | "-"%char :: rest => (true, rest)
    | _ => (false, cs)
    end in
  intPart ←
    match cs1 with
    | "0"%char :: rest => Some (0, rest)
    | _ => let '(v, n, rest) := digits 0 0 cs1 in
           if (n =? 0)%nat then None else Some (v, rest)
    end;
  let '(i, cs2) := intPart in
  fracPart ←
    match cs2 with
    | "."%char :: rest =>
        let '(v, n, rest') := digits i 0 rest in
        if (n =? 0)%nat then None else Some (v, Z.of_nat n, rest')
    | _ => Some (i, 0, cs2)
    end;
  let '(m, scale, cs3) := fracPart in
  expPart ←
    match cs3 with
    | c :: rest =>
        if (code c =? 101)%N || (code c =? 69)%N then
          let '(eneg, rest1) :=
            match rest with
            | "-"%char :: r => (true, r)
            | "+"%char :: r => (false, r)
            | _ => (false, rest)
            end in
          let '(v, n, rest2) := digits 0 0 rest1 in
          if (n =? 0)%nat then None
          else Some (if eneg then - v else v, rest2)
        else Some (0, cs3)
    | [] => Some (0, cs3)
    end;
  let '(e, cs4) := expPart in
  Some (JS.Num (if neg then - m else m) (e - scale), cs4).

(** The UTF-8 bytes of a 16-bit code unit. *)
Definition utf8 (n : N) : list ascii :=
  if (n <? 128)%N then [ascii_of_N n]
  else if (n <? 2048)%N then
    [ascii_of_N (192 + n / 64); ascii_of_N (128 + n mod 64)]
  else
    [ascii_of_N (224 + n / 4096); ascii_of_N (128 + (n / 64) mod 64);
     ascii_of_N (128 + n mod 64)].

(** The characters of a string after its opening quote, up to and
    including the closing quote. *)
Fixpoint parseChars (cs : list ascii) : option (list ascii * list ascii) :=
  match cs with
  | [] => None
  | c :: rest =>
      if (code c =? 34)%N then Some ([], rest)
      else if (code c =? 92)%N then
        match rest with
        | e :: rest1 =>
            let simple (x : N) :=
              '(s, r) ← parseChars rest1; Some (ascii_of_N x :: s, r) in
            match code e with
            | 34%N => simple 34%N
            | 92%N => simple 92%N
            | 47%N => simple 47%N
            | 98%N => simple 8%N
            | 102%N => simple 12%N
            | 110%N => simple 10%N
            | 114%N => simple 13%N
            | 116%N => simple 9%N
            | 117%N =>
                match rest1 with
                | h1 :: h2 :: h3 :: h4 :: rest2 =>
                    a ← hexDigit h1; b ← hexDigit h2;
                    c' ← hexDigit h3; d ← hexDigit h4;
                    '(s, r) ← parseChars rest2;
                    Some (utf8 (((a * 16 + b) * 16 + c') * 16 + d)%N ++ s, r)
                | _ => None
                end
            | _ => None
            end
        | [] => None
        end
      else if (code c <? 32)%N then None
      else '(s, r) ← parseChars rest; Some (c :: s, r)
  end.

Definition parseString (cs : list ascii) : option (string * list ascii) :=
  '(s, r) ← parseChars cs; Some (string_of_list_ascii s, r).

Definition literal (word : string) (v : JS.Value) (cs : list ascii)
  : option (JS.Value * list ascii) :=
  let w := list_ascii_of_string word in
  if decide (take (List.length w) cs = w)
  then Some (v, drop (List.length w) cs)
  else None.

(** A value, the elements of an array after ["["] and the members of an
    object after ["{"].  The fuel bounds the calls; twice the length of the
    text and two is enough, each call reading at least one character every
    second time. *)
Fixpoint parseValue (fuel : nat) (cs : list ascii)
  : option (JS.Value * list ascii) :=
  match fuel with
  | O => None
  | S fuel' =>
      match cs with
      | [] => None
      | c :: rest =>
          if (code c =? 34)%N then
            '(s, r) ← parseString rest; Some (JS.Str s, r)
          else if (code c =? 91)%N then
            match skipWs rest with
            | c' :: r =>
                if (code c' =? 93)%N then Some (JS.Arr [], r)
                else '(xs, r') ← parseElements fuel' (skipWs rest);
                     Some (JS.Arr xs, r')
            | [] => None
            end
          else if (code c =? 123)%N then
            match skipWs rest with
            | c' :: r =>
                if (code c' =? 125)%N then Some (JS.Obj [], r)
                else '(kvs, r') ← parseMembers fuel' (skipWs rest);
                     Some (JS.Obj kvs, r')
            | [] => None
            end
          else if (code c =? 116)%N then literal "true" (JS.Bool true) cs
          else if (code c =? 102)%N then literal "false" (JS.Bool false) cs
          else if (code c =? 110)%N then literal "null" JS.Null cs
          else parseNumber cs
      end
  end
with parseElements (fuel : nat) (cs : list ascii)
  : option (list JS.Value * list ascii) :=
  match fuel with
  | O => None
  | S fuel' =>
      '(v, r) ← parseValue fuel' cs;
      match skipWs r with
      | c :: r' =>
          if (code c =? 44)%N then
            '(vs, r'') ← parseElements fuel' (skipWs r'); Some (v :: vs, r'')
          else if (code c =? 93)%N then Some ([v], r')
          else None
      | [] => None
      end
  end
with parseMembers (fuel : nat) (cs : list ascii)
  : option (list (string * JS.Value) * list ascii) :=
  match fuel with
  | O => None
  | S fuel' =>
      match cs with
      | c :: rest =>
          if (code c =? 34)%N then
            '(k, r) ← parseString rest;
            match skipWs r with
            | colon :: r1 =>
                if (code colon =? 58)%N then
                  '(v, r2) ← parseValue fuel' (skipWs r1);
                  match skipWs r2 with
                  | c' :: r3 =>
                      if (code c' =? 44)%N then
                        '(kvs, r4) ← parseMembers fuel' (skipWs r3);
                        Some ((k, v) :: kvs, r4)
                      else if (code c' =? 125)%N then Some ([(k, v)], r3)
                      else None
                  | [] => None
                  end
                else None
            | [] => None
            end
          else None
      | [] => None
      end
  end.

(** An object keeps one value per key, the last one read, at the place of
    the key's first occurrence. *)
Fixpoint dedup (v : JS.Value) : JS.Value :=
  match v with
  | JS.Arr xs => JS.Arr (map dedup xs)
  | JS.Obj kvs =>
      JS.Obj (foldl (fun acc kv => JS.assoc_set (fst kv) (snd kv) acc) []
                    (map (fun kv => (fst kv, dedup (snd kv))) kvs))
  | _ => v
  end.

(** [JSON.parse(text)]: one value between optional white space; [None] is
    the [SyntaxError]. *)
Definition parse (text : string) : option JS.Value :=
  let cs := list_ascii_of_string text in
  '(v, rest) ← parseValue (2 * List.length cs + 2) (skipWs cs);
  match skipWs rest with
  | [] => Some (dedup v)
  | _ :: _ => None
  end.

End JSON.

(** ** The document object model, as far as read-only mode touches it *)

Module DOM.

(** An element with its attributes (names in lower case, as an HTML
    document stores them) and children, or a text node.  [tagName] is in
    upper case, as HTML elements report it. *)
Inductive Node : Type :=
| El (tagName : string) (attributes : list (string * string))
     (childNodes : list Node)
| TextNode (data : string).

Definition lowerChar (c : ascii) : ascii :=
  let n := N_of_ascii c in
  if (65 <=? n)%N && (n <=? 90)%N then ascii_of_N (n + 32) else c.

Fixpoint lower (s : string) : string :=
  match s with
  | EmptyString => EmptyString
  | String c rest => String (lowerChar c) (lower rest)
  end.

Fixpoint getAttribute (name : string) (attrs : list (string * string))
  : option string :=
  match attrs with
  | [] => None
  | (k, v) :: rest =>
      if String.eqb k name then Some v else getAttribute name rest
  end.

Fixpoint putAttribute (name value : string) (attrs : list (string * string))
  : list (string * string) :=
  match attrs with
  | [] => [(name, value)]
  | (k, v) :: rest =>
      if String.eqb k name then (k, value) :: rest
      else (k, v) :: putAttribute name value rest
  end.

(** The value argument of [setAttribute] in the source: a string or
    [null].  The DOM takes a [DOMString], so [null] is converted to the
    string ["null"]. *)
Inductive AttrArg : Type :=
| AString (s : string)
| ANull.

Definition domString (a : AttrArg) : string :=
  match a with
  | AString s => s
  | ANull => "null"
  end.

(** [element.setAttribute(name, value)]: the name is lower-cased, the
    attribute is created or overwritten. *)
Definition setAttribute (name : string) (value : AttrArg)
    (attrs : list (string * string)) : list (string * string) :=
  putAttribute (lower name) (domString value) attrs.

(** [hasAttribute]; a boolean attribute such as [disabled] is on when it
    is present, whatever its value. *)
Definition hasAttribute (name : string) (attrs : list (string * string))
  : bool :=
  match getAttribute name attrs with Some _ => true | None => false end.

End DOM.

(** ** The rich text field *)

Module RichText.

(** Modelled from the spec: [defaultValue], imported from
    [fields/richText/defaultValue] which is not among the sources: "a
    default single-empty-paragraph document". *)
Definition defaultValue : JS.Value :=
  JS.Arr [JS.Obj [("children",
                   JS.Arr [JS.Obj [("text", JS.Str EmptyString)]])]].

(** [valueToRender]: a string is parsed, a parse error is caught and
    ignored ([// do nothing]); then [if (!valueToRender) valueToRender =
    defaultValue].  The result is the [value] prop of [<Slate>]. *)
Definition parsedValue (value : JS.Value) : JS.Value :=
  match value with
  | JS.Str s =>
      match JSON.parse s with
      | Some parsedJSON => parsedJSON
      | None => value
      end
  | _ => value
  end.

Definition valueToRender (value : JS.Value) : JS.Value :=
  let v := parsedValue value in
  if negb (JS.truthy v) then defaultValue else v.

(** *** Read-only mode: [setClickableState] *)

Inductive ClickState : Type := disabled | enabled.

(** The selector list ['button, a, [role="button"]']. *)
Definition matchesSelectors (tagName : string)
    (attrs : list (string * string)) : bool :=
  String.eqb tagName "BUTTON" || String.eqb tagName "A"
  || match DOM.getAttribute "role" attrs with
     | Some r => String.eqb r "button"
     | None => false
     end.

(** The body of the [forEach]. *)
Definition setChild (clickState : ClickState) (tagName : string)
    (attrs : list (string * string)) : list (string * string) :=
  let isButton := String.eqb tagName "BUTTON" in
  let isDisabling :=
    match clickState with disabled => true | enabled => false end in
  let attrs1 :=
    DOM.setAttribute "tabIndex"
      (DOM.AString (if isDisabling then "-1" else "0")) attrs in
  if isButton then
    DOM.setAttribute "disabled"
      (if isDisabling then DOM.AString "disabled" else DOM.ANull) attrs1
  else attrs1.

(** A node after the [forEach] visited it and its descendants. *)
Fixpoint visit (clickState : ClickState) (n : DOM.Node) : DOM.Node :=
  match n with
  | DOM.El tag attrs kids =>
      DOM.El tag
        (if matchesSelectors tag attrs then setChild clickState tag attrs
         else attrs)
        (map (visit clickState) kids)
  | DOM.TextNode d => DOM.TextNode d
  end.

(** [ref.current.querySelectorAll(selectors)] reaches the descendants of
    the element, not the element itself. *)
Definition visitDescendants (clickState : ClickState) (root : DOM.Node)
  : DOM.Node :=
  match root with
  | DOM.El tag attrs kids => DOM.El tag attrs (map (visit clickState) kids)
  | DOM.TextNode d => DOM.TextNode d
  end.

(** The two subtrees the component holds references to. *)
Record Refs : Type := mkRefs {
  toolbarRef : DOM.Node;
  editorRef : DOM.Node;
}.

Definition setClickableState (clickState : ClickState) (r : Refs) : Refs :=
  {| toolbarRef := visitDescendants clickState (toolbarRef r);
     editorRef := visitDescendants clickState (editorRef r) |}.

(** The effect on [[loaded, readOnly]] and the cleanup it returns, while
    the component is mounted and both refs hold their elements (at
    unmount the refs are [null], and a cleanup that runs
    [setClickableState] throws). *)
Definition readOnlyEffect (loaded readOnly : bool) (r : Refs) : Refs :=
  if loaded && readOnly then setClickableState disabled r else r.

Definition readOnlyCleanup (loaded readOnly : bool) (r : Refs) : Refs :=
  if loaded && readOnly then setClickableState enabled r else r.

(** What the claim speaks of: a control is disabled when it carries the
    [disabled] attribute, and out of the tab order when its [tabindex] is
    ["-1"]. *)
Definition isDisabled (n : DOM.Node) : bool :=
  match n with
  | DOM.El _ attrs _ => DOM.hasAttribute "disabled" attrs
  | DOM.TextNode _ => false
  end.

Definition tabIndex (n : DOM.Node) : option string :=
  match n with
  | DOM.El _ attrs _ => DOM.getAttribute "tabindex" attrs
  | DOM.TextNode _ => None
  end.

End RichText.

(** ** The Slate document tree and the transforms the handler calls *)

Module Slate.

(** A node is a text leaf (its string and its marks) or an element (its
    optional [type], its other properties and its children). *)
Inductive Node : Type :=
| Text (text : string) (marks : list (string * JS.Value))
| Element (type : option string) (props : list (string * JS.Value))
          (children : list Node).

Definition Path : Type := list nat.

Record Point : Type := mkPoint {
  path : Path;
  offset : nat;
}.

(** The editor: the children of the root and the selection.  The selection
    is a cursor, anchor and focus at one point; [None] is [null]. *)
Record Editor : Type := mkEditor {
  nodes : list Node;
  selection : option Point;
}.

(** [Node.descendant(root, path)]: the node at a path below the root;
    [None] is the error thrown for the empty path or a path that leads
    nowhere. *)
Fixpoint descendant (ns : list Node) (p : Path) : option Node :=
  match p with
  | [] => None
  | [i] => ns !! i
  | i :: rest =>
      match ns !! i with
      | Some (Element _ _ kids) => descendant kids rest
      | _ => None
      end
  end.

Definition isElement (n : Node) : bool :=
  match n with Element _ _ _ => true | Text _ _ => false end.

Definition isText (n : Node) : bool :=
  match n with Text _ _ => true | Element _ _ _ => false end.

(** The text leaves below a node, in document order. *)
Fixpoint texts (n : Node) : list string :=
  match n with
  | Text t _ => [t]
  | Element _ _ kids => List.concat (map texts kids)
  end.

Definition textsOf (ns : list Node) : list string :=
  List.concat (map texts ns).

(** The tree with the node at path [q] replaced by the nodes [repl], in
    its parent's list of children. *)
Fixpoint replaceAt (ns : list Node) (q : Path) (repl : list Node)
  : option (list Node) :=
  match q with
  | [] => None
  | [k] =>
      match ns !! k with
      | Some _ => Some (take k ns ++ repl ++ drop (S k) ns)
      | None => None
      end
  | k :: rest =>
      match ns !! k with
      | Some (Element ty ps kids) =>
          kids' ← replaceAt kids rest repl;
          Some (<[k := Element ty ps kids']> ns)
      | _ => None
      end
  end.

(** An element of the given type and properties around [kids], when there
    are any. *)
Definition wrap (ty : option string) (ps : list (string * JS.Value))
    (kids : list Node) : list Node :=
  match kids with
  | [] => []
  | _ :: _ => [Element ty ps kids]
  end.

(** The nodes met on the way down a path, the node at the path last. *)
Fixpoint along (ns : list Node) (p : Path) : list Node :=
  match p with
  | [] => []
  | i :: rest =>
      match ns !! i with
      | Some (Element ty ps kids) => Element ty ps kids :: along kids rest
      | Some (Text t ms) => [Text t ms]
      | None => []
      end
  end.

Section Unwrap.

(** The [match] option, which nodes to unwrap, and the editor's [isVoid]:
    with [voids: false], the default, the search does not go below a void
    element. *)
Variable matches : Node -> bool.
Variable isVoid : Node -> bool.

(** [Editor.nodes({ at, match, mode: 'lowest' })] for a cursor at [p]: the
    nodes visited are those on the way from the root to [p], down to the
    first void element; the lowest one that matches is kept. *)
Fixpoint lowest (ns : list Node) (p : Path) : option Path :=
  match p with
  | [] => None
  | i :: rest =>
      match ns !! i with
      | Some (Element ty ps kids) =>
          match (if isVoid (Element ty ps kids) then None
                 else lowest kids rest) with
          | Some q => Some (i :: q)
          | None => if matches (Element ty ps kids) then Some [i] else None
          end
      | Some (Text t ms) => if matches (Text t ms) then Some [i] else None
      | None => None
      end
  end.

(** [liftNodes] on child [i] of a parent with children [kids]: what stands
    in the parent's place afterwards.
    - the only child: it moves after the parent, the parent is removed;
    - the first child: it moves to the parent's path, before the parent;
    - the last child: it moves after the parent;
    - otherwise the parent is split after the child and the child moves
      between the two halves. *)
Definition liftChild (ty : option string) (ps : list (string * JS.Value))
    (kids : list Node) (i : nat) : option (list Node) :=
  child ← kids !! i;
  let len := List.length kids in
  if (len =? 1)%nat then Some [child]
  else if (i =? 0)%nat then Some [child; Element ty ps (drop 1 kids)]
  else if (i =? len - 1)%nat then Some [Element ty ps (take i kids); child]
  else Some [Element ty ps (take i kids); child;
             Element ty ps (drop (S i) kids)].

(** [liftChild] applied to the element at path [q], child [i]. *)
Definition liftAt (ns : list Node) (q : Path) (i : nat)
  : option (list Node) :=
  match descendant ns q with
  | Some (Element ty ps kids) =>
      lifted ← liftChild ty ps kids i;
      replaceAt ns q lifted
  | _ => None
  end.

(** Where the cursor's path leads after the lift of child [i] of the
    element at [q] ([tail] is the path below the child): the child takes
    the parent's index when it was the only or the first child, the next
    index otherwise. *)
Definition liftedPath (ns : list Node) (q : Path) (i : nat) (tail : Path)
  : Path :=
  match descendant ns q with
  | Some (Element _ _ kids) =>
      if (List.length kids =? 1)%nat || (i =? 0)%nat then q ++ tail
      else removelast q ++ [S (List.last q 0%nat)] ++ tail
  | _ => q ++ tail
  end.

(** Whether the node at [q] is a void element. *)
Definition voidAt (ns : list Node) (q : Path) : bool :=
  match descendant ns q with
  | Some n => isVoid n
  | None => false
  end.

(** [Transforms.unwrapNodes(editor, { match, split: true })] with the
    cursor as [at]: the lowest matching node on the cursor's path is found,
    the range is narrowed to the cursor ([split]), and the child of that
    node that holds the cursor is lifted out of it.  Nothing happens when
    there is no selection or no match, or when the match is void (its
    children are then not visited). *)
Definition unwrapNodes (ed : Editor) : option Editor :=
  match selection ed with
  | None => Some ed
  | Some pt =>
      match lowest (nodes ed) (path pt) with
      | None => Some ed
      | Some q =>
          match drop (List.length q) (path pt) with
          | [] => Some ed
          | i :: tail =>
              if voidAt (nodes ed) q then Some ed
              else
                ns' ← liftAt (nodes ed) q i;
                Some {| nodes := ns';
                        selection :=
                          Some {| path := liftedPath (nodes ed) q i tail;
                                  offset := offset pt |} |}
          end
      end
  end.

End Unwrap.

(** [Transforms.setNodes(editor, {})]: no property to set, no change. *)
Definition setNodesEmpty (ed : Editor) : Editor := ed.

End Slate.

(** ** The [Backspace] branch of the editor's [onKeyDown] *)

Module Editable.
Import Slate.

(** What the editor gets from its plugins and imports, which are not among
    the sources: [listTypes] (from [./elements/listTypes]), [editor.isVoid]
    and what [Transforms.removeNodes(editor)] makes of the editor. *)
Record Plugins : Type := mkPlugins {
  listTypes : list string;
  isVoid : Node -> bool;
  removeNodes : Editor -> option Editor;
}.

(** [SlateElement.isElement(n) && listTypes.includes(n.type)]. *)
Definition isListType (pl : Plugins) (n : Node) : bool :=
  match n with
  | Element (Some ty) _ _ => bool_decide (ty ∈ listTypes pl)
  | _ => false
  end.

(** [Editor.isVoid(editor, n)]:
    [Element.isElement(n) && editor.isVoid(n)]. *)
Definition elementIsVoid (pl : Plugins) (n : Node) : bool :=
  isElement n && isVoid pl n.

(** [if (event.key === 'Backspace') { ... }].  [None] is a thrown error
    (no selection, or a path that leads nowhere).  [Text.isText(n) &&
    String(n.text).length === 1] is the test of a leaf of one UTF-16 code
    unit. *)
Definition onBackspace (pl : Plugins) (ed : Editor) : option Editor :=
  pt ← selection ed;
  selectedElement ← descendant (nodes ed) (removelast (path pt));
  match selectedElement with
  | Element (Some "li") _ _ =>
      selectedLeaf ← descendant (nodes ed) (path pt);
      match selectedLeaf with
      | Text t _ =>
          if (JS.length t =? 1)%nat then
            setNodesEmpty <$> unwrapNodes (isListType pl) (elementIsVoid pl) ed
          else Some ed
      | Element _ _ _ => Some ed
      end
  | _ =>
      if isVoid pl selectedElement then removeNodes pl ed else Some ed
  end.

End Editable.

(** ** A server answering the fetch contract *)

Module Server.
Import DocumentInfo.

(** Modelled from the spec: the HTTP fetch contract, which an external
    server implements.  [GET {apiBase}/{collection}?where=<query>] returns
    [{ docs: [...] }], [GET .../versions?where=<query>] returns a paginated
    version list [{ docs: Version[], ... }]; the query has [and]/[or] groups
    and the field operators [equals], [exists] and [greater_than].
    Timestamps are ISO 8601 strings in UTC, ordered as strings. *)
Definition sameScalar (x y : JS.Value) : bool :=
  match x, y with
  | JS.Str a, JS.Str b => String.eqb a b
  | JS.Num m e, JS.Num m' e' => (m =? m')%Z && (e =? e')%Z
  | JS.Bool a, JS.Bool b => Bool.eqb a b
  | _, _ => false
  end.

Definition fieldTest (op : string) (v : JS.Value) (x : option JS.Value)
  : bool :=
  if String.eqb op "equals" then
    match x with Some x' => sameScalar x' v | None => false end
  else if String.eqb op "exists" then
    match v with
    | JS.Bool b => Bool.eqb b (bool_decide (is_Some x))
    | _ => false
    end
  else if String.eqb op "greater_than" then
    match x, v with
    | Some (JS.Str a), JS.Str b => String.ltb b a
    | _, _ => false
    end
  else false.

Fixpoint whereMatches (doc : list (string * JS.Value)) (w : JS.Value)
  : bool :=
  match w with
  | JS.Obj [(k, JS.Arr ws)] =>
      if String.eqb k "and" then forallb (whereMatches doc) ws
      else if String.eqb k "or" then existsb (whereMatches doc) ws
      else false
  | JS.Obj [(fld, JS.Obj [(op, v)])] => fieldTest op v (JS.assoc fld doc)
  | _ => false
  end.

Definition select (docs : list JS.Value) (query : option JS.Value)
  : list JS.Value :=
  let w := match query with
           | Some q => JS.get_opt q "where"
           | None => JS.Obj [("and", JS.Arr [])]
           end in
  List.filter (fun d => match d with
                        | JS.Obj kvs => whereMatches kvs w
                        | _ => false
                        end) docs.

Definition paginated (docs : list JS.Value) : Response :=
  {| status := 200;
     json := Some (JS.Obj [("docs", JS.Arr docs);
                           ("totalDocs", JS.Num (Z.of_nat (List.length docs)) 0)]) |}.

(** A server with one collection at [root] and that collection's
    versions; anything else is answered with status 404. *)
Definition serve (root : string) (docs versionDocs : list JS.Value) : Fetch :=
  fun u =>
    match u with
    | None => None
    | Some url =>
        if String.eqb (urlPath url) root
        then Some (paginated (select docs (urlQuery url)))
        else if String.eqb (urlPath url) (root +:+ "/versions")
        then Some (paginated (select versionDocs (urlQuery url)))
        else Some {| status := 404; json := Some (JS.Obj []) |}
    end.

End Server.

(** ** Concrete inputs *)

Module Examples.

(** A [title] field that validates as required. *)
Definition required : Form.Validate :=
  fun v _ =>
    match v with
    | JS.Str s =>
        if String.eqb s EmptyString
        then JS.Str "This field is required."
        else JS.Bool true
    | _ => JS.Str "This field is required."
    end.

Definition titleOptions : UseField.Options :=
  {| UseField.o_path := "title"; UseField.o_validate := Some required;
     UseField.o_disableFormData := false; UseField.o_condition := None |}.

(** A validation function that returns nothing, and a field bound with
    it. *)
Definition unchecked : Form.Validate := fun _ _ => JS.Undefined.

Definition uncheckedOptions : UseField.Options :=
  {| UseField.o_path := "title"; UseField.o_validate := Some unchecked;
     UseField.o_disableFormData := false; UseField.o_condition := None |}.

Definition emptyTitle : Form.Field :=
  {| Form.value := JS.Str EmptyString;
     Form.initialValue := JS.Str "Hello";
     Form.valid := JS.Bool true; Form.errorMessage := None;
     Form.disableFormData := JS.Bool false;
     Form.validate := Some required; Form.condition := None |}.

Definition formState : Form.State :=
  {| Form.fields := {[ "title" := emptyTitle ]}; Form.modified := false;
     Form.submitted := true; Form.processing := false |}.

(** A render of a submitted form whose store has no entry yet. *)
Definition freshContext : UseField.Context :=
  {| UseField.c_submitted := true; UseField.c_processing := false;
     UseField.c_modified := false; UseField.c_user := JS.Null;
     UseField.c_id := JS.Str "42"; UseField.c_operation := JS.Str "update";
     UseField.c_fields := ∅; UseField.dispatchField := true;
     UseField.setModified := true; UseField.getData := JS.Obj [];
     UseField.getSiblingData := fun _ => JS.Obj [] |}.

Definition titleContext : UseField.Context :=
  UseField.render freshContext formState.

(** The same field found invalid, in a form not yet submitted. *)
Definition invalidTitle : Form.Field :=
  {| Form.value := JS.Str EmptyString;
     Form.initialValue := JS.Str "Hello";
     Form.valid := JS.Bool false;
     Form.errorMessage := Some "This field is required.";
     Form.disableFormData := JS.Bool false;
     Form.validate := Some required; Form.condition := None |}.

Definition unsubmittedContext : UseField.Context :=
  UseField.render freshContext
    {| Form.fields := {[ "title" := invalidTitle ]};
       Form.modified := false; Form.submitted := false;
       Form.processing := false |}.

(** A change event, [{ target: { value: "Hi" } }]. *)
Definition changeEvent : JS.Value :=
  JS.Obj [("target", JS.Obj [("value", JS.Str "Hi")])].

(** The scenario of the spec: collection [posts] with versions enabled,
    document id ["42"], published at [2024-01-01], and a version saved on
    [2024-01-02] next to the one the publication made. *)
Definition posts : DocumentInfo.Entity :=
  {| DocumentInfo.slug := "posts"; DocumentInfo.versions := JS.Bool true |}.

Definition postProps : DocumentInfo.Props :=
  {| DocumentInfo.global := None; DocumentInfo.collection := Some posts;
     DocumentInfo.id := Some (DocumentInfo.IdString "42");
     DocumentInfo.serverURL := "http://localhost:3000";
     DocumentInfo.api := "/api" |}.

Definition publishedPost : JS.Value :=
  JS.Obj [("id", JS.Str "42"); ("_status", JS.Str "published");
          ("updatedAt", JS.Str "2024-01-01T00:00:00Z")].

Definition versionOf (name updatedAt : string) : JS.Value :=
  JS.Obj [("id", JS.Str name); ("parent", JS.Str "42");
          ("updatedAt", JS.Str updatedAt)].

Definition publishedVersion : JS.Value :=
  versionOf "v1" "2024-01-01T00:00:00Z".

Definition draftVersion : JS.Value :=
  versionOf "v2" "2024-01-02T00:00:00Z".

Definition postServer : DocumentInfo.Fetch :=
  Server.serve "http://localhost:3000/api/posts"
    [publishedPost] [draftVersion; publishedVersion].

Definition draftsUrl : option DocumentInfo.Url :=
  DocumentInfo.versionsUrl postProps
    (DocumentInfo.newerVersionParams postProps
       (JS.Str "2024-01-01T00:00:00Z")).

(** A toolbar with one enabled button and one link, an empty editor. *)
Definition boldButton : DOM.Node :=
  DOM.El "BUTTON" [("type", "button")] [DOM.TextNode "B"].

Definition refs : RichText.Refs :=
  {| RichText.toolbarRef :=
       DOM.El "DIV" [] [boldButton; DOM.El "A" [("href", "#")] []];
     RichText.editorRef := DOM.El "DIV" [] [] |}.

(** An editor with a three-item list between two paragraphs, the cursor
    after the single character of the middle item. *)
Definition plugins : Editable.Plugins :=
  {| Editable.listTypes := ["ol"; "ul"];
     Editable.isVoid := fun _ => false;
     Editable.removeNodes := fun ed => Some ed |}.

Definition li (s : string) : Slate.Node :=
  Slate.Element (Some "li") [] [Slate.Text s []].

Definition paragraph (s : string) : Slate.Node :=
  Slate.Element None [] [Slate.Text s []].

Definition listEditor : Slate.Editor :=
  {| Slate.nodes :=
       [paragraph "p";
        Slate.Element (Some "ul") [] [li "aa"; li "b"; li "cc"];
        paragraph "q"];
     Slate.selection :=
       Some {| Slate.path := [1; 1; 0]%nat; Slate.offset := 1%nat |} |}.



End Examples.

(** ** Further definitions: counting, rendering, serialising *)

Module Counting.

(** How often a series of booleans changes, starting from [b]. *)
Fixpoint changes (b : bool) (bs : list bool) : nat :=
  match bs with
  | [] => 0
  | b' :: rest => (if Bool.eqb b' b then 0 else 1) + changes b' rest
  end.

End Counting.

Module ReadOnlyView.

(** The descendants of a node in document order, the node itself left
    out: what [querySelectorAll] chooses from. *)
Fixpoint descendantsOf (n : DOM.Node) : list DOM.Node :=
  match n with
  | DOM.El _ _ kids =>
      List.concat (map (fun k => k :: descendantsOf k) kids)
  | DOM.TextNode _ => []
  end.

(** Whether a node is an element the selector list matches. *)
Definition selected (n : DOM.Node) : bool :=
  match n with
  | DOM.El tag attrs _ => RichText.matchesSelectors tag attrs
  | DOM.TextNode _ => false
  end.

(** [ref.current.querySelectorAll('button, a, [role="button"]')]. *)
Definition querySelectorAll (root : DOM.Node) : list DOM.Node :=
  List.filter selected (descendantsOf root).

Definition isButton (n : DOM.Node) : bool :=
  match n with
  | DOM.El tag _ _ => String.eqb tag "BUTTON"
  | DOM.TextNode _ => false
  end.

Definition attribute (name : string) (n : DOM.Node) : option string :=
  match n with
  | DOM.El _ attrs _ => DOM.getAttribute name attrs
  | DOM.TextNode _ => None
  end.

(** A tree without the two attributes [setClickableState] writes. *)
Definition stateAttribute (kv : string * string) : bool :=
  String.eqb (fst kv) "tabindex" || String.eqb (fst kv) "disabled".

Fixpoint withoutState (n : DOM.Node) : DOM.Node :=
  match n with
  | DOM.El tag attrs kids =>
      DOM.El tag (List.filter (fun kv => negb (stateAttribute kv)) attrs)
        (map withoutState kids)
  | DOM.TextNode d => DOM.TextNode d
  end.

End ReadOnlyView.

Module ListItems.

(** [SlateElement.isElement(n) && n.type === 'li']. *)
Definition isListItem (n : Slate.Node) : bool :=
  match n with
  | Slate.Element (Some ty) _ _ => String.eqb ty "li"
  | _ => false
  end.

(** A text leaf of exactly one UTF-16 code unit:
    [Text.isText(n) && String(n.text).length === 1]. *)
Definition isSingleCharacter (n : Slate.Node) : bool :=
  match n with
  | Slate.Text t _ => (JS.length t =? 1)%nat
  | Slate.Element _ _ _ => false
  end.

End ListItems.

(** ** [JSON.stringify] and the remount key *)

Module Serialize.
Import JSNumber.

Definition hexChar (n : N) : ascii :=
  if (n <? 10)%N then ascii_of_N (48 + n) else ascii_of_N (87 + n).

(** [QuoteJSONString], one character: the two-character escapes, [\u00xx]
    for the other control characters, the character itself otherwise. *)
Definition escapeChar (c : ascii) : list ascii :=
  let n := N_of_ascii c in
  let backslash := ascii_of_N 92 in
  if (n =? 34)%N then [backslash; c]
  else if (n =? 92)%N then [backslash; c]
  else if (n =? 8)%N then [backslash; "b"%char]
  else if (n =? 12)%N then [backslash; "f"%char]
  else if (n =? 10)%N then [backslash; "n"%char]
  else if (n =? 13)%N then [backslash; "r"%char]
  else if (n =? 9)%N then [backslash; "t"%char]
  else if (n <? 32)%N then
    [backslash; "u"%char; "0"%char; "0"%char;
     hexChar (n / 16); hexChar (n mod 16)]
  else [c].

Definition quote (s : string) : list ascii :=
  ascii_of_N 34
  :: List.concat (map escapeChar (list_ascii_of_string s))
  ++ [ascii_of_N 34].

(** An array index as a property key: the canonical decimal of a number
    up to [2^32 - 2]. *)
Definition indexKey (k : string) : option N :=
  let cs := list_ascii_of_string k in
  let '(v, n, rest) := JSON.digits 0 0 cs in
  let i := Z.to_N v in
  match rest with
  | [] =>
      if negb (n =? 0)%nat && (i <=? 4294967294)%N
         && bool_decide (decimal i = cs)
      then Some i else None
  | _ :: _ => None
  end.

Fixpoint insertSorted {A} (i : N) (x : A) (sorted : list (N * A))
  : list (N * A) :=
  match sorted with
  | [] => [(i, x)]
  | (j, y) :: rest =>
      if (i <? j)%N then (i, x) :: sorted
      else (j, y) :: insertSorted i x rest
  end.

(** The order in which the properties of an object are enumerated: the
    array indices in ascending order, then the other keys in the order of
    their creation. *)
Definition enumerate {A} (props : list (string * A)) : list (string * A) :=
  let indexed :=
    foldr (fun kx acc =>
             match indexKey (fst kx) with
             | Some i => insertSorted i kx acc
             | None => acc
             end) [] props in
  map snd indexed
  ++ List.filter (fun kx => negb (bool_decide (is_Some (indexKey (fst kx)))))
       props.

Fixpoint joinWith (sep : ascii) (parts : list (list ascii)) : list ascii :=
  match parts with
  | [] => []
  | [p] => p
  | p :: rest => p ++ sep :: joinWith sep rest
  end.

Definition chars (s : string) : list ascii := list_ascii_of_string s.

(** [SerializeJSONProperty] without indentation: [None] is [undefined].
    An [undefined] element of an array is written [null], an [undefined]
    property of an object is left out. *)
Fixpoint write (v : JS.Value) : option (list ascii) :=
  match v with
  | JS.Undefined => None
  | JS.Null => Some (chars "null")
  | JS.Bool b => Some (chars (if b then "true" else "false"))
  | JS.Num m e => Some (numberToString m e)
  | JS.Str s => Some (quote s)
  | JS.Arr xs =>
      Some ("["%char
            :: joinWith ","%char
                 (map (fun x => default (chars "null") (write x)) xs)
            ++ ["]"%char])
  | JS.Obj kvs =>
      let written := map (fun kx => (fst kx, write (snd kx))) kvs in
      Some ("{"%char
            :: joinWith ","%char
                 (omap (fun kw =>
                          match snd kw with
                          | Some out => Some (quote (fst kw) ++ ":"%char :: out)
                          | None => None
                          end)
                       (enumerate written))
            ++ ["}"%char])
  end.

(** [JSON.stringify(value)]. *)
Definition stringify (v : JS.Value) : option string :=
  string_of_list_ascii <$> write v.

(** [JSON.stringify(initialValue || '')], the [key] of the field's
    element: when it changes, the editor is created anew. *)
Definition initialValueKey (initialValue : JS.Value) : option string :=
  stringify (if JS.truthy initialValue then initialValue
             else JS.Str EmptyString).

(** The values the round trip is proved for: no [undefined], whole
    numbers up to [2^53] (each of them is a Number, and its shortest
    decimal is the exact one), object keys that are distinct and not array
    indices. *)
Fixpoint plain (v : JS.Value) : bool :=
  match v with
  | JS.Undefined => false
  | JS.Null | JS.Bool _ | JS.Str _ => true
  | JS.Num m e => (e =? 0)%Z && (Z.abs m <=? 2 ^ 53)%Z
  | JS.Arr xs => forallb plain xs
  | JS.Obj kvs =>
      bool_decide (NoDup (map fst kvs))
      && forallb (fun k => negb (bool_decide (is_Some (indexKey k))))
           (map fst kvs)
      && forallb (fun kx => plain (snd kx)) kvs
  end.

(** What follows a value inside a JSON text: the end, a comma, a closing
    bracket or a closing brace. *)
Definition stops (rest : list ascii) : Prop :=
  match rest with
  | [] => True
  | c :: _ => c = ","%char \/ c = "]"%char \/ c = "}"%char
  end.

End Serialize.

(** ** Rendering: leaves and ids *)

Module Render.

(** An entry of [enabledLeaves]: the [Leaf] render component and the
    toolbar [Button], each optional; components are named. *)
Record LeafType : Type := mkLeafType {
  Leaf : option string;
  Button : option string;
}.

(** What [renderLeaf] returns: a registered component around the
    children, or the plain [<span>]. *)
Inductive RenderedLeaf : Type :=
| CustomLeaf (component : string)
| Span.

(** The own properties of a node, as [node[name]] reads them: [text] and
    the marks of a leaf; [type], [children] and the other properties of an
    element. *)
Fixpoint toValue (n : Slate.Node) : JS.Value :=
  match n with
  | Slate.Text t marks => JS.Obj (("text", JS.Str t) :: marks)
  | Slate.Element ty props kids =>
      JS.Obj (match ty with
              | Some name => [("type", JS.Str name)]
              | None => []
              end
              ++ ("children", JS.Arr (map toValue kids)) :: props)
  end.

Definition ownProperty (n : Slate.Node) (name : string)
  : option JS.Value :=
  match toValue n with
  | JS.Obj kvs => JS.assoc name kvs
  | _ => None
  end.

(** The members every object inherits from [Object.prototype]: functions,
    and the prototype itself under [__proto__]; all of them truthy. *)
Definition objectPrototype : list string :=
  ["constructor"; "__defineGetter__"; "__defineSetter__"; "hasOwnProperty";
   "__lookupGetter__"; "__lookupSetter__"; "isPrototypeOf";
   "propertyIsEnumerable"; "toString"; "valueOf"; "__proto__";
   "toLocaleString"].

(** The test of [find]: whether [leaf[leafName]] is truthy.  An own
    property decides when there is one, an inherited member otherwise. *)
Definition leafHas (leaf : Slate.Node) (name : string) : bool :=
  match ownProperty leaf name with
  | Some v => JS.truthy v
  | None => bool_decide (name ∈ objectPrototype)
  end.

(** [enabledLeaves] is an object, held as its properties in the order of
    their creation, no key twice. *)
Fixpoint lookupLeaf (name : string) (enabled : list (string * LeafType))
  : option LeafType :=
  match enabled with
  | [] => None
  | (k, e) :: rest => if String.eqb name k then Some e else lookupLeaf name rest
  end.

(** [Object.keys(enabledLeaves)]: the array indices first, in ascending
    order, then the other keys in the order of their creation. *)
Definition keys (enabledLeaves : list (string * LeafType)) : list string :=
  map fst (Serialize.enumerate enabledLeaves).

(** [Object.keys(enabledLeaves).find((leafName) => leaf[leafName])]. *)
Definition matchedLeafName (enabledLeaves : list (string * LeafType))
    (leaf : Slate.Node) : option string :=
  List.find (leafHas leaf) (keys enabledLeaves).

(** [renderLeaf]: [enabledLeaves[matchedLeafName]?.Leaf] decides; a name
    that was not found is [undefined] and reads the key ["undefined"]. *)
Definition renderLeaf (enabledLeaves : list (string * LeafType))
    (leaf : Slate.Node) : RenderedLeaf :=
  match lookupLeaf (default "undefined" (matchedLeafName enabledLeaves leaf))
          enabledLeaves with
  | Some {| Leaf := Some component |} => CustomLeaf component
  | _ => Span
  end.

(** [path.replace(/\./gi, '__')]. *)
Fixpoint replaceDots (path : string) : string :=
  match path with
  | EmptyString => EmptyString
  | String c rest =>
      if Ascii.eqb c "."
      then String "_" (String "_" (replaceDots rest))
      else String c (replaceDots rest)
  end.

(** [`field-${path.replace(/\./gi, '__')}`], the [htmlFor] of the label
    and the [id] of the editable. *)
Definition fieldId (path : string) : string :=
  "field-" +:+ replaceDots path.

End Render.

(** A rich text value for the examples: a list with one item and a
    paragraph. *)
Module Documents.

Definition textNode (text : string) (marks : list (string * JS.Value))
  : JS.Value :=
  JS.Obj (("text", JS.Str text) :: marks).

Definition element (type : string) (children : list JS.Value) : JS.Value :=
  JS.Obj [("type", JS.Str type); ("children", JS.Arr children)].

Definition richTextValue : JS.Value :=
  JS.Arr
    [element "ul"
       [element "li" [textNode "one\two" [("bold", JS.Bool true)]]];
     JS.Obj [("children", JS.Arr [textNode "12 items" []]);
             ("indent", JS.Num (-3) 0)]].

End Documents.

(** * Properties *)

(** ** [JSON.parse]: the fuel is enough *)

Section JsonFuel.
Import JSON.

Lemma skipWs_le (cs : list ascii) :
  (List.length (skipWs cs) <= List.length cs)%nat.
Proof.
  induction cs as [|c cs IH]; simpl; [lia|].
  destruct (isWs c); simpl; lia.
Qed.

Lemma digits_length (cs : list ascii) :
  forall acc n v n' r,
    digits acc n cs = (v, n', r) ->
    (List.length r + n' = List.length cs + n)%nat.
Proof.
  induction cs as [|c cs IH]; intros acc n v n' r H; simpl in H.
  - injection H as <- <- <-. simpl. lia.
  - destruct (digit c).
    + apply IH in H. simpl. lia.
    + injection H as <- <- <-. simpl. lia.
Qed.

Lemma parseChars_lt (n : nat) :
  forall cs s r,
    (List.length cs <= n)%nat ->
    parseChars cs = Some (s, r) -> (List.length r < List.length cs)%nat.
Proof.
  induction n as [|n IH]; intros cs s r Hn H.
  - destruct cs; [discriminate | simpl in Hn; lia].
  - destruct cs as [|c rest]; [discriminate|].
    simpl in Hn. cbn [parseChars] in H.
    destruct (code c =? 34)%N.
    { injection H as <- <-. simpl. lia. }
    destruct (code c =? 92)%N.
    { destruct rest as [|e rest1]; [discriminate|].
      simpl in Hn.
      assert (Hsimple : forall x,
                ('(s0, r0) ← parseChars rest1; Some (ascii_of_N x :: s0, r0))
                = Some (s, r) ->
                (List.length r < List.length (c :: e :: rest1))%nat).
      { intros x Hx.
        destruct (parseChars rest1) as [[s0 r0]|] eqn:E; [|discriminate].
        simpl in Hx. injection Hx as <- <-.
        apply IH in E; [simpl; lia | lia]. }
      destruct (code e) as [|p]; [discriminate|].
      repeat (destruct p as [p|p|]; try discriminate);
        try (now apply Hsimple in H).
      destruct rest1 as [|h1 [|h2 [|h3 [|h4 rest2]]]]; try discriminate.
      destruct (hexDigit h1); [|discriminate].
      destruct (hexDigit h2); [|discriminate].
      destruct (hexDigit h3); [|discriminate].
      destruct (hexDigit h4); [|discriminate].
      cbn [mbind option_bind] in H.
      destruct (parseChars rest2) as [[s0 r0]|] eqn:E; [|discriminate].
      simpl in H. injection H as <- <-.
      apply IH in E; [simpl; lia | simpl in Hn; lia]. }
    destruct (code c <? 32)%N; [discriminate|].
    destruct (parseChars rest) as [[s0 r0]|] eqn:E; [|discriminate].
    simpl in H. injection H as <- <-.
    apply IH in E; [simpl; lia | lia].
Qed.

Lemma parseString_lt (cs : list ascii) (s : string) (r : list ascii) :
  parseString cs = Some (s, r) -> (List.length r < List.length cs)%nat.
Proof.
  unfold parseString. intros H.
  destruct (parseChars cs) as [[s0 r0]|] eqn:E; [|discriminate].
  simpl in H. injection H as <- <-.
  now apply (parseChars_lt (List.length cs)) in E.
Qed.

Lemma parseNumber_lt (cs : list ascii) (v : JS.Value) (r : list ascii) :
  parseNumber cs = Some (v, r) -> (List.length r < List.length cs)%nat.
Proof.
  unfold parseNumber.
  assert (Hsign : exists neg cs1,
             match cs with
             | "-"%char :: rest => (true, rest)
             | _ => (false, cs)
             end = (neg, cs1)
             /\ (List.length cs1 <= List.length cs)%nat).
  { destruct cs as [|c rest]; [eexists _, _; split; [reflexivity | lia]|].
    destruct (ascii_dec c "-") as [-> | Hc].
    - eexists _, _; split; [reflexivity | simpl; lia].
    - exists false, (c :: rest). split; [|lia].
      destruct c as [[] [] [] [] [] [] [] []]; try reflexivity.
      now destruct Hc. }
  destruct Hsign as (neg & cs1 & Hsign & Hcs1). rewrite Hsign.
  assert (Hint : forall i cs2,
             match cs1 with
             | "0"%char :: rest => Some (0, rest)
             | _ => let '(v, n, rest) := digits 0 0 cs1 in
                    if (n =? 0)%nat then None else Some (v, rest)
             end = Some (i, cs2) ->
             (List.length cs2 < List.length cs1)%nat).
  { intros i cs2 Hi.
    assert (Hd : (let '(v, n, rest) := digits 0 0 cs1 in
                  if (n =? 0)%nat then None else Some (v, rest))
                 = Some (i, cs2) ->
                 (List.length cs2 < List.length cs1)%nat).
    { destruct (digits 0 0 cs1) as [[v0 n0] rest0] eqn:E.
      apply digits_length in E.
      destruct (Nat.eqb_spec n0 0); [discriminate|].
      intros Hx. injection Hx as <- <-. lia. }
    destruct cs1 as [|c rest]; [now apply Hd|].
    destruct (ascii_dec c "0") as [-> | Hc].
    - injection Hi as <- <-. simpl. lia.
    - apply Hd. rewrite <- Hi.
      destruct c as [[] [] [] [] [] [] [] []]; try reflexivity.
      now destruct Hc. }
  destruct (match cs1 with
            | "0"%char :: rest => Some (0, rest)
            | _ => let '(v, n, rest) := digits 0 0 cs1 in
                   if (n =? 0)%nat then None else Some (v, rest)
            end) as [[i cs2]|] eqn:Ei; [|intros; discriminate].
  specialize (Hint _ _ eq_refl). cbn [mbind option_bind].
  assert (Hfrac : forall m scale cs3,
             match cs2 with
             | "."%char :: rest =>
                 let '(v, n, rest') := digits i 0 rest in
                 if (n =? 0)%nat then None else Some (v, Z.of_nat n, rest')
             | _ => Some (i, 0, cs2)
             end = Some (m, scale, cs3) ->
             (List.length cs3 <= List.length cs2)%nat).
  { intros m scale cs3 Hf.
    destruct cs2 as [|c rest]; [injection Hf as <- <- <-; lia|].
    destruct (ascii_dec c ".") as [-> | Hc].
    - destruct (digits i 0 rest) as [[v0 n0] rest0] eqn:E.
      apply digits_length in E.
      destruct (n0 =? 0)%nat; [discriminate|].
      injection Hf as <- <- <-. simpl. lia.
    - assert (Hf' : Some (i, 0, c :: rest) = Some (m, scale, cs3)).
      { rewrite <- Hf.
        destruct c as [[] [] [] [] [] [] [] []]; try reflexivity.
        now destruct Hc. }
      injection Hf' as <- <- <-. lia. }
  destruct (match cs2 with
            | "."%char :: rest =>
                let '(v, n, rest') := digits i 0 rest in
                if (n =? 0)%nat then None else Some (v, Z.of_nat n, rest')
            | _ => Some (i, 0, cs2)
            end) as [[[m scale] cs3]|] eqn:Ef; [|intros; discriminate].
  specialize (Hfrac _ _ _ eq_refl). cbn [mbind option_bind].
  assert (Hexp : forall e cs4,
             match cs3 with
             | c :: rest =>
                 if (code c =? 101)%N || (code c =? 69)%N then
                   let '(eneg, rest1) :=
                     match rest with
                     | "-"%char :: r => (true, r)
                     | "+"%char :: r => (false, r)
                     | _ => (false, rest)
                     end in
                   let '(v, n, rest2) := digits 0 0 rest1 in
                   if (n =? 0)%nat then None
                   else Some (if eneg then - v else v, rest2)
                 else Some (0, cs3)
             | [] => Some (0, cs3)
             end = Some (e, cs4) ->
             (List.length cs4 <= List.length cs3)%nat).
  { intros e cs4 He.
    destruct cs3 as [|c rest]; [injection He as <- <-; lia|].
    destruct ((code c =? 101)%N || (code c =? 69)%N);
      [|injection He as <- <-; lia].
    assert (Hs : exists eneg rest1,
               match rest with
               | "-"%char :: r => (true, r)
               | "+"%char :: r => (false, r)
               | _ => (false, rest)
               end = (eneg, rest1)
               /\ (List.length rest1 <= List.length rest)%nat).
    { destruct rest as [|c' r']; [eexists _, _; split; [reflexivity|lia]|].
      destruct (ascii_dec c' "-") as [-> | Hm];
        [eexists _, _; split; [reflexivity | simpl; lia]|].
      destruct (ascii_dec c' "+") as [-> | Hp];
        [eexists _, _; split; [reflexivity | simpl; lia]|].
      exists false, (c' :: r'). split; [|lia].
      destruct c' as [[] [] [] [] [] [] [] []]; try reflexivity;
        [now destruct Hp | now destruct Hm]. }
    destruct Hs as (eneg & rest1 & Hs & Hl). rewrite Hs in He.
    destruct (digits 0 0 rest1) as [[v0 n0] rest2] eqn:E.
    apply digits_length in E.
    destruct (n0 =? 0)%nat; [discriminate|].
    injection He as <- <-. simpl. lia. }
  destruct (match cs3 with
            | c :: rest => _
            | [] => Some (0, cs3)
            end) as [[e cs4]|] eqn:Ee; [|intros; discriminate].
  specialize (Hexp _ _ eq_refl). cbn [mbind option_bind].
  intros H. injection H as <- <-. lia.
Qed.

Lemma literal_lt (word : string) (v v' : JS.Value) (cs r : list ascii) :
  word <> EmptyString ->
  literal word v cs = Some (v', r) -> (List.length r < List.length cs)%nat.
Proof.
  unfold literal. intros Hw H.
  assert (Hpos : (0 < List.length (list_ascii_of_string word))%nat).
  { destruct word; [now destruct Hw | simpl; lia]. }
  destruct (decide _) as [E|]; [|discriminate].
  injection H as <- <-.
  apply (f_equal List.length) in E. rewrite length_take in E.
  rewrite length_drop. lia.
Qed.

Lemma parseValue_S (f : nat) (cs : list ascii) :
  parseValue (S f) cs
  = match cs with
    | [] => None
    | c :: rest =>
        if (code c =? 34)%N then
          '(s, r) ← parseString rest; Some (JS.Str s, r)
        else if (code c =? 91)%N then
          match skipWs rest with
          | c' :: r =>
              if (code c' =? 93)%N then Some (JS.Arr [], r)
              else '(xs, r') ← parseElements f (skipWs rest);
                   Some (JS.Arr xs, r')
          | [] => None
          end
        else if (code c =? 123)%N then
          match skipWs rest with
          | c' :: r =>
              if (code c' =? 125)%N then Some (JS.Obj [], r)
              else '(kvs, r') ← parseMembers f (skipWs rest);
                   Some (JS.Obj kvs, r')
          | [] => None
          end
        else if (code c =? 116)%N then literal "true" (JS.Bool true) cs
        else if (code c =? 102)%N then literal "false" (JS.Bool false) cs
        else if (code c =? 110)%N then literal "null" JS.Null cs
        else parseNumber cs
    end.
Proof. reflexivity. Qed.

Lemma parseElements_S (f : nat) (cs : list ascii) :
  parseElements (S f) cs
  = '(v, r) ← parseValue f cs;
    match skipWs r with
    | c :: r' =>
        if (code c =? 44)%N then
          '(vs, r'') ← parseElements f (skipWs r'); Some (v :: vs, r'')
        else if (code c =? 93)%N then Some ([v], r')
        else None
    | [] => None
    end.
Proof. reflexivity. Qed.

Lemma parseMembers_S (f : nat) (cs : list ascii) :
  parseMembers (S f) cs
  = match cs with
    | c :: rest =>
        if (code c =? 34)%N then
          '(k, r) ← parseString rest;
          match skipWs r with
          | colon :: r1 =>
              if (code colon =? 58)%N then
                '(v, r2) ← parseValue f (skipWs r1);
                match skipWs r2 with
                | c' :: r3 =>
                    if (code c' =? 44)%N then
                      '(kvs, r4) ← parseMembers f (skipWs r3);
                      Some ((k, v) :: kvs, r4)
                    else if (code c' =? 125)%N then Some ([(k, v)], r3)
                    else None
                | [] => None
                end
              else None
          | [] => None
          end
        else None
    | [] => None
    end.
Proof. reflexivity. Qed.

(** Every parser reads at least one character. *)
Lemma parse_lt (f : nat) :
  (forall cs v r, parseValue f cs = Some (v, r) ->
                  (List.length r < List.length cs)%nat)
  /\ (forall cs vs r, parseElements f cs = Some (vs, r) ->
                      (List.length r < List.length cs)%nat)
  /\ (forall cs kvs r, parseMembers f cs = Some (kvs, r) ->
                       (List.length r < List.length cs)%nat).
Proof.
  induction f as [|f (IHv & IHe & IHm)];
    [repeat split; intros; discriminate|].
  repeat split.
  - intros cs v r. rewrite parseValue_S.
    destruct cs as [|c rest]; [discriminate|].
    destruct (code c =? 34)%N.
    { destruct (parseString rest) as [[s0 r0]|] eqn:E; [|discriminate].
      intros H. injection H as <- <-. apply parseString_lt in E.
      simpl. lia. }
    destruct (code c =? 91)%N.
    { pose proof (skipWs_le rest) as Hws.
      destruct (skipWs rest) as [|c' r'] eqn:Ews; [discriminate|].
      destruct (code c' =? 93)%N.
      - intros H. injection H as <- <-. simpl in *. lia.
      - destruct (parseElements f (c' :: r')) as [[xs r0]|] eqn:E;
          [|discriminate].
        intros H. injection H as <- <-. apply IHe in E. simpl in *. lia. }
    destruct (code c =? 123)%N.
    { pose proof (skipWs_le rest) as Hws.
      destruct (skipWs rest) as [|c' r'] eqn:Ews; [discriminate|].
      destruct (code c' =? 125)%N.
      - intros H. injection H as <- <-. simpl in *. lia.
      - destruct (parseMembers f (c' :: r')) as [[xs r0]|] eqn:E;
          [|discriminate].
        intros H. injection H as <- <-. apply IHm in E. simpl in *. lia. }
    destruct (code c =? 116)%N; [now apply literal_lt|].
    destruct (code c =? 102)%N; [now apply literal_lt|].
    destruct (code c =? 110)%N; [now apply literal_lt|].
    apply parseNumber_lt.
  - intros cs vs r. rewrite parseElements_S.
    destruct (parseValue f cs) as [[v r0]|] eqn:E; [|discriminate].
    apply IHv in E. cbn [mbind option_bind].
    pose proof (skipWs_le r0) as Hws.
    destruct (skipWs r0) as [|c r'] eqn:Ews; [discriminate|].
    destruct (code c =? 44)%N.
    + pose proof (skipWs_le r') as Hws'.
      destruct (parseElements f (skipWs r')) as [[vs0 r1]|] eqn:E';
        [|discriminate].
      intros H. injection H as <- <-. apply IHe in E'. simpl in *. lia.
    + destruct (code c =? 93)%N; [|discriminate].
      intros H. injection H as <- <-. simpl in *. lia.
  - intros cs kvs r. rewrite parseMembers_S.
    destruct cs as [|c rest]; [discriminate|].
    destruct (code c =? 34)%N; [|discriminate].
    destruct (parseString rest) as [[k r0]|] eqn:E; [|discriminate].
    apply parseString_lt in E. cbn [mbind option_bind].
    pose proof (skipWs_le r0) as Hws.
    destruct (skipWs r0) as [|colon r1] eqn:Ews; [discriminate|].
    destruct (code colon =? 58)%N; [|discriminate].
    pose proof (skipWs_le r1) as Hws1.
    destruct (parseValue f (skipWs r1)) as [[v r2]|] eqn:E2; [|discriminate].
    apply IHv in E2. cbn [mbind option_bind].
    pose proof (skipWs_le r2) as Hws2.
    destruct (skipWs r2) as [|c' r3] eqn:Ews2; [discriminate|].
    destruct (code c' =? 44)%N.
    + pose proof (skipWs_le r3) as Hws3.
      destruct (parseMembers f (skipWs r3)) as [[kvs0 r4]|] eqn:E3;
        [|discriminate].
      intros H. injection H as <- <-. apply IHm in E3. simpl in *. lia.
    + destruct (code c' =? 125)%N; [|discriminate].
      intros H. injection H as <- <-. simpl in *. lia.
Qed.

(** With fuel above twice the length of the input the result no longer
    depends on the fuel: the parser never stops for lack of it. *)
Lemma fuel_stable (n : nat) :
  forall cs,
    (List.length cs <= n)%nat ->
    (forall m1 m2, (2 * n + 1 <= m1)%nat -> (2 * n + 1 <= m2)%nat ->
                   parseValue m1 cs = parseValue m2 cs)
    /\ (forall m1 m2, (2 * n + 2 <= m1)%nat -> (2 * n + 2 <= m2)%nat ->
                      parseElements m1 cs = parseElements m2 cs)
    /\ (forall m1 m2, (2 * n + 2 <= m1)%nat -> (2 * n + 2 <= m2)%nat ->
                      parseMembers m1 cs = parseMembers m2 cs).
Proof.
  induction n as [|n IH]; intros cs Hlen.
  - destruct cs; [|simpl in Hlen; lia].
    repeat split; intros [|m1] [|m2] H1 H2; try lia; try reflexivity.
    rewrite !parseElements_S.
    now destruct m1, m2.
  - assert (V : forall m1 m2,
               (2 * S n + 1 <= m1)%nat -> (2 * S n + 1 <= m2)%nat ->
               parseValue m1 cs = parseValue m2 cs).
    { intros [|m1] [|m2] H1 H2; try lia.
      rewrite !parseValue_S.
      destruct cs as [|c rest]; [reflexivity|]. simpl in Hlen.
      pose proof (skipWs_le rest) as Hws.
      destruct (IH (skipWs rest) ltac:(lia)) as (_ & IHe & IHm).
      rewrite (IHe m1 m2) by lia. rewrite (IHm m1 m2) by lia.
      reflexivity. }
    split; [exact V|]. split.
    + intros [|m1] [|m2] H1 H2; try lia.
      rewrite !parseElements_S.
      rewrite (V m1 m2) by lia.
      destruct (parseValue m2 cs) as [[v r]|] eqn:E; [|reflexivity].
      apply (proj1 (parse_lt m2)) in E. cbn [mbind option_bind].
      pose proof (skipWs_le r) as Hws.
      destruct (skipWs r) as [|c r'] eqn:Ews; [reflexivity|].
      pose proof (skipWs_le r') as Hws'. simpl in Hws.
      destruct (IH (skipWs r') ltac:(lia)) as (_ & IHe & _).
      rewrite (IHe m1 m2) by lia. reflexivity.
    + intros [|m1] [|m2] H1 H2; try lia.
      rewrite !parseMembers_S.
      destruct cs as [|c rest]; [reflexivity|]. simpl in Hlen.
      destruct (code c =? 34)%N; [|reflexivity].
      destruct (parseString rest) as [[k r]|] eqn:E; [|reflexivity].
      apply parseString_lt in E. cbn [mbind option_bind].
      pose proof (skipWs_le r) as Hws.
      destruct (skipWs r) as [|colon r1] eqn:Ews; [reflexivity|].
      destruct (code colon =? 58)%N; [|reflexivity].
      pose proof (skipWs_le r1) as Hws1. simpl in Hws.
      destruct (IH (skipWs r1) ltac:(lia)) as (IHv & _ & _).
      rewrite (IHv m1 m2) by lia.
      destruct (parseValue m2 (skipWs r1)) as [[v r2]|] eqn:E2;
        [|reflexivity].
      apply (proj1 (parse_lt m2)) in E2. cbn [mbind option_bind].
      pose proof (skipWs_le r2) as Hws2.
      destruct (skipWs r2) as [|c' r3] eqn:Ews2; [reflexivity|].
      pose proof (skipWs_le r3) as Hws3. simpl in Hws2.
      destruct (IH (skipWs r3) ltac:(lia)) as (_ & _ & IHm).
      rewrite (IHm m1 m2) by lia. reflexivity.
Qed.

(** [JSON.parse] gives what it would give with any larger fuel: a [None]
    is a syntax error of the text. *)
Lemma parse_fuel_enough (text : string) (fuel : nat) :
  let cs := list_ascii_of_string text in
  (2 * List.length cs + 2 <= fuel)%nat ->
  parse text
  = '(v, rest) ← parseValue fuel (skipWs cs);
    match skipWs rest with
    | [] => Some (dedup v)
    | _ :: _ => None
    end.
Proof.
  cbv zeta. intros Hf. unfold parse.
  pose proof (skipWs_le (list_ascii_of_string text)) as Hws.
  destruct (fuel_stable (List.length (list_ascii_of_string text))
              (skipWs (list_ascii_of_string text)) Hws) as (V & _ & _).
  rewrite (V (2 * List.length (list_ascii_of_string text) + 2)%nat fuel)
    by lia.
  reflexivity.
Qed.

End JsonFuel.

(** ** Field binding: derived validity and error display *)

Section FieldBinding.
Import Form UseField.

(** C3: the derived [showError] is [(valid === false) && formSubmitted],
    where [valid === false] holds exactly when the store's entry carries the
    boolean [false]; so [showError] is [false] whenever the form has not
    been submitted, whatever the validity. *)
Theorem showError_valid_false_and_submitted (c : Context) (o : Options) :
  r_showError (useField c o)
    = (bool_decide (valid c o = false) && c_submitted c)
  /\ r_showError (useField c o)
    = match fieldValid c o with
      | JS.Bool false => c_submitted c
      | _ => false
      end
  /\ (c_submitted c = false -> r_showError (useField c o) = false).
Proof.
  assert (E : r_showError (useField c o)
              = (bool_decide (valid c o = false) && c_submitted c)).
  { simpl. unfold showError. destruct (valid c o); reflexivity. }
  split; [exact E|]. split.
  - simpl. unfold showError, valid.
    now destruct (fieldValid c o) as [| |[]| | | |].
  - intros Hs. rewrite E, Hs. apply andb_false_r.
Qed.

(** C10: when the store has no entry at the field's path, or the entry's
    [valid] is not a boolean, the binding reports [valid = true] and
    [showError = false], also once the form has been submitted. *)
Theorem unvalidated_field_is_valid (c : Context) (o : Options) :
  (c_fields c !! o_path o = None
   \/ exists f, c_fields c !! o_path o = Some f
                /\ JS.typeof (Form.valid f) <> JS.TBoolean) ->
  valid c o = true /\ r_showError (useField c o) = false.
Proof.
  intros H.
  assert (V : valid c o = true).
  { unfold valid, fieldValid, field.
    destruct H as [-> | (f & -> & Hty)]; [reflexivity|].
    destruct (Form.valid f); try reflexivity. now destruct Hty. }
  split; [exact V|]. simpl. unfold showError. now rewrite V.
Qed.

Lemma showError_valid_false_and_submitted_witness :
  c_submitted Examples.unsubmittedContext = false
  /\ valid Examples.unsubmittedContext Examples.titleOptions = false
  /\ r_showError (useField Examples.unsubmittedContext Examples.titleOptions)
     = false.
Proof.
  split; [reflexivity|]. split; [reflexivity|].
  apply (showError_valid_false_and_submitted Examples.unsubmittedContext
           Examples.titleOptions).
  reflexivity.
Defined.

Lemma unvalidated_field_is_valid_witness :
  c_fields Examples.freshContext !! o_path Examples.titleOptions = None
  /\ c_submitted Examples.freshContext = true
  /\ valid Examples.freshContext Examples.titleOptions = true
  /\ r_showError (useField Examples.freshContext Examples.titleOptions)
     = false.
Proof.
  split; [reflexivity|]. split; [reflexivity|].
  apply unvalidated_field_is_valid. left. reflexivity.
Defined.

End FieldBinding.

(** ** Document info: preference key and version fetch *)

Section DocumentInfoFacts.
Import DocumentInfo.



(** Ids as a template literal prints them: a string as it is, a whole
    number in plain decimal below [10^21] and with an exponent from there
    on, a fraction with its decimal point. *)
Lemma idString_examples :
  idString (IdString "42") = "42"
  /\ idString (IdNumber 42 0) = "42"
  /\ idString (IdNumber (-7) 0) = "-7"
  /\ idString (IdNumber 9007199254740992 0) = "9007199254740992"
  /\ idString (IdNumber (10 ^ 21) 0) = "1e+21"
  /\ idString (IdNumber 15 (-1)) = "1.5"
  /\ idString (IdNumber 1 (-7)) = "1e-7".
Proof. repeat split; vm_compute; reflexivity. Qed.

(** C6: for a collection descriptor without a document id, [getVersions]
    completes without a single request and leaves the provider as it was:
    from the initial state, [publishedDoc], [versions] and
    [unpublishedVersions] are still [null]. *)
Theorem getVersions_without_id (net : Fetch) (og : option Entity)
    (c : Entity) (srv a : string) (s : Provider) :
  let p := {| global := og; collection := Some c; id := None;
              serverURL := srv; api := a |} in
  getVersions net p s = (Some tt, s)
  /\ requests (snd (getVersions net p initial)) = []
  /\ publishedDoc (snd (getVersions net p initial)) = JS.Null
  /\ versionsState (snd (getVersions net p initial)) = JS.Null
  /\ unpublishedVersions (snd (getVersions net p initial)) = JS.Null.
Proof. cbv zeta. repeat split. Qed.

End DocumentInfoFacts.

(** ** Rich text: the value handed to the editor *)

Section RichTextValue.
Import RichText.

(** What [valueToRender] is for a string that fails to parse: the [catch]
    is empty, so the string itself stays, and the default document is
    used only when that string is empty.  The fallback is missed for
    every string that neither parses nor is empty. *)
Lemma valueToRender_parse_failure (s : string) :
  JSON.parse s = None ->
  valueToRender (JS.Str s)
    = if String.eqb s EmptyString then defaultValue else JS.Str s.
Proof.
  intros H. unfold valueToRender, parsedValue. rewrite H. simpl.
  now destruct (String.eqb s EmptyString).
Qed.

Lemma valueToRender_parse_failure_example :
  JSON.parse "{'a': 1}" = None
  /\ valueToRender (JS.Str "{'a': 1}") = JS.Str "{'a': 1}".
Proof.
  split; [vm_compute; reflexivity|].
  rewrite (valueToRender_parse_failure "{'a': 1}");
    vm_compute; reflexivity.
Defined.

(** C2, where the code departs from it: ["not valid json"] does not
    parse, and what goes to [<Slate value={valueToRender as any[]}>] is
    that string, which is no array and not the default document; the
    empty string, which does not parse either, does get the default. *)
Theorem valueToRender_not_valid_json :
  JSON.parse "not valid json" = None
  /\ valueToRender (JS.Str "not valid json") = JS.Str "not valid json"
  /\ JS.isArray (valueToRender (JS.Str "not valid json")) = false
  /\ JS.isArray defaultValue = true
  /\ valueToRender (JS.Str "not valid json") <> defaultValue
  /\ valueToRender (JS.Str EmptyString) = defaultValue.
Proof.
  split; [vm_compute; reflexivity|].
  split; [vm_compute; reflexivity|].
  split; [vm_compute; reflexivity|].
  split; [reflexivity|].
  split; [vm_compute; discriminate|].
  vm_compute; reflexivity.
Qed.

End RichTextValue.

(** ** Rich text: read-only mode *)

Section ReadOnly.
Import RichText.

Lemma hasAttribute_put (name value : string)
    (attrs : list (string * string)) :
  DOM.hasAttribute name (DOM.putAttribute name value attrs) = true.
Proof.
  unfold DOM.hasAttribute.
  induction attrs as [|[k v] rest IH]; simpl.
  - now rewrite String.eqb_refl.
  - destruct (String.eqb k name) eqn:E; simpl; rewrite E; [reflexivity|].
    exact IH.
Qed.

(** Whatever state is asked for, a button the [forEach] visited carries a
    [disabled] attribute afterwards. *)
Lemma visited_button_is_disabled (clickState : ClickState)
    (attrs : list (string * string)) (kids : list DOM.Node) :
  isDisabled (visit clickState (DOM.El "BUTTON" attrs kids)) = true.
Proof.
  cbn [visit isDisabled]. unfold matchesSelectors, setChild.
  change (String.eqb "BUTTON" "BUTTON") with true. cbn [orb].
  unfold DOM.setAttribute.
  change (DOM.lower "disabled") with "disabled".
  apply hasAttribute_put.
Qed.

(** C8, at a toolbar with one enabled button: entering read-only mode
    takes the button out of the tab order and disables it; leaving it puts
    [tabindex] back to ["0"] but leaves a [disabled] attribute (with the
    value ["null"]) on the button, which therefore stays disabled: the
    pair does not restore the initial state. *)
Theorem setClickableState_not_symmetric :
  let entered := readOnlyEffect true true Examples.refs in
  let left := readOnlyCleanup true true entered in
  toolbarRef entered
    = DOM.El "DIV" []
        [DOM.El "BUTTON"
           [("type", "button"); ("tabindex", "-1"); ("disabled", "disabled")]
           [DOM.TextNode "B"];
         DOM.El "A" [("href", "#"); ("tabindex", "-1")] []]
  /\ toolbarRef left
    = DOM.El "DIV" []
        [DOM.El "BUTTON"
           [("type", "button"); ("tabindex", "0"); ("disabled", "null")]
           [DOM.TextNode "B"];
         DOM.El "A" [("href", "#"); ("tabindex", "0")] []]
  /\ isDisabled Examples.boldButton = false
  /\ isDisabled (visit enabled (visit disabled Examples.boldButton)) = true
  /\ left <> Examples.refs.
Proof.
  cbv zeta. repeat split; try (vm_compute; reflexivity).
  vm_compute. discriminate.
Qed.

End ReadOnly.

(** ** Field binding: [setValue] and the validation commit *)

Ltac default_some :=
  repeat match goal with
    | |- context [default ?y (Some ?x)] => change (default y (Some x)) with x
    | H : context [default ?y (Some ?x)] |- _ =>
        change (default y (Some x)) with x in H
    end.

Section FieldUpdates.
Import Form UseField.

Lemma truthy_get (v : JS.Value) (k : string) :
  JS.truthy v = true -> JS.get v k = Some (JS.get_opt v k).
Proof. unfold JS.get_opt. destruct v; simpl; intros H; congruence. Qed.

(** The value [setValue] extracts is always defined: [e.target.value] when
    [e] and [e.target] are truthy, [e] otherwise. *)
Lemma eventValue_total (e : JS.Value) :
  eventValue e
    = Some (if JS.truthy e && JS.truthy (JS.get_opt e "target")
            then JS.get_opt (JS.get_opt e "target") "value" else e).
Proof.
  unfold eventValue. destruct (JS.truthy e) eqn:He; [|reflexivity].
  rewrite (truthy_get _ _ He). simpl.
  destruct (JS.truthy (JS.get_opt e "target")) eqn:Ht; [|reflexivity].
  now rewrite (truthy_get _ _ Ht).
Qed.

Lemma setValue_effects (c : Context) (o : Options) (e : JS.Value)
    (skip : bool) :
  dispatchField c = true -> setModified c = true ->
  setValue c o e skip
    = {| effects :=
           (if negb (c_modified c) && negb skip
            then [SetModified true] else [])
           ++ [Dispatch
                 (valueUpdate o
                    (if JS.truthy e && JS.truthy (JS.get_opt e "target")
                     then JS.get_opt (JS.get_opt e "target") "value"
                     else e))];
         threw := false |}.
Proof.
  intros Hd Hm. unfold setValue. rewrite eventValue_total, Hd, Hm.
  now destruct (negb (c_modified c) && negb skip).
Qed.

Lemma performAll_app (st : State) (xs ys : list Effect) :
  performAll st (xs ++ ys) = performAll (performAll st xs) ys.
Proof. apply foldl_app. Qed.

Lemma fields_performAll_marks (st : State) (b : bool) :
  fields (performAll st (if b then [SetModified true] else [])) = fields st.
Proof. now destruct b. Qed.

Lemma modified_performAll_setValue (st : State) (b : bool) (a : UPDATE) :
  modified (performAll st
              ((if b then [SetModified true] else []) ++ [Dispatch a]))
  = (b || modified st).
Proof. now destruct b. Qed.

Lemma setValues_marks (c : Context) (o : Options)
    (calls : list (JS.Value * bool)) (st : State) :
  dispatchField c = true -> setModified c = true ->
  List.length (List.filter isSetModified (snd (setValues c o calls st)))
  = if modified st then 0%nat
    else if existsb (fun call => negb (snd call)) calls then 1%nat
         else 0%nat.
Proof.
  intros Hd Hm. revert st.
  induction calls as [|[e skip] rest IH]; intros st.
  - simpl. now destruct (modified st).
  - simpl.
    rewrite (setValue_effects (render c st) o e skip Hd Hm). simpl.
    specialize (IH (performAll st
      ((if negb (modified st) && negb skip then [SetModified true] else [])
       ++ [Dispatch
             (valueUpdate o
                (if JS.truthy e && JS.truthy (JS.get_opt e "target")
                 then JS.get_opt (JS.get_opt e "target") "value"
                 else e))]))).
    rewrite modified_performAll_setValue in IH.
    destruct (setValues c o rest _) as [st' efs'] eqn:E. simpl in *.
    rewrite List.filter_app, List.length_app, List.filter_app,
      List.length_app, IH.
    now destruct (modified st), skip.
Qed.

(** C4: [setValue(e)] dispatches one [UPDATE] for the field's path whose
    value is [e.target.value] when [e] is an event-like object with a
    target, and [e] itself otherwise; the action carries no [initialValue],
    so after it the store reads the new value and the same [initialValue]
    as before; and over any series of calls the form is marked modified
    exactly once, by the first call that does not ask to skip it, and not
    at all when it was modified already or every call skips it. *)
Theorem setValue_dispatches_update (c : Context) (o : Options)
    (st : State) (e : JS.Value) (skip : bool)
    (calls : list (JS.Value * bool)) :
  dispatchField c = true -> setModified c = true ->
  let val := if JS.truthy e && JS.truthy (JS.get_opt e "target")
             then JS.get_opt (JS.get_opt e "target") "value" else e in
  let out := setValue (render c st) o e skip in
  let st' := performAll st (effects out) in
  threw out = false
  /\ List.filter isDispatch (effects out) = [Dispatch (valueUpdate o val)]
  /\ u_value (valueUpdate o val) = Some val
  /\ u_initialValue (valueUpdate o val) = None
  /\ List.filter isSetModified (effects out)
     = (if negb (modified st) && negb skip then [SetModified true] else [])
  /\ value (render c st') o = val
  /\ initialValue (render c st') o = initialValue (render c st) o
  /\ modified st' = (modified st || negb skip)
  /\ List.length (List.filter isSetModified (snd (setValues c o calls st)))
     = (if modified st then 0%nat
        else if existsb (fun call => negb (snd call)) calls then 1%nat
             else 0%nat).
Proof.
  intros Hd Hm. cbv zeta.
  rewrite (setValue_effects (render c st) o e skip Hd Hm). simpl.
  split; [reflexivity|].
  split; [now destruct (negb (modified st) && negb skip)|].
  split; [reflexivity|]. split; [reflexivity|].
  split; [now destruct (negb (modified st) && negb skip)|].
  rewrite !performAll_app. simpl.
  rewrite !fields_performAll_marks.
  split; [|split; [|split]].
  - unfold value, field; simpl. unfold fieldReducer; simpl.
    now rewrite lookup_insert_eq.
  - unfold initialValue, field; simpl. unfold fieldReducer; simpl.
    rewrite lookup_insert_eq. simpl.
    now destruct (fields st !! o_path o).
  - destruct (modified st) eqn:M, skip; simpl; rewrite ?M; reflexivity.
  - now apply setValues_marks.
Qed.

Lemma setValue_dispatches_update_witness :
  dispatchField Examples.freshContext = true
  /\ setModified Examples.freshContext = true
  /\ List.filter isDispatch
       (effects (setValue (render Examples.freshContext Examples.formState)
                   Examples.titleOptions Examples.changeEvent false))
     = [Dispatch (valueUpdate Examples.titleOptions (JS.Str "Hi"))]
  /\ List.length
       (List.filter isSetModified
          (snd (setValues Examples.freshContext Examples.titleOptions
                  [(JS.Str "H", true); (Examples.changeEvent, false);
                   (JS.Str "Hi!", false)]
                  Examples.formState))) = 1%nat.
Proof.
  pose proof (setValue_dispatches_update Examples.freshContext
                Examples.titleOptions Examples.formState
                Examples.changeEvent false
                [(JS.Str "H", true); (Examples.changeEvent, false);
                 (JS.Str "Hi!", false)] eq_refl eq_refl) as H.
  cbv zeta in H.
  destruct H as (_ & Hdisp & _ & _ & _ & _ & _ & _ & Hmarks).
  split; [reflexivity|]. split; [reflexivity|].
  split; [exact Hdisp | exact Hmarks].
Defined.

(** *** The validation commit *)

Lemma valid_path (c : Context) (o o' : Options) :
  o_path o = o_path o' -> valid c o = valid c o'.
Proof. intros H. unfold valid, fieldValid, field. now rewrite H. Qed.

Lemma valid_after_commit (c : Context) (o : Options) (st : State)
    (a : UPDATE) (b : bool) :
  path a = o_path o -> u_valid a = Some (JS.Bool b) ->
  valid (render c (performAll st [Dispatch a])) o = b.
Proof.
  intros Hp Hv. unfold valid, fieldValid, field. simpl.
  unfold fieldReducer. rewrite Hp, lookup_insert_eq. simpl.
  now rewrite Hv.
Qed.

Lemma validationAction_path (c : Context) (o : Options) :
  path (validationAction c o) = o_path o.
Proof. unfold validationAction. now destruct (validationResult c o). Qed.

(** A validation function that keeps to its type computes a boolean
    validity. *)
Lemma typed_computed (c : Context) (o : Options) :
  typed o -> exists b, u_valid (validationAction c o) = Some (JS.Bool b).
Proof.
  unfold typed, validationAction, validationResult.
  destruct (o_validate o) as [f|]; intros H; [|now exists true].
  specialize (H (value c o) (validateOptions c o)).
  destruct (f (value c o) (validateOptions c o)); try discriminate;
    eexists; reflexivity.
Qed.

Lemma validateField_boolean (c : Context) (o : Options) (b : bool) :
  dispatchField c = true ->
  u_valid (validationAction c o) = Some (JS.Bool b) ->
  validateField c o
  = if Bool.eqb b (valid c o) then []
    else [Dispatch (validationAction c o)].
Proof.
  intros D Hb. unfold validateField. cbv zeta. rewrite Hb, D.
  default_some. cbn [differs]. rewrite andb_true_r.
  now destruct (Bool.eqb b (valid c o)).
Qed.

(** An action that carries no [valid] leaves the validity of every field
    as it is. *)
Lemma fieldValid_perform (c : Context) (o : Options) (st : State)
    (ef : Effect) :
  (forall a, ef = Dispatch a -> u_valid a = None) ->
  fieldValid (render c (perform st ef)) o = fieldValid (render c st) o.
Proof.
  intros H. destruct ef as [b | a]; [reflexivity|].
  specialize (H a eq_refl).
  unfold fieldValid, field. cbn [render c_fields perform fields].
  unfold fieldReducer.
  destruct (decide (path a = o_path o)) as [E | E].
  - rewrite E, lookup_insert_eq. unfold mergeField. cbn [Form.valid].
    rewrite H. unfold default at 1.
    now destruct (fields st !! o_path o).
  - now rewrite lookup_insert_ne.
Qed.

Lemma valid_setValue (c c' : Context) (o o' : Options) (st : State)
    (e : JS.Value) (skip : bool) :
  valid (render c (performAll st (effects (setValue c' o' e skip)))) o
  = valid (render c st) o.
Proof.
  assert (H : Forall (fun ef => forall a, ef = Dispatch a -> u_valid a = None)
                (effects (setValue c' o' e skip))).
  { unfold setValue. destruct (eventValue e) as [val|]; [|constructor].
    destruct (negb (c_modified c') && negb skip), (setModified c'),
      (dispatchField c'); cbn [effects app];
      repeat constructor; intros a Ha; try discriminate;
      injection Ha as <-; reflexivity. }
  assert (E : fieldValid
                (render c (performAll st (effects (setValue c' o' e skip))))
                o
              = fieldValid (render c st) o).
  { revert st. induction H as [|ef efs Hef _ IH]; intros st; [reflexivity|].
    cbn [performAll foldl]. fold (performAll (perform st ef) efs).
    rewrite IH. now apply fieldValid_perform. }
  unfold valid. now rewrite E.
Qed.

(** *** Runs over time *)

Lemma run_app (c : Context) (xs ys : list Event) (s : Session) :
  run c (xs ++ ys) s = run c ys (run c xs s).
Proof. apply foldl_app. Qed.

(** A run made alone: it fires and ends with nothing in between. *)
Lemma run_validation (c : Context) (o : Options) (s : Session) :
  awaiting s = [] ->
  run c (turnEvents (Validation o)) s
  = settle s {| closure := render c (form s); options := o |} [].
Proof.
  intros Hw. cbn [turnEvents run foldl step].
  destruct (o_validate o) as [f|].
  - rewrite Hw. cbn [app awaiting lookup list_lookup delete].
    reflexivity.
  - unfold settle at 2. cbn [awaiting]. rewrite Hw.
    cbn [lookup list_lookup]. reflexivity.
Qed.

(** Every run that ended issued what [validateField] gives for its own
    closure, whatever happened while it waited; and the closure is a
    render of the form. *)
Lemma settled_invariant (c : Context) (evs : list Event) :
  forall s,
    Forall (fun r => dispatchField (closure r) = dispatchField c)
      (awaiting s) ->
    Forall (fun re => snd re = validateField (closure (fst re))
                                 (options (fst re))
                      /\ dispatchField (closure (fst re)) = dispatchField c)
      (settled s) ->
    Forall (fun re => snd re = validateField (closure (fst re))
                                 (options (fst re))
                      /\ dispatchField (closure (fst re)) = dispatchField c)
      (settled (run c evs s)).
Proof.
  induction evs as [|ev evs IH]; intros s Hw Hs; [exact Hs|].
  cbn [run foldl]. apply IH; destruct ev as [o | i | i | o e skip];
    cbn [step]; try assumption.
  - destruct (o_validate o); cbn [awaiting settle]; [|exact Hw].
    apply Forall_app; split; [exact Hw|]. now repeat constructor.
  - destruct (awaiting s !! i) as [r|] eqn:E; [|exact Hw].
    cbn [settle awaiting].
    rewrite delete_take_drop.
    apply Forall_app; split;
      [now apply Forall_take | now apply Forall_drop].
  - cbn [awaiting]. rewrite delete_take_drop.
    apply Forall_app; split;
      [now apply Forall_take | now apply Forall_drop].
  - destruct (o_validate o); cbn [settled settle]; [exact Hs|].
    apply Forall_app; split; [exact Hs|]. now repeat constructor.
  - destruct (awaiting s !! i) as [r|] eqn:E; [|exact Hs].
    cbn [settle settled].
    apply Forall_app; split; [exact Hs|].
    repeat constructor.
    exact (Forall_lookup_1 _ _ _ _ Hw E).
Qed.

Lemma dispatches_app (xs ys : list (Run * list Effect)) :
  dispatches (xs ++ ys) = (dispatches xs + dispatches ys)%nat.
Proof.
  unfold dispatches.
  now rewrite map_app, concat_app, List.filter_app, List.length_app.
Qed.

(** Without a dispatch function nothing is dispatched, whatever the
    schedule. *)
Lemma run_no_dispatch (c : Context) (evs : list Event) (st : State) :
  dispatchField c = false ->
  dispatches (settled (run c evs (start st))) = 0%nat.
Proof.
  intros D.
  pose proof (settled_invariant c evs (start st)
                ltac:(constructor) ltac:(constructor)) as H.
  unfold dispatches.
  induction H as [|[r efs] log [Hefs Hd] _ IH]; [reflexivity|].
  cbn [map snd fst List.concat] in *.
  rewrite List.filter_app, List.length_app, IH, Hefs.
  unfold validateField. rewrite Hd, D, andb_false_r. reflexivity.
Qed.

(** Runs that follow one another: each commits exactly when the validity
    it computes is not the one committed before it. *)
Lemma serial_commits (c : Context) (o0 : Options) (turns : list Turn) :
  dispatchField c = true ->
  Forall (onField o0) turns ->
  forall s,
    awaiting s = [] ->
    exists new,
      settled (run c (inTurn turns) s) = settled s ++ new
      /\ dispatches new
         = Counting.changes (valid (render c (form s)) o0)
             (map (fun re => computedValid (fst re)) new).
Proof.
  intros D. induction 1 as [|t turns Hon _ IH]; intros s Hw.
  - exists []. now rewrite app_nil_r.
  - unfold inTurn. cbn [map List.concat]. fold (inTurn turns).
    rewrite run_app. destruct t as [o | o e skip]; cbn [onField] in Hon.
    + destruct Hon as [Hp Ht]. rewrite (run_validation c o s Hw).
      set (r := {| closure := render c (form s); options := o |}).
      destruct (typed_computed (render c (form s)) o Ht) as [b Hb].
      assert (Hefs : validateField (closure r) (options r)
                     = if Bool.eqb b (valid (render c (form s)) o0) then []
                       else [Dispatch
                               (validationAction (render c (form s)) o)]).
      { cbn [r closure options].
        rewrite (validateField_boolean (render c (form s)) o b D Hb).
        now rewrite (valid_path _ o o0 Hp). }
      assert (Hcv : computedValid r = b).
      { unfold computedValid, computed. cbn [r closure options].
        now rewrite Hb. }
      destruct (IH (settle s r []) eq_refl) as (new & Hnew & Hcount).
      exists ((r, validateField (closure r) (options r)) :: new).
      split.
      { rewrite Hnew. cbn [settle settled]. now rewrite <- app_assoc. }
      cbn [map fst Counting.changes]. rewrite Hcv.
      change ((r, validateField (closure r) (options r)) :: new)
        with ([(r, validateField (closure r) (options r))] ++ new).
      rewrite dispatches_app, Hcount. cbn [settle form].
      rewrite Hefs.
      destruct (Bool.eqb b (valid (render c (form s)) o0)) eqn:G.
      * apply Bool.eqb_prop in G. cbn [performAll foldl]. now rewrite G.
      * rewrite (valid_after_commit c o0 (form s) _ b);
          [reflexivity | | exact Hb].
        now rewrite validationAction_path.
    + destruct (IH (run c (turnEvents (Change o e skip)) s) Hw)
        as (new & Hnew & Hcount).
      exists new. split; [exact Hnew|].
      rewrite Hcount. cbn [turnEvents run foldl step form].
      now rewrite valid_setValue.
Qed.

Lemma changes_constant (b : bool) (bs : list bool) :
  Forall (fun x => x = b) bs ->
  forall v, (Counting.changes v bs <= 1)%nat.
Proof.
  intros H.
  assert (H0 : Counting.changes b bs = 0%nat).
  { induction H as [|x bs -> _ IH]; [reflexivity|].
    cbn [Counting.changes]. now rewrite Bool.eqb_reflx, IH. }
  destruct H as [|x bs -> Hbs]; intros v; cbn [Counting.changes]; [lia|].
  cbn [Counting.changes] in H0. rewrite Bool.eqb_reflx in H0.
  cbn [Nat.add] in H0. rewrite H0. destruct (Bool.eqb b v); cbn; lia.
Qed.

(** C1, as the code has it: a run dispatches only when the validity it
    computed is not the one its own render read (and [dispatchField] is a
    function); that holds for every run of every schedule, also for one
    that ends after the store has moved on; a message for a field that its
    render saw invalid is never dispatched; and for validation functions
    that give a boolean or a string, runs that follow one another, each
    ending before the next fires, commit at most once while they keep
    computing one validity. *)
Theorem validation_commits_on_change_only (c : Context) (o0 : Options)
    (st : State) (turns : list Turn) (b : bool) :
  Forall (onField o0) turns ->
  Forall (fun re => computedValid (fst re) = b)
    (settled (run c (inTurn turns) (start st))) ->
  (forall c' o a,
      In (Dispatch a) (validateField c' o) ->
      a = validationAction c' o
      /\ u_valid a <> Some (JS.Bool (valid c' o))
      /\ dispatchField c' = true)
  /\ (forall evs r efs,
        In (r, efs) (settled (run c evs (start st))) ->
        efs = validateField (closure r) (options r))
  /\ (forall c' o message,
        valid c' o = false -> validationResult c' o = JS.Str message ->
        validateField c' o = [])
  /\ (dispatches (settled (run c (inTurn turns) (start st))) <= 1)%nat.
Proof.
  intros Hturns Hall. split; [|split; [|split]].
  - intros c' o a Ha. unfold validateField in Ha.
    destruct (differs _ _ && dispatchField c') eqn:G; [|destruct Ha].
    destruct Ha as [Ha | []]. injection Ha as <-.
    apply andb_true_iff in G as [G D].
    split; [reflexivity|]. split; [|exact D].
    intros Heq. rewrite Heq in G. default_some. cbn [differs] in G.
    now rewrite Bool.eqb_reflx in G.
  - intros evs r efs Hin.
    pose proof (settled_invariant c evs (start st)
                  ltac:(constructor) ltac:(constructor)) as H.
    rewrite List.Forall_forall in H. now destruct (H _ Hin).
  - intros c' o message Hv Hr. unfold validateField, validationAction.
    rewrite Hr. cbn [u_valid]. default_some. cbn [differs]. now rewrite Hv.
  - destruct (dispatchField c) eqn:D;
      [|rewrite run_no_dispatch; [lia | exact D]].
    destruct (serial_commits c o0 turns D Hturns (start st) eq_refl)
      as (new & Hnew & Hcount).
    cbn [start settled app] in Hnew. rewrite Hnew in *. rewrite Hcount.
    apply (changes_constant b).
    apply List.Forall_map. exact Hall.
Qed.

Lemma required_typed : typed Examples.titleOptions.
Proof.
  intros value opts. unfold Examples.required.
  destruct value as [| | | | s | |]; try reflexivity.
  now destruct (String.eqb s EmptyString).
Qed.

Lemma validation_commits_on_change_only_witness :
  (dispatches
     (settled
        (run Examples.freshContext
           (inTurn [Validation Examples.titleOptions;
                    Validation Examples.titleOptions;
                    Validation Examples.titleOptions])
           (start Examples.formState))) <= 1)%nat.
Proof.
  apply (validation_commits_on_change_only Examples.freshContext
           Examples.titleOptions Examples.formState
           [Validation Examples.titleOptions;
            Validation Examples.titleOptions;
            Validation Examples.titleOptions] false).
  - repeat (constructor;
              [first [exact I | split; [reflexivity | exact required_typed]]|]).
    constructor.
  - vm_compute. repeat constructor.
Defined.

(** C1 as stated fails: a validation function whose result is neither a
    string nor a boolean (here [undefined]) stores that result as
    [valid]; the binding keeps deriving [true] from it, and every run
    dispatches again although the computed validity never changes. *)
Lemma validation_undefined_result_commits_every_run :
  let runs :=
    settled (run Examples.freshContext
               (inTurn [Validation Examples.uncheckedOptions;
                        Validation Examples.uncheckedOptions;
                        Validation Examples.uncheckedOptions])
               (start Examples.formState)) in
  map (fun re => computed (fst re)) runs
  = [JS.Undefined; JS.Undefined; JS.Undefined]
  /\ map (fun re => valid (closure (fst re)) Examples.uncheckedOptions) runs
     = [true; true; true]
  /\ dispatches runs = 3%nat.
Proof. vm_compute. repeat split. Qed.

(** A run that ends after another one has committed compares with the
    validity of its own render, not with the committed one: two
    overlapping runs of a sound validation function both dispatch
    [valid: false]. *)
Lemma validation_overlapping_runs_commit_twice :
  let s :=
    run Examples.freshContext
      [Fire Examples.titleOptions; Fire Examples.titleOptions;
       Resolve 0; Resolve 0]
      (start Examples.formState) in
  map (fun re => computed (fst re)) (settled s)
  = [JS.Bool false; JS.Bool false]
  /\ dispatches (settled s) = 2%nat
  /\ valid (render Examples.freshContext (form s)) Examples.titleOptions
     = false.
Proof. vm_compute. repeat split. Qed.

End FieldUpdates.

(** ** Document info: the drafts query *)

Section Drafts.
Import DocumentInfo.

Lemma bound_published (p : Props) :
  greaterThanBound (publishedFetchURL p) = None.
Proof.
  unfold publishedFetchURL, publishedVersionParams, publishedAnd.
  destruct (collection p), (global p); reflexivity.
Qed.

Lemma bound_versions (p : Props) :
  greaterThanBound (versionsUrl p (versionParams p)) = None.
Proof.
  unfold versionsUrl, versionParams, versionAnd.
  destruct (collection p); reflexivity.
Qed.

Lemma bound_newer (p : Props) (t : JS.Value) :
  greaterThanBound (versionsUrl p (newerVersionParams p t)) = Some t.
Proof.
  unfold versionsUrl, newerVersionParams, versionAnd.
  destruct (collection p); reflexivity.
Qed.

Ltac run_step :=
  match goal with
  | H : False |- _ => destruct H
  | H : _ = _ \/ _ |- _ => destruct H as [<- | H]
  | H : greaterThanBound (publishedFetchURL _) = Some _ |- _ =>
      rewrite bound_published in H; discriminate H
  | H : greaterThanBound (versionsUrl _ (versionParams _)) = Some _ |- _ =>
      rewrite bound_versions in H; discriminate H
  | H : context [match ?net ?u with Some _ => _ | None => _ end] |- _ =>
      destruct (net u) as [?res|] eqn:?Hnet; simpl in H
  | H : context [match json ?r with Some _ => _ | None => _ end] |- _ =>
      destruct (json r) as [?body|] eqn:?Hjson; simpl in H
  | H : context [if ?b then _ else _] |- _ =>
      destruct b eqn:?Hif; simpl in H
  end.

Lemma drafts_query_general (net : Fetch) (p : Props)
    (u : option Url) (t : JS.Value) :
  In u (requests (snd (getVersions net p initial))) ->
  greaterThanBound u = Some t ->
  (exists res body,
      net (publishedFetchURL p) = Some res /\ json res = Some body
      /\ JS.get_opt (snapshot p body) "updatedAt" = t
      /\ JS.truthy t = true)
  /\ u = versionsUrl p (newerVersionParams p t)
  /\ (forall res,
        net u = Some res ->
        (status res <> 200 ->
         fst (getVersions net p initial) = Some tt
         /\ unpublishedVersions (snd (getVersions net p initial)) = JS.Null)
        /\ (forall body,
              status res = 200 -> json res = Some body ->
              fst (getVersions net p initial) = Some tt
              /\ unpublishedVersions (snd (getVersions net p initial))
                 = body)).
Proof.
  intros Hin Hb.
  unfold getVersions, bind, fetch, resJson, ret, setPublishedDoc,
    setVersions, setUnpublishedVersions in *.
  simpl in Hin.
  repeat run_step.
  all: rewrite bound_newer in Hb; injection Hb as <-.
  all: simpl.
  all: (split; [eexists _, _; repeat split; eassumption|]).
  all: (split; [reflexivity|]).
  all: intros res' Hres'.
  all: match type of Hres' with
       | ?lhs = Some ?x =>
           match goal with
           | H : lhs = ?r |- _ =>
               lazymatch r with Some x => fail | _ => idtac end;
               rewrite Hres' in H;
               first [discriminate H | injection H as ->]
           end
       end.
  all: split; [intros Hs; apply Z.eqb_neq in Hs
              | intros body' Hs Hj; apply Z.eqb_eq in Hs].
  all: try congruence.
  all: split; congruence.
Qed.

(** C5: a newer-versions query, one whose [where.and] ends with
    [{ updatedAt: { greater_than: t } }], is sent only after a published
    snapshot with a truthy [updatedAt] was fetched, and [t] is that
    timestamp; when its response does not have status 200 the function
    still completes and [unpublishedVersions] is [null], and when it has,
    [unpublishedVersions] is the body.  In the scenario of the spec the
    version of 2024-01-02 is the one in [unpublishedVersions] and the
    published document's [updatedAt] is 2024-01-01. *)
Theorem getVersions_drafts_query (net : Fetch) (p : Props)
    (u : option Url) (t : JS.Value) :
  In u (requests (snd (getVersions net p initial))) ->
  greaterThanBound u = Some t ->
  (exists res body,
      net (publishedFetchURL p) = Some res /\ json res = Some body
      /\ JS.get_opt (snapshot p body) "updatedAt" = t
      /\ JS.truthy t = true)
  /\ u = versionsUrl p (newerVersionParams p t)
  /\ (forall res,
        net u = Some res ->
        (status res <> 200 ->
         fst (getVersions net p initial) = Some tt
         /\ unpublishedVersions (snd (getVersions net p initial)) = JS.Null)
        /\ (forall body,
              status res = 200 -> json res = Some body ->
              fst (getVersions net p initial) = Some tt
              /\ unpublishedVersions (snd (getVersions net p initial))
                 = body))
  /\ unpublishedVersions
       (snd (getVersions Examples.postServer Examples.postProps initial))
     = JS.Obj [("docs", JS.Arr [Examples.draftVersion]);
               ("totalDocs", JS.Num 1 0)]
  /\ JS.get_opt
       (publishedDoc
          (snd (getVersions Examples.postServer Examples.postProps initial)))
       "updatedAt"
     = JS.Str "2024-01-01T00:00:00Z".
Proof.
  intros Hin Hb.
  destruct (drafts_query_general net p u t Hin Hb) as (H1 & H2 & H3).
  split; [exact H1|]. split; [exact H2|]. split; [exact H3|].
  split; vm_compute; reflexivity.
Qed.

Lemma getVersions_drafts_query_witness :
  In Examples.draftsUrl
    (requests (snd (getVersions Examples.postServer Examples.postProps
                      initial)))
  /\ greaterThanBound Examples.draftsUrl
     = Some (JS.Str "2024-01-01T00:00:00Z")
  /\ Examples.draftsUrl
     = versionsUrl Examples.postProps
         (newerVersionParams Examples.postProps
            (JS.Str "2024-01-01T00:00:00Z"))
  /\ unpublishedVersions
       (snd (getVersions Examples.postServer Examples.postProps initial))
     = JS.Obj [("docs", JS.Arr [Examples.draftVersion]);
               ("totalDocs", JS.Num 1 0)].
Proof.
  assert (Hin : In Examples.draftsUrl
                  (requests (snd (getVersions Examples.postServer
                                    Examples.postProps initial)))).
  { vm_compute. right. right. left. reflexivity. }
  assert (Hb : greaterThanBound Examples.draftsUrl
               = Some (JS.Str "2024-01-01T00:00:00Z")).
  { vm_compute. reflexivity. }
  destruct (getVersions_drafts_query Examples.postServer Examples.postProps
              Examples.draftsUrl (JS.Str "2024-01-01T00:00:00Z") Hin Hb)
    as (_ & Hu & _ & Hdrafts & _).
  split; [exact Hin|]. split; [exact Hb|]. split; [exact Hu | exact Hdrafts].
Defined.


End Drafts.

(** ** Rich text: Backspace in a list item *)

Section ListBackspace.
Import Slate Editable.

Lemma descendant_step (ns : list Node) (k k' : nat) (q : Path) :
  descendant ns (k :: k' :: q)
  = match ns !! k with
    | Some (Element _ _ kids) => descendant kids (k' :: q)
    | _ => None
    end.
Proof. reflexivity. Qed.

Lemma replaceAt_step (ns : list Node) (k k' : nat) (q : Path)
    (repl : list Node) :
  replaceAt ns (k :: k' :: q) repl
  = match ns !! k with
    | Some (Element ty ps kids) =>
        kids' ← replaceAt kids (k' :: q) repl;
        Some (<[k := Element ty ps kids']> ns)
    | _ => None
    end.
Proof. reflexivity. Qed.

Lemma descendant_cons (ns : list Node) (k : nat) (rest : Path)
    (ty : option string) (ps : list (string * JS.Value)) (kids : list Node) :
  ns !! k = Some (Element ty ps kids) -> rest <> [] ->
  descendant ns (k :: rest) = descendant kids rest.
Proof.
  intros Hk Hr. destruct rest; [now destruct Hr|].
  now rewrite descendant_step, Hk.
Qed.

(** Reading below an element: a path through it continues in its
    children. *)
Lemma descendant_app (q r : Path) :
  forall (ns : list Node) ty ps kids,
    descendant ns q = Some (Element ty ps kids) -> r <> [] ->
    descendant ns (q ++ r) = descendant kids r.
Proof.
  induction q as [|k q IH]; intros ns ty ps kids Hq Hr; [discriminate|].
  destruct q as [|k' q'].
  - simpl in Hq. now apply descendant_cons with (ty := ty) (ps := ps).
  - rewrite descendant_step in Hq.
    destruct (ns !! k) as [[|ty0 ps0 kids0]|] eqn:Hk; try discriminate.
    change ((k :: k' :: q') ++ r) with (k :: k' :: (q' ++ r)).
    rewrite descendant_step, Hk.
    now apply (IH kids0 ty ps kids).
Qed.

Section Lowest.
Variable matches : Node -> bool.
Variable isVoid : Node -> bool.



End Lowest.

Lemma textsOf_app (xs ys : list Node) :
  textsOf (xs ++ ys) = textsOf xs ++ textsOf ys.
Proof. unfold textsOf. now rewrite map_app, concat_app. Qed.

Lemma textsOf_cons (n : Node) (ns : list Node) :
  textsOf (n :: ns) = texts n ++ textsOf ns.
Proof. reflexivity. Qed.

Lemma textsOf_wrap (ty : option string) (ps : list (string * JS.Value))
    (kids : list Node) :
  textsOf (wrap ty ps kids) = textsOf kids.
Proof.
  destruct kids; [reflexivity|]. unfold wrap.
  rewrite textsOf_cons. simpl. apply app_nil_r.
Qed.

Lemma textsOf_insert (ns : list Node) (k : nat) (n n' : Node) :
  ns !! k = Some n -> texts n' = texts n ->
  textsOf (<[k := n']> ns) = textsOf ns.
Proof.
  intros Hk Ht. rewrite <- (take_drop_middle ns k n Hk) at 2.
  rewrite insert_take_drop by (now apply lookup_lt_Some with (x := n)).
  rewrite !textsOf_app, !textsOf_cons. now rewrite Ht.
Qed.

(** Replacing a node by nodes with the same text leaves keeps the text
    leaves of the whole tree, in order. *)
Lemma replaceAt_texts (q : Path) (repl : list Node) :
  forall (ns ns' : list Node) (n : Node),
    descendant ns q = Some n -> textsOf repl = texts n ->
    replaceAt ns q repl = Some ns' ->
    textsOf ns' = textsOf ns.
Proof.
  induction q as [|k q IH]; intros ns ns' n Hq Ht Hr; [discriminate|].
  destruct q as [|k' q'].
  - simpl in Hq, Hr. rewrite Hq in Hr. simpl in Hr.
    assert (E : ns' = take k ns ++ repl ++ drop (S k) ns) by congruence.
    subst ns'. clear Hr.
    rewrite <- (take_drop_middle ns k n Hq) at 3.
    rewrite !textsOf_app, textsOf_cons. now rewrite Ht.
  - rewrite descendant_step in Hq. rewrite replaceAt_step in Hr.
    destruct (ns !! k) as [[|ty0 ps0 kids0]|] eqn:Hk; try discriminate.
    destruct (replaceAt kids0 (k' :: q') repl) as [kids'|] eqn:Hk';
      try discriminate.
    cbn [mbind option_bind] in Hr. injection Hr as <-.
    apply (textsOf_insert ns k (Element ty0 ps0 kids0)); [exact Hk|].
    cbn [texts]. apply (IH kids0 kids' n Hq Ht Hk').
Qed.

Lemma replaceAt_defined (q : Path) (repl : list Node) :
  forall (ns : list Node) (n : Node),
    descendant ns q = Some n -> is_Some (replaceAt ns q repl).
Proof.
  induction q as [|k q IH]; intros ns n Hq; [discriminate|].
  destruct q as [|k' q'].
  - simpl in *. rewrite Hq. eauto.
  - rewrite descendant_step in Hq. rewrite replaceAt_step.
    destruct (ns !! k) as [[|ty0 ps0 kids0]|] eqn:Hk; try discriminate.
    destruct (IH kids0 n Hq) as [kids' ->]. simpl. eauto.
Qed.

(** The four cases of [liftChild] leave, in the parent's place, the
    children before the lifted one (in a copy of the parent, when there are
    any), the child, and the children after it (likewise). *)
Lemma liftChild_shape (ty : option string) (ps : list (string * JS.Value))
    (kids : list Node) (i : nat) (child : Node) :
  kids !! i = Some child ->
  liftChild ty ps kids i
  = Some (wrap ty ps (take i kids) ++ [child]
          ++ wrap ty ps (drop (S i) kids)).
Proof.
  intros Hi. unfold liftChild. rewrite Hi. simpl.
  pose proof (lookup_lt_Some _ _ _ Hi) as Hlt.
  pose proof (take_drop_middle kids i child Hi) as Hmid.
  destruct (Nat.eqb_spec (List.length kids) 1) as [H1 | H1].
  { assert (i = 0%nat) by lia. subst i.
    destruct kids as [|x [|y rest]]; simpl in *; try lia. reflexivity. }
  destruct (Nat.eqb_spec i 0) as [H0 | H0].
  { subst i. destruct kids as [|x [|y rest]]; simpl in *; try lia.
    reflexivity. }
  destruct (Nat.eqb_spec i (List.length kids - 1)) as [Hl | Hl].
  { rewrite (drop_ge kids (S i)) by lia.
    destruct (take i kids) eqn:Ht; [|reflexivity].
    apply (f_equal List.length) in Ht. rewrite length_take in Ht.
    simpl in Ht. lia. }
  destruct (take i kids) eqn:Ht.
  { apply (f_equal List.length) in Ht. rewrite length_take in Ht.
    simpl in Ht. lia. }
  destruct (drop (S i) kids) eqn:Hd; [|reflexivity].
  apply (f_equal List.length) in Hd. rewrite length_drop in Hd.
  simpl in Hd. lia.
Qed.

End ListBackspace.

(** ** Document info: how a refresh runs *)

Section Refresh.
Import DocumentInfo.

Ltac refresh_cases :=
  unfold getVersions, bind, fetch, resJson, ret, setPublishedDoc,
    setVersions, setUnpublishedVersions;
  repeat match goal with
         | |- context [match ?net ?u with Some _ => _ | None => _ end] =>
             destruct (net u) as [?res|] eqn:?Hnet; cbn [fst snd]
         | |- context [match json ?r with Some _ => _ | None => _ end] =>
             destruct (json r) as [?body|] eqn:?Hjson; cbn [fst snd]
         | |- context [if ?b then _ else _] =>
             destruct b eqn:?Hif; cbn [fst snd]
         end.

(** X1: a refresh that is rejected on the way (a failed request, a body that
    is not JSON) has written none of the three pieces of state: they are
    set together, after the last request. *)
Theorem getVersions_rejected_writes_nothing (net : Fetch) (p : Props)
    (s : Provider) :
  fst (getVersions net p s) = None ->
  publishedDoc (snd (getVersions net p s)) = publishedDoc s
  /\ versionsState (snd (getVersions net p s)) = versionsState s
  /\ unpublishedVersions (snd (getVersions net p s)) = unpublishedVersions s.
Proof.
  refresh_cases; cbn; intros H; try discriminate H; repeat split.
Qed.

Lemma getVersions_rejected_writes_nothing_witness :
  fst (getVersions (fun _ => None) Examples.postProps initial) = None
  /\ publishedDoc (snd (getVersions (fun _ => None) Examples.postProps
                          initial)) = JS.Null.
Proof.
  split; [reflexivity|].
  apply (getVersions_rejected_writes_nothing (fun _ => None)
           Examples.postProps initial).
  reflexivity.
Defined.

(** A refresh from any state is the refresh from the initial state, with
    its requests added to those already sent and its writes, when it gets
    to them, replacing what was held. *)
Lemma getVersions_from (net : Fetch) (p : Props) (s : Provider) :
  let r := getVersions net p initial in
  getVersions net p s
  = (fst r,
     if shouldFetch p && bool_decide (fst r = Some tt)
     then {| publishedDoc := publishedDoc (snd r);
             versionsState := versionsState (snd r);
             unpublishedVersions := unpublishedVersions (snd r);
             requests := requests s ++ requests (snd r) |}
     else {| publishedDoc := publishedDoc s;
             versionsState := versionsState s;
             unpublishedVersions := unpublishedVersions s;
             requests := requests s ++ requests (snd r) |}).
Proof.
  cbv zeta. destruct s as [pd vs uv rs].
  unfold getVersions, bind, fetch, resJson, ret, setPublishedDoc,
    setVersions, setUnpublishedVersions, initial.
  cbn [publishedDoc versionsState unpublishedVersions requests app].
  destruct (shouldFetch p); cbn [andb fst snd];
    [|now rewrite app_nil_r].
  destruct (net (publishedFetchURL p)) as [res|]; cbn; [|reflexivity].
  destruct (json res) as [body|]; cbn; [|reflexivity].
  destruct (shouldFetchVersions p); cbn; [|reflexivity].
  destruct (net (versionsUrl p (versionParams p))) as [vres|]; cbn;
    [|now rewrite <- app_assoc].
  destruct (json vres) as [vbody|]; cbn; [|now rewrite <- app_assoc].
  destruct (JS.truthy (JS.get_opt (snapshot p body) "updatedAt")); cbn;
    [|now rewrite <- app_assoc].
  destruct (net (versionsUrl p (newerVersionParams p _))) as [nres|]; cbn;
    [|now rewrite <- !app_assoc].
  destruct (status nres =? 200)%Z; cbn; [|now rewrite <- !app_assoc].
  destruct (json nres) as [nbody|]; cbn; now rewrite <- !app_assoc.
Qed.

(** X2: what a refresh publishes depends on the network and the descriptor
    only, not on what the provider held before; so a second refresh
    against the same network leaves the three pieces of state as the first
    one left them. *)
Theorem getVersions_idempotent (net : Fetch) (p : Props) (s : Provider) :
  let s1 := snd (getVersions net p s) in
  let s2 := snd (getVersions net p s1) in
  fst (getVersions net p s1) = fst (getVersions net p s)
  /\ publishedDoc s2 = publishedDoc s1
  /\ versionsState s2 = versionsState s1
  /\ unpublishedVersions s2 = unpublishedVersions s1.
Proof.
  cbv zeta.
  rewrite (getVersions_from net p (snd (getVersions net p s))).
  rewrite (getVersions_from net p s). cbv zeta. cbn [fst snd].
  destruct (shouldFetch p && bool_decide _); repeat split.
Qed.

(** X3: with versioning off, a refresh sends the published-snapshot request
    and nothing else, and resets the version list and the drafts to
    [null], whatever they held. *)
Theorem getVersions_versions_disabled (net : Fetch) (p : Props)
    (s : Provider) (res : Response) (body : JS.Value) :
  shouldFetch p = true -> shouldFetchVersions p = false ->
  net (publishedFetchURL p) = Some res -> json res = Some body ->
  getVersions net p s
  = (Some tt,
     {| publishedDoc := snapshot p body; versionsState := JS.Null;
        unpublishedVersions := JS.Null;
        requests := requests s ++ [publishedFetchURL p] |}).
Proof.
  intros Hf Hv Hn Hj.
  unfold getVersions, bind, fetch, resJson, ret, setPublishedDoc,
    setVersions, setUnpublishedVersions.
  rewrite Hf. cbn. rewrite Hn. cbn. rewrite Hj, Hv. reflexivity.
Qed.

Lemma getVersions_versions_disabled_witness :
  getVersions Examples.postServer
    {| global := None;
       collection := Some {| slug := "posts"; versions := JS.Bool false |};
       id := Some (IdString "42");
       serverURL := "http://localhost:3000"; api := "/api" |}
    {| publishedDoc := JS.Null; versionsState := JS.Arr [];
       unpublishedVersions := JS.Arr []; requests := [] |}
  = (Some tt,
     {| publishedDoc := Examples.publishedPost; versionsState := JS.Null;
        unpublishedVersions := JS.Null;
        requests :=
          [publishedFetchURL
             {| global := None;
                collection :=
                  Some {| slug := "posts"; versions := JS.Bool false |};
                id := Some (IdString "42");
                serverURL := "http://localhost:3000"; api := "/api" |}] |}).
Proof.
  apply (getVersions_versions_disabled Examples.postServer
           {| global := None;
              collection :=
                Some {| slug := "posts"; versions := JS.Bool false |};
              id := Some (IdString "42");
              serverURL := "http://localhost:3000"; api := "/api" |}
           {| publishedDoc := JS.Null; versionsState := JS.Arr [];
              unpublishedVersions := JS.Arr []; requests := [] |}
           (Server.paginated [Examples.publishedPost])
           (JS.Obj [("docs", JS.Arr [Examples.publishedPost]);
                    ("totalDocs", JS.Num 1 0)]));
    reflexivity.
Defined.

(** X4: the requests of one refresh are, in this order, the published
    snapshot, the version list and the newer versions: never more than
    three, none repeated, none out of turn. *)
Theorem getVersions_request_order (net : Fetch) (p : Props) :
  exists t later,
    [publishedFetchURL p; versionsUrl p (versionParams p);
     versionsUrl p (newerVersionParams p t)]
    = requests (snd (getVersions net p initial)) ++ later.
Proof.
  unfold getVersions, bind, fetch, resJson, ret, setPublishedDoc,
    setVersions, setUnpublishedVersions, initial.
  cbn [publishedDoc versionsState unpublishedVersions requests app].
  destruct (shouldFetch p); cbn;
    [|exists JS.Undefined; eexists; reflexivity].
  destruct (net (publishedFetchURL p)) as [res|]; cbn;
    [|exists JS.Undefined; eexists; reflexivity].
  destruct (json res) as [body|]; cbn;
    [|exists JS.Undefined; eexists; reflexivity].
  exists (JS.get_opt (snapshot p body) "updatedAt").
  destruct (shouldFetchVersions p); cbn; [|eexists; reflexivity].
  destruct (net (versionsUrl p (versionParams p))) as [vres|]; cbn;
    [|eexists; reflexivity].
  destruct (json vres) as [vbody|]; cbn; [|eexists; reflexivity].
  destruct (JS.truthy (JS.get_opt (snapshot p body) "updatedAt")); cbn;
    [|eexists; reflexivity].
  destruct (net (versionsUrl p (newerVersionParams p _))) as [nres|]; cbn;
    [|exists []; reflexivity].
  destruct (status nres =? 200)%Z; cbn; [|exists []; reflexivity].
  destruct (json nres) as [nbody|]; cbn; exists []; reflexivity.
Qed.

(** X5: an id that is the empty string or the number zero is taken for no id:
    for a collection, nothing is fetched and the preference key is not the
    collection's. *)
Theorem falsy_id_is_no_id (net : Fetch) (og : option Entity) (c : Entity)
    (i : Id) (e : Z) (srv a : string) (s : Provider) :
  i = IdString EmptyString \/ i = IdNumber 0 e ->
  let p := {| global := og; collection := Some c; id := Some i;
              serverURL := srv; api := a |} in
  getVersions net p s = (Some tt, s)
  /\ preferencesKey p
     = preferencesKey {| global := og; collection := None; id := None;
                         serverURL := srv; api := a |}.
Proof.
  intros [-> | ->]; cbv zeta; split; reflexivity.
Qed.

Lemma falsy_id_is_no_id_witness :
  getVersions Examples.postServer
    {| global := None; collection := Some Examples.posts;
       id := Some (IdNumber 0 0);
       serverURL := "http://localhost:3000"; api := "/api" |} initial
  = (Some tt, initial).
Proof.
  apply (falsy_id_is_no_id Examples.postServer None Examples.posts
           (IdNumber 0 0) 0 "http://localhost:3000" "/api" initial).
  right. reflexivity.
Defined.

(** X6: for a global descriptor the document id plays no part: the refresh and
    the preference key are the same whatever id is passed. *)
Theorem global_ignores_id (net : Fetch) (g : Entity) (i1 i2 : option Id)
    (srv a : string) (s : Provider) :
  let p1 := {| global := Some g; collection := None; id := i1;
               serverURL := srv; api := a |} in
  let p2 := {| global := Some g; collection := None; id := i2;
               serverURL := srv; api := a |} in
  getVersions net p1 s = getVersions net p2 s
  /\ preferencesKey p1 = preferencesKey p2
  /\ preferencesKey p1 = Some ("global-" +:+ slug g).
Proof.
  cbv zeta. split; [reflexivity|]. split.
  - unfold preferencesKey. simpl. now destruct i1, i2.
  - unfold preferencesKey. simpl. now destruct i1.
Qed.

End Refresh.

(** ** Field binding: more on validation *)

Section FieldBindingMore.
Import Form UseField.

(** X7: over any series of validation runs that follow one another, each
    ending before the next fires, with any calls of [setValue] in between
    and whatever the validation functions of the renders compute (a
    boolean or a string each), the number of commits is the number of times
    the computed validity changes, counted from the validity committed at
    the start. *)
Theorem revalidate_commits_each_change (c : Context) (o0 : Options)
    (turns : list Turn) (st : State) :
  dispatchField c = true ->
  Forall (onField o0) turns ->
  dispatches (settled (run c (inTurn turns) (start st)))
  = Counting.changes (valid (render c st) o0)
      (map (fun re => computedValid (fst re))
         (settled (run c (inTurn turns) (start st)))).
Proof.
  intros D Hturns.
  destruct (serial_commits c o0 turns D Hturns (start st) eq_refl)
    as (new & Hnew & Hcount).
  cbn [start settled app form] in Hnew, Hcount.
  now rewrite Hnew.
Qed.

Lemma revalidate_commits_each_change_witness :
  dispatches
    (settled
       (run Examples.freshContext
          (inTurn [Validation Examples.titleOptions;
                   Change Examples.titleOptions Examples.changeEvent false;
                   Validation Examples.titleOptions;
                   Validation Examples.titleOptions;
                   Change Examples.titleOptions (JS.Str EmptyString) false;
                   Validation Examples.titleOptions])
          (start Examples.formState)))
  = 3%nat.
Proof.
  rewrite (revalidate_commits_each_change Examples.freshContext
             Examples.titleOptions).
  - vm_compute. reflexivity.
  - reflexivity.
  - repeat (constructor;
              [first [exact I | split; [reflexivity | exact required_typed]]|]).
    constructor.
Defined.

(** X8: what a validation run commits: the message is the validator's string
    when it returned one and is cleared otherwise, so a field committed as
    valid carries no message; the value is the one the render read and no
    [initialValue] is sent; the validity the next render derives is
    [false] for a string, the boolean for a boolean, and [true] for any
    other result. *)
Theorem validation_commit_clears_message (c : Context) (o : Options)
    (st : State) (a : UPDATE) :
  In (Dispatch a) (validateField (render c st) o) ->
  let st' := performAll st (validateField (render c st) o) in
  (u_valid a = Some (JS.Bool true) -> u_errorMessage a = Some None)
  /\ u_value a = Some (value (render c st) o)
  /\ u_initialValue a = None
  /\ r_errorMessage (useField (render c st') o)
     = match validationResult (render c st) o with
       | JS.Str message => Some message
       | _ => None
       end
  /\ r_value (useField (render c st') o) = value (render c st) o
  /\ valid (render c st') o
     = match validationResult (render c st) o with
       | JS.Str _ => false
       | JS.Bool b => b
       | _ => true
       end.
Proof.
  intros Hin. cbv zeta.
  unfold validateField in *.
  destruct (differs _ _ && dispatchField (render c st)) eqn:G;
    [|destruct Hin].
  destruct Hin as [Hin | []]. injection Hin as <-.
  unfold validationAction.
  destruct (validationResult (render c st) o) eqn:R;
    cbn [u_valid u_errorMessage u_value u_initialValue].
  all: split; [try discriminate; reflexivity|].
  all: split; [reflexivity|]. all: split; [reflexivity|].
  all: cbn [performAll foldl perform useField r_errorMessage r_value
              render c_fields fields].
  all: unfold valid, fieldValid, value, field, fieldReducer;
    cbn [c_fields path o_path render fields];
    rewrite !lookup_insert_eq; cbn.
  all: repeat split.
  all: now destruct (fields st !! o_path o).
Qed.

Lemma validation_commit_clears_message_witness :
  r_errorMessage
    (useField
       (render Examples.freshContext
          (performAll Examples.formState
             (validateField
                (render Examples.freshContext Examples.formState)
                Examples.titleOptions)))
       Examples.titleOptions)
  = Some "This field is required.".
Proof.
  pose proof (validation_commit_clears_message Examples.freshContext
                Examples.titleOptions Examples.formState
                (validationAction
                   (render Examples.freshContext Examples.formState)
                   Examples.titleOptions)) as H.
  cbv zeta in H.
  destruct H as (_ & _ & _ & Hmsg & _); [left; reflexivity|].
  exact Hmsg.
Defined.

(** X9: a field without a validation function is computed valid: nothing is
    dispatched while it is committed as valid, and a committed [false] is
    replaced by [true] at the next run. *)
Theorem no_validator_means_valid (c : Context) (o : Options) (st : State) :
  o_validate o = None -> dispatchField c = true ->
  let st' := performAll st (validateField (render c st) o) in
  valid (render c st') o = true
  /\ (valid (render c st) o = true -> st' = st)
  /\ r_errorMessage (useField (render c st') o)
     = (if valid (render c st) o
        then r_errorMessage (useField (render c st) o) else None).
Proof.
  intros Hv D. cbv zeta.
  unfold validateField, validationAction, validationResult.
  rewrite Hv. cbn [u_valid render dispatchField]. default_some.
  cbn [differs]. rewrite D.
  destruct (valid (render c st) o) eqn:V; cbn.
  - rewrite V. repeat split.
  - unfold valid, fieldValid, field, fieldReducer. cbn.
    rewrite !lookup_insert_eq. cbn. split; [reflexivity|].
    split; [discriminate | reflexivity].
Qed.

Lemma no_validator_means_valid_witness :
  valid
    (render Examples.freshContext
       (performAll
          {| fields := {[ "title" := Examples.invalidTitle ]};
             modified := false; submitted := true; processing := false |}
          (validateField
             (render Examples.freshContext
                {| fields := {[ "title" := Examples.invalidTitle ]};
                   modified := false; submitted := true;
                   processing := false |})
             {| o_path := "title"; o_validate := None;
                o_disableFormData := false; o_condition := None |})))
    {| o_path := "title"; o_validate := None;
       o_disableFormData := false; o_condition := None |} = true.
Proof.
  apply (no_validator_means_valid Examples.freshContext
           {| o_path := "title"; o_validate := None;
              o_disableFormData := false; o_condition := None |}
           {| fields := {[ "title" := Examples.invalidTitle ]};
              modified := false; submitted := true; processing := false |});
    reflexivity.
Defined.

End FieldBindingMore.

(** ** Rich text: what [setClickableState] does to a tree *)

Section ClickableState.
Import RichText ReadOnlyView.

Lemma dom_ind (P : DOM.Node -> Prop) :
  (forall d, P (DOM.TextNode d)) ->
  (forall tag attrs kids, Forall P kids -> P (DOM.El tag attrs kids)) ->
  forall n, P n.
Proof.
  intros Htext Hel. fix IH 1. intros [tag attrs kids | d]; [|apply Htext].
  apply Hel. induction kids as [|k kids IHk]; constructor;
    [apply IH | exact IHk].
Qed.

Lemma get_put_same (k v : string) (l : list (string * string)) :
  DOM.getAttribute k (DOM.putAttribute k v l) = Some v.
Proof.
  induction l as [|[k' v'] l IH]; simpl.
  - now rewrite String.eqb_refl.
  - destruct (String.eqb k' k) eqn:E; simpl; rewrite E; [reflexivity|].
    exact IH.
Qed.

Lemma get_put_other (k k' v : string) (l : list (string * string)) :
  k <> k' ->
  DOM.getAttribute k (DOM.putAttribute k' v l) = DOM.getAttribute k l.
Proof.
  intros Hne. induction l as [|[k0 v0] l IH]; simpl.
  - destruct (String.eqb_spec k' k); [congruence | reflexivity].
  - destruct (String.eqb_spec k0 k') as [-> | Hk]; simpl.
    + destruct (String.eqb_spec k' k); [congruence | reflexivity].
    + destruct (String.eqb_spec k0 k); [reflexivity | exact IH].
Qed.

Lemma put_put (k v1 v2 : string) (l : list (string * string)) :
  DOM.putAttribute k v2 (DOM.putAttribute k v1 l) = DOM.putAttribute k v2 l.
Proof.
  induction l as [|[k' v'] l IH]; simpl.
  - now rewrite String.eqb_refl.
  - destruct (String.eqb k' k) eqn:E; simpl; rewrite E; [reflexivity|].
    now rewrite IH.
Qed.

Lemma put_comm_present (k k' v v' : string) (l : list (string * string)) :
  k <> k' -> is_Some (DOM.getAttribute k l) ->
  DOM.putAttribute k v (DOM.putAttribute k' v' l)
  = DOM.putAttribute k' v' (DOM.putAttribute k v l).
Proof.
  intros Hne. induction l as [|[k0 v0] l IH]; simpl; intros Hs.
  - destruct Hs as [x Hx]. discriminate.
  - destruct (String.eqb_spec k0 k') as [E' | Hk'];
      destruct (String.eqb_spec k0 k) as [E | Hk]; simpl.
    + congruence.
    + subst k0. destruct (String.eqb_spec k' k); [congruence|].
      now rewrite String.eqb_refl.
    + subst k0. rewrite String.eqb_refl.
      destruct (String.eqb_spec k k'); [congruence | reflexivity].
    + destruct (String.eqb_spec k0 k); [congruence|].
      destruct (String.eqb_spec k0 k'); [congruence|].
      rewrite IH; [reflexivity|].
      revert Hs. destruct (String.eqb_spec k0 k); [congruence | tauto].
Qed.

Lemma lower_tabIndex : DOM.lower "tabIndex" = "tabindex".
Proof. reflexivity. Qed.

Lemma lower_disabled : DOM.lower "disabled" = "disabled".
Proof. reflexivity. Qed.

Lemma matches_setChild (st : ClickState) (tag : string)
    (attrs : list (string * string)) :
  matchesSelectors tag (setChild st tag attrs) = matchesSelectors tag attrs.
Proof.
  unfold matchesSelectors, setChild, DOM.setAttribute.
  rewrite lower_tabIndex, lower_disabled.
  destruct (String.eqb tag "BUTTON"); [reflexivity|].
  now rewrite get_put_other by discriminate.
Qed.

Lemma setChild_last_wins (s1 s2 : ClickState) (tag : string)
    (attrs : list (string * string)) :
  setChild s2 tag (setChild s1 tag attrs) = setChild s2 tag attrs.
Proof.
  unfold setChild, DOM.setAttribute.
  rewrite lower_tabIndex, lower_disabled.
  destruct (String.eqb tag "BUTTON"); [|apply put_put].
  rewrite (put_comm_present "tabindex" "disabled");
    [|discriminate | rewrite get_put_same; eauto].
  now rewrite put_put, put_put.
Qed.

(** X10: two passes of [setClickableState] leave what the second alone would
    leave: the state asked for last wins, whatever came before.  So a pass
    is idempotent, and enabling after disabling gives the tree that
    enabling alone gives, not the tree from before. *)
Theorem setClickableState_last_wins (s1 s2 : ClickState) (r : Refs) :
  setClickableState s2 (setClickableState s1 r) = setClickableState s2 r
  /\ setClickableState s1 (setClickableState s1 r) = setClickableState s1 r.
Proof.
  assert (V : forall a b n, visit b (visit a n) = visit b n).
  { intros a b. induction n as [d | tag attrs kids IH] using dom_ind;
      [reflexivity|].
    cbn [visit]. f_equal.
    - destruct (matchesSelectors tag attrs) eqn:M.
      + now rewrite matches_setChild, M, setChild_last_wins.
      + now rewrite M.
    - rewrite map_map. apply map_ext_Forall. exact IH. }
  assert (D : forall a b n,
             visitDescendants b (visitDescendants a n) = visitDescendants b n).
  { intros a b [tag attrs kids | d]; [|reflexivity].
    cbn [visitDescendants]. f_equal. rewrite map_map.
    apply map_ext. intros k. apply V. }
  unfold setClickableState. cbn [toolbarRef editorRef].
  now rewrite !D.
Qed.

Lemma filter_put_state (k v : string) (l : list (string * string)) :
  stateAttribute (k, v) = true ->
  List.filter (fun kv => negb (stateAttribute kv)) (DOM.putAttribute k v l)
  = List.filter (fun kv => negb (stateAttribute kv)) l.
Proof.
  intros Hk. induction l as [|[k' v'] l IH]; simpl.
  - now rewrite Hk.
  - destruct (String.eqb_spec k' k) as [-> | Hne]; simpl.
    + unfold stateAttribute in *. simpl in *. now rewrite Hk.
    + now rewrite IH.
Qed.

(** X11: a pass writes the [tabindex] and [disabled] attributes and nothing
    else: tags, text, the shape of the tree and every other attribute are
    as before, and so is the set of elements the selectors match. *)
Theorem setClickableState_frame (st : ClickState) (r : Refs) :
  withoutState (toolbarRef (setClickableState st r))
  = withoutState (toolbarRef r)
  /\ withoutState (editorRef (setClickableState st r))
     = withoutState (editorRef r)
  /\ map selected (descendantsOf (toolbarRef (setClickableState st r)))
     = map selected (descendantsOf (toolbarRef r))
  /\ map selected (descendantsOf (editorRef (setClickableState st r)))
     = map selected (descendantsOf (editorRef r)).
Proof.
  assert (A : forall tag attrs,
             List.filter (fun kv => negb (stateAttribute kv))
               (setChild st tag attrs)
             = List.filter (fun kv => negb (stateAttribute kv)) attrs).
  { intros tag attrs. unfold setChild, DOM.setAttribute.
    rewrite lower_tabIndex, lower_disabled.
    destruct (String.eqb tag "BUTTON");
      rewrite !filter_put_state; reflexivity. }
  assert (V : forall n, withoutState (visit st n) = withoutState n).
  { induction n as [d | tag attrs kids IH] using dom_ind; [reflexivity|].
    cbn [visit withoutState]. f_equal.
    - destruct (matchesSelectors tag attrs); [apply A | reflexivity].
    - rewrite map_map. apply map_ext_Forall. exact IH. }
  assert (D : forall n, withoutState (visitDescendants st n) = withoutState n).
  { intros [tag attrs kids | d]; [|reflexivity].
    cbn [visitDescendants withoutState]. f_equal.
    rewrite map_map. apply map_ext. intros k. apply V. }
  assert (S1 : forall n, selected (visit st n) = selected n).
  { intros [tag attrs kids | d]; [|reflexivity]. cbn [visit selected].
    destruct (matchesSelectors tag attrs) eqn:M; [|exact M].
    now rewrite matches_setChild. }
  assert (S2 : forall n,
             map selected (descendantsOf (visit st n))
             = map selected (descendantsOf n)).
  { induction n as [d | tag attrs kids IH] using dom_ind; [reflexivity|].
    cbn [visit descendantsOf].
    induction kids as [|k kids IHk]; [reflexivity|].
    apply List.Forall_cons_iff in IH as [Hk Hrest].
    cbn [map List.concat]. rewrite !map_app. cbn [map].
    rewrite S1, Hk. f_equal. now apply IHk. }
  assert (S3 : forall n,
             map selected (descendantsOf (visitDescendants st n))
             = map selected (descendantsOf n)).
  { intros [tag attrs kids | d]; [|reflexivity].
    cbn [visitDescendants descendantsOf].
    induction kids as [|k kids IHk]; [reflexivity|].
    cbn [map List.concat]. rewrite !map_app. cbn [map].
    now rewrite S1, S2, IHk. }
  unfold setClickableState. cbn [toolbarRef editorRef].
  now rewrite !D, !S3.
Qed.

Lemma descendantsOf_visit (st : ClickState) :
  forall n, descendantsOf (visit st n) = map (visit st) (descendantsOf n).
Proof.
  induction n as [d | tag attrs kids IH] using dom_ind; [reflexivity|].
  cbn [visit descendantsOf].
  induction kids as [|k kids IHk]; [reflexivity|].
  apply List.Forall_cons_iff in IH as [Hk Hrest].
  cbn [map List.concat]. rewrite map_app. cbn [map].
  rewrite Hk. f_equal. now apply IHk.
Qed.

Lemma descendantsOf_visitDescendants (st : ClickState) (root : DOM.Node) :
  descendantsOf (visitDescendants st root)
  = map (visit st) (descendantsOf root).
Proof.
  destruct root as [tag attrs kids | d]; [|reflexivity].
  cbn [visitDescendants descendantsOf].
  induction kids as [|k kids IHk]; [reflexivity|].
  cbn [map List.concat]. rewrite map_app. cbn [map].
  now rewrite descendantsOf_visit, IHk.
Qed.

(** X12: after a pass, every element the selectors choose below the toolbar or
    the editor has [tabindex] ["-1"] (disabling) or ["0"] (enabling), and
    every button among them has a [disabled] attribute, of value
    ["disabled"] (disabling) or ["null"] (enabling). *)
Theorem setClickableState_result (st : ClickState) (r : Refs)
    (n : DOM.Node) :
  In n (querySelectorAll (toolbarRef (setClickableState st r))
        ++ querySelectorAll (editorRef (setClickableState st r))) ->
  attribute "tabindex" n
  = Some (match st with disabled => "-1" | enabled => "0" end)
  /\ (isButton n = true ->
      attribute "disabled" n
      = Some (match st with disabled => "disabled" | enabled => "null" end)).
Proof.
  assert (A : forall m, selected (visit st m) = true ->
                        attribute "tabindex" (visit st m)
                        = Some (match st with
                                | disabled => "-1" | enabled => "0" end)
                        /\ (isButton (visit st m) = true ->
                            attribute "disabled" (visit st m)
                            = Some (match st with
                                    | disabled => "disabled"
                                    | enabled => "null" end))).
  { intros [tag attrs kids | d]; [|discriminate].
    cbn [visit selected attribute isButton].
    destruct (matchesSelectors tag attrs) eqn:M;
      [|intros H; rewrite H in M; discriminate].
    intros _. unfold setChild, DOM.setAttribute.
    rewrite lower_tabIndex, lower_disabled.
    destruct (String.eqb tag "BUTTON").
    - rewrite get_put_other by discriminate. rewrite !get_put_same.
      now destruct st.
    - rewrite get_put_same. split; [now destruct st | discriminate]. }
  unfold querySelectorAll, setClickableState. cbn [toolbarRef editorRef].
  rewrite !descendantsOf_visitDescendants, in_app_iff, !filter_In, !in_map_iff.
  intros [[(m & <- & _) Hsel] | [(m & <- & _) Hsel]]; now apply A.
Qed.

Lemma setClickableState_result_witness :
  attribute "tabindex"
    (visit enabled (visit disabled Examples.boldButton)) = Some "0"
  /\ attribute "disabled"
       (visit enabled (visit disabled Examples.boldButton)) = Some "null".
Proof.
  destruct (setClickableState_result enabled
              (setClickableState disabled Examples.refs)
              (visit enabled (visit disabled Examples.boldButton)))
    as [Ht Hd].
  - vm_compute. left. reflexivity.
  - split; [exact Ht | apply Hd; reflexivity].
Defined.

End ClickableState.

(** ** Rich text: the Backspace branch beyond the single list *)

Section BackspaceMore.
Import Slate Editable ListItems.

(** The handler by cases on the element that holds the cursor's leaf. *)
Lemma onBackspace_cases (pl : Plugins) (ed : Editor) (pt : Point)
    (el : Node) :
  selection ed = Some pt ->
  descendant (nodes ed) (removelast (path pt)) = Some el ->
  onBackspace pl ed
  = if isListItem el then
      leaf ← descendant (nodes ed) (path pt);
      if isSingleCharacter leaf
      then unwrapNodes (isListType pl) (elementIsVoid pl) ed
      else Some ed
    else if isVoid pl el then removeNodes pl ed else Some ed.
Proof.
  intros Hs He. unfold onBackspace. rewrite Hs. cbn [mbind option_bind].
  rewrite He. cbn [mbind option_bind].
  assert (Hli :
             (selectedLeaf ← descendant (nodes ed) (path pt);
              match selectedLeaf with
              | Text t _ =>
                  if (JS.length t =? 1)%nat
                  then setNodesEmpty
                       <$> unwrapNodes (isListType pl) (elementIsVoid pl) ed
                  else Some ed
              | Element _ _ _ => Some ed
              end)
             = (leaf ← descendant (nodes ed) (path pt);
                if isSingleCharacter leaf
                then unwrapNodes (isListType pl) (elementIsVoid pl) ed
                else Some ed)).
  { destruct (descendant (nodes ed) (path pt)) as [[t ms|]|];
      try reflexivity.
    cbn [mbind option_bind isSingleCharacter].
    destruct (JS.length t =? 1)%nat; [|reflexivity].
    unfold setNodesEmpty. now destruct (unwrapNodes _ _ ed). }
  destruct el as [t ms | [ty|] ps kids]; try reflexivity.
  cbn [isListItem].
  destruct ty as [|c1 r1]; [reflexivity|].
  destruct c1 as [[] [] [] [] [] [] [] []]; try reflexivity.
  destruct r1 as [|c2 r2]; [reflexivity|].
  destruct c2 as [[] [] [] [] [] [] [] []]; try reflexivity.
  destruct r2; [|reflexivity].
  exact Hli.
Qed.

(** X13: outside the two cases the handler acts on, it leaves the editor alone:
    in a list item whose leaf is not a text of exactly one UTF-16 code unit
    (an empty item too, and a character above the basic plane, which has
    two), and in any other element that is not void. *)
Theorem onBackspace_leaves_editor (pl : Plugins) (ed : Editor) (pt : Point)
    (el leaf : Node) :
  selection ed = Some pt ->
  descendant (nodes ed) (removelast (path pt)) = Some el ->
  descendant (nodes ed) (path pt) = Some leaf ->
  (if isListItem el then isSingleCharacter leaf = false
   else isVoid pl el = false) ->
  onBackspace pl ed = Some ed.
Proof.
  intros Hs He Hl Hc. rewrite (onBackspace_cases pl ed pt el Hs He).
  destruct (isListItem el).
  - rewrite Hl. cbn. now rewrite Hc.
  - now rewrite Hc.
Qed.

Lemma onBackspace_leaves_editor_witness :
  onBackspace Examples.plugins
    {| nodes := [Element (Some "ul") [] [Examples.li EmptyString]];
       selection := Some {| path := [0; 0; 0]%nat; offset := 0 |} |}
  = Some {| nodes := [Element (Some "ul") [] [Examples.li EmptyString]];
            selection := Some {| path := [0; 0; 0]%nat; offset := 0 |} |}.
Proof.
  apply (onBackspace_leaves_editor Examples.plugins
           {| nodes := [Element (Some "ul") [] [Examples.li EmptyString]];
              selection := Some {| path := [0; 0; 0]%nat; offset := 0 |} |}
           {| path := [0; 0; 0]%nat; offset := 0 |}
           (Examples.li EmptyString) (Text EmptyString []));
    reflexivity.
Defined.

(** A character of two bytes is one character to the handler, a
    character of two code units is not. *)
Lemma isSingleCharacter_examples :
  isSingleCharacter (Text "é" []) = true
  /\ isSingleCharacter (Text "😀" []) = false
  /\ isSingleCharacter (Text "ab" []) = false
  /\ isSingleCharacter (Text EmptyString []) = false.
Proof. repeat split. Qed.

Section UnwrapGeneral.
Variable matches : Node -> bool.
Variable isVoid : Node -> bool.

(** The lowest match lies on the cursor's path. *)
Lemma lowest_prefix (p : Path) :
  forall (ns : list Node) (q : Path),
    lowest matches isVoid ns p = Some q ->
    exists r, p = q ++ r /\ q <> [].
Proof.
  induction p as [|i rest IH]; intros ns q H; [discriminate|].
  cbn [lowest] in H.
  destruct (ns !! i) as [[t ms | ty ps kids]|]; [| |discriminate].
  - destruct (matches (Text t ms)); [|discriminate].
    injection H as <-. exists rest. split; [reflexivity | discriminate].
  - destruct (if isVoid (Element ty ps kids) then None
              else lowest matches isVoid kids rest) as [q'|] eqn:E.
    + injection H as <-.
      destruct (isVoid (Element ty ps kids)); [discriminate|].
      destruct (IH kids q' E) as (r & -> & _).
      exists r. split; [reflexivity | discriminate].
    + destruct (matches (Element ty ps kids)); [|discriminate].
      injection H as <-. exists rest. split; [reflexivity | discriminate].
Qed.

Lemma descendant_child (kids : list Node) (i : nat) (tail : Path) :
  descendant kids (i :: tail)
  = (child ← kids !! i; descendant [child] (0%nat :: tail)).
Proof.
  destruct tail as [|j tail].
  - cbn. now destruct (kids !! i).
  - rewrite descendant_step. destruct (kids !! i) as [child|]; [|reflexivity].
    cbn [mbind option_bind]. now rewrite descendant_step.
Qed.

(** A path that leads somewhere through [q] finds an element at [q] and a
    child of it to go on with. *)
Lemma descendant_through (q : Path) (i : nat) (tail : Path) :
  forall (ns : list Node) (n : Node),
    q <> [] ->
    descendant ns (q ++ i :: tail) = Some n ->
    exists ty ps kids child,
      descendant ns q = Some (Element ty ps kids)
      /\ kids !! i = Some child
      /\ descendant [child] (0%nat :: tail) = Some n.
Proof.
  induction q as [|k q IH]; intros ns n Hq H; [now destruct Hq|].
  destruct q as [|k' q'].
  - change ([k] ++ i :: tail) with (k :: i :: tail) in H.
    rewrite descendant_step in H.
    destruct (ns !! k) as [[|ty ps kids]|] eqn:Hk; try discriminate.
    rewrite descendant_child in H.
    destruct (kids !! i) as [child|] eqn:Hi; [|discriminate].
    exists ty, ps, kids, child. repeat split; assumption.
  - change ((k :: k' :: q') ++ i :: tail)
      with (k :: k' :: (q' ++ i :: tail)) in H.
    rewrite descendant_step in H.
    destruct (ns !! k) as [[|ty0 ps0 kids0]|] eqn:Hk; try discriminate.
    destruct (IH kids0 n ltac:(discriminate) H)
      as (ty & ps & kids & child & Hd & Hi & Hc).
    exists ty, ps, kids, child. rewrite descendant_step, Hk.
    repeat split; assumption.
Qed.

(** Where the nodes put in place of the node at [q] are found. *)
Lemma replaceAt_lookup (q : Path) (seg : list Node) (j : nat) (m : Node)
    (tail : Path) :
  forall (ns ns' : list Node),
    replaceAt ns q seg = Some ns' ->
    seg !! j = Some m ->
    descendant ns' (removelast q ++ (List.last q 0 + j)%nat :: tail)
    = descendant [m] (0%nat :: tail).
Proof.
  induction q as [|k q IH]; intros ns ns' Hr Hj; [discriminate|].
  destruct q as [|k' q'].
  - cbn [replaceAt] in Hr.
    destruct (ns !! k) as [old|] eqn:Hk; [|discriminate].
    injection Hr as <-.
    cbn [removelast List.last app].
    rewrite descendant_child, (descendant_child [m]).
    assert (Hlen : List.length (take k ns) = k).
    { rewrite length_take. apply lookup_lt_Some in Hk. lia. }
    rewrite lookup_app_r by lia. rewrite Hlen.
    replace (k + j - k)%nat with j by lia.
    rewrite lookup_app_l by (now apply lookup_lt_Some in Hj).
    now rewrite Hj.
  - rewrite replaceAt_step in Hr.
    destruct (ns !! k) as [[|ty0 ps0 kids0]|] eqn:Hk; try discriminate.
    destruct (replaceAt kids0 (k' :: q') seg) as [kids'|] eqn:Hk';
      try discriminate.
    cbn [mbind option_bind] in Hr. injection Hr as <-.
    change (removelast (k :: k' :: q')) with (k :: removelast (k' :: q')).
    change (List.last (k :: k' :: q') 0%nat)
      with (List.last (k' :: q') 0%nat).
    specialize (IH kids0 kids' Hk' Hj).
    assert (Hne : removelast (k' :: q')
                  ++ (List.last (k' :: q') 0 + j)%nat :: tail <> [])
      by (destruct (removelast (k' :: q')); discriminate).
    change ((k :: removelast (k' :: q'))
            ++ (List.last (k' :: q') 0 + j)%nat :: tail)
      with (k :: (removelast (k' :: q')
                  ++ (List.last (k' :: q') 0 + j)%nat :: tail)).
    rewrite (descendant_cons _ k _ ty0 ps0 kids' ); [exact IH | | exact Hne].
    apply list_lookup_insert_eq. now apply lookup_lt_Some in Hk.
Qed.

(** The general case of the unwrap: for a cursor on a node of the tree, it
    goes through, keeps every text leaf in place and order, and leaves the
    cursor on the node it was on. *)
Lemma unwrapNodes_general (ed : Editor) (pt : Point) (n : Node) :
  selection ed = Some pt ->
  descendant (nodes ed) (path pt) = Some n ->
  exists ed' pt',
    unwrapNodes matches isVoid ed = Some ed'
    /\ selection ed' = Some pt'
    /\ descendant (nodes ed') (path pt') = Some n
    /\ offset pt' = offset pt
    /\ textsOf (nodes ed') = textsOf (nodes ed).
Proof.
  intros Hs Hn. unfold unwrapNodes. rewrite Hs.
  assert (Hsame : exists ed' pt',
             Some ed = Some ed' /\ selection ed' = Some pt'
             /\ descendant (nodes ed') (path pt') = Some n
             /\ offset pt' = offset pt
             /\ textsOf (nodes ed') = textsOf (nodes ed))
    by (exists ed, pt; repeat split; assumption).
  destruct (lowest matches isVoid (nodes ed) (path pt)) as [q|] eqn:Hl;
    [|exact Hsame].
  destruct (lowest_prefix _ _ _ Hl) as (r & Hp & Hq).
  rewrite Hp, drop_app_length.
  destruct r as [|i tail]; [exact Hsame|].
  destruct (voidAt isVoid (nodes ed) q); [exact Hsame|].
  rewrite Hp in Hn.
  destruct (descendant_through q i tail (nodes ed) n Hq Hn)
    as (ty & ps & kids & child & Hd & Hi & Hc).
  unfold liftAt. rewrite Hd, (liftChild_shape ty ps kids i child Hi).
  cbn [mbind option_bind].
  set (seg := wrap ty ps (take i kids) ++ [child]
              ++ wrap ty ps (drop (S i) kids)).
  destruct (replaceAt_defined q seg (nodes ed) _ Hd) as [ns' Hns'].
  rewrite Hns'. cbn [mbind option_bind].
  eexists _, _. split; [reflexivity|]. cbn [selection nodes path offset].
  split; [reflexivity|]. split; [|split; [reflexivity|]].
  - unfold liftedPath. rewrite Hd.
    pose proof (lookup_lt_Some _ _ _ Hi) as Hlt.
    assert (Hq' : q = removelast q ++ [List.last q 0%nat])
      by (now apply app_removelast_last).
    destruct (Nat.eqb_spec i 0) as [-> | Hi0].
    + rewrite orb_true_r. cbv iota.
      assert (Hpath : q ++ tail
                      = removelast q ++ (List.last q 0 + 0)%nat :: tail).
      { rewrite Nat.add_0_r. rewrite Hq' at 1.
        now rewrite <- app_assoc. }
      rewrite Hpath. cbn [path].
      rewrite (replaceAt_lookup q seg 0 child tail _ _ Hns');
        [exact Hc | reflexivity].
    + destruct (Nat.eqb_spec (List.length kids) 1) as [H1 | H1]; [lia|].
      cbn [orb app]. cbv iota.
      replace (S (List.last q 0%nat)) with (List.last q 0 + 1)%nat by lia.
      cbn [path].
      rewrite (replaceAt_lookup q seg 1 child tail _ _ Hns'); [exact Hc|].
      unfold seg. destruct (take i kids) eqn:Ht; [|reflexivity].
      apply (f_equal List.length) in Ht. rewrite length_take in Ht.
      simpl in Ht. lia.
  - apply (replaceAt_texts q seg (nodes ed) ns' _ Hd); [|exact Hns'].
    unfold seg. rewrite !textsOf_app, !textsOf_wrap. cbn [texts].
    fold (textsOf kids).
    rewrite <- (take_drop_middle kids i child Hi) at 3.
    rewrite textsOf_app, !textsOf_cons.
    change (textsOf []) with (@nil string). now rewrite app_nil_r.
Qed.

(** Without a match on the cursor's path nothing is unwrapped. *)
Lemma lowest_none (p : Path) :
  forall (ns : list Node),
    Forall (fun n => matches n = false) (along ns p) ->
    lowest matches isVoid ns p = None.
Proof.
  induction p as [|i rest IH]; intros ns H; [reflexivity|].
  cbn [lowest along] in *.
  destruct (ns !! i) as [[t ms | ty ps kids]|]; [| |reflexivity].
  - apply List.Forall_cons_iff in H as [-> _]. reflexivity.
  - apply List.Forall_cons_iff in H as [-> H].
    rewrite (IH kids H). now destruct (isVoid _).
Qed.

End UnwrapGeneral.

(** X14: in a list item, whatever the nesting of lists around it, Backspace
    keeps every text leaf of the document, in place and order: the unwrap
    moves nodes and deletes none. *)
Theorem onBackspace_keeps_text (pl : Plugins) (ed ed' : Editor) (pt : Point)
    (el : Node) :
  selection ed = Some pt ->
  descendant (nodes ed) (removelast (path pt)) = Some el ->
  isListItem el = true ->
  onBackspace pl ed = Some ed' ->
  textsOf (nodes ed') = textsOf (nodes ed).
Proof.
  intros Hs He Hli. rewrite (onBackspace_cases pl ed pt el Hs He), Hli.
  destruct (descendant (nodes ed) (path pt)) as [leaf|] eqn:Hl;
    [|discriminate].
  cbn [mbind option_bind].
  destruct (isSingleCharacter leaf); [|now intros [= <-]].
  destruct (unwrapNodes_general (isListType pl) (elementIsVoid pl)
              ed pt leaf Hs Hl) as (ed1 & pt1 & -> & _ & _ & _ & Ht).
  now intros [= <-].
Qed.

Lemma onBackspace_keeps_text_witness :
  textsOf
    [Examples.paragraph "p";
     Element (Some "ul") [] [Examples.li "aa"];
     Examples.li "b";
     Element (Some "ul") [] [Examples.li "cc"];
     Examples.paragraph "q"]
  = textsOf (nodes Examples.listEditor).
Proof.
  apply (onBackspace_keeps_text Examples.plugins Examples.listEditor
           {| nodes :=
                [Examples.paragraph "p";
                 Element (Some "ul") [] [Examples.li "aa"];
                 Examples.li "b";
                 Element (Some "ul") [] [Examples.li "cc"];
                 Examples.paragraph "q"];
              selection := Some {| path := [2; 0]%nat; offset := 1 |} |}
           {| path := [1; 1; 0]%nat; offset := 1 |}
           (Examples.li "b")); reflexivity.
Defined.

(** X15: in a list item, for a cursor on a leaf of the tree, the handler goes
    through (it throws nothing) and leaves the cursor on that same leaf, at
    the same offset, wherever the unwrap moved it. *)
Theorem onBackspace_cursor_follows (pl : Plugins) (ed : Editor) (pt : Point)
    (el leaf : Node) :
  selection ed = Some pt ->
  descendant (nodes ed) (removelast (path pt)) = Some el ->
  descendant (nodes ed) (path pt) = Some leaf ->
  isListItem el = true ->
  exists ed' pt',
    onBackspace pl ed = Some ed'
    /\ selection ed' = Some pt'
    /\ descendant (nodes ed') (path pt') = Some leaf
    /\ offset pt' = offset pt.
Proof.
  intros Hs He Hl Hli. rewrite (onBackspace_cases pl ed pt el Hs He), Hli, Hl.
  cbn [mbind option_bind].
  destruct (isSingleCharacter leaf).
  - destruct (unwrapNodes_general (isListType pl) (elementIsVoid pl)
                ed pt leaf Hs Hl) as (ed1 & pt1 & H1 & H2 & H3 & H4 & _).
    exists ed1, pt1. repeat split; assumption.
  - exists ed, pt. repeat split; assumption.
Qed.

Lemma onBackspace_cursor_follows_witness :
  (ed' ← onBackspace Examples.plugins Examples.listEditor;
   pt' ← selection ed';
   descendant (nodes ed') (path pt'))
  = Some (Text "b" []).
Proof.
  destruct (onBackspace_cursor_follows Examples.plugins Examples.listEditor
              {| path := [1; 1; 0]%nat; offset := 1 |}
              (Examples.li "b") (Text "b" []))
    as (ed' & pt' & H1 & H2 & H3 & _);
    [reflexivity | reflexivity | reflexivity | reflexivity |].
  rewrite H1. cbn [mbind option_bind]. rewrite H2.
  cbn [mbind option_bind]. exact H3.
Defined.

(** X16: a list item that has no list above it is left where it is. *)
Theorem onBackspace_item_without_list (pl : Plugins) (ed : Editor)
    (pt : Point) (el : Node) :
  selection ed = Some pt ->
  descendant (nodes ed) (removelast (path pt)) = Some el ->
  isListItem el = true ->
  is_Some (descendant (nodes ed) (path pt)) ->
  Forall (fun n => isListType pl n = false) (along (nodes ed) (path pt)) ->
  onBackspace pl ed = Some ed.
Proof.
  intros Hs He Hli [leaf Hl] Hnone.
  rewrite (onBackspace_cases pl ed pt el Hs He), Hli, Hl.
  cbn [mbind option_bind].
  destruct (isSingleCharacter leaf); [|reflexivity].
  unfold unwrapNodes. rewrite Hs.
  now rewrite (lowest_none _ _ _ _ Hnone).
Qed.

Lemma onBackspace_item_without_list_witness :
  onBackspace Examples.plugins
    {| nodes := [Examples.li "b"];
       selection := Some {| path := [0; 0]%nat; offset := 1 |} |}
  = Some {| nodes := [Examples.li "b"];
            selection := Some {| path := [0; 0]%nat; offset := 1 |} |}.
Proof.
  apply (onBackspace_item_without_list Examples.plugins
           {| nodes := [Examples.li "b"];
              selection := Some {| path := [0; 0]%nat; offset := 1 |} |}
           {| path := [0; 0]%nat; offset := 1 |} (Examples.li "b"));
    try reflexivity.
  - eexists. reflexivity.
  - vm_compute. repeat constructor.
Defined.

End BackspaceMore.

(** ** Rich text: Backspace in a list item *)

Section ListItemBackspace.
Import Slate Editable ListItems.



(** The same for a character of two bytes: the length the handler tests
    is that of the text in UTF-16. *)
Lemma backspace_unwraps_accented_item :
  JS.length "é" = 1%nat
  /\ nodes <$> onBackspace Examples.plugins
                 {| nodes := [Element (Some "ul") [] [Examples.li "é"]];
                    selection := Some {| path := [0; 0; 0]%nat;
                                         offset := 1 |} |}
     = Some [Examples.li "é"].
Proof. split; vm_compute; reflexivity. Qed.


End ListItemBackspace.

(** ** Rich text: rendering *)

Section Enumeration.
Import Serialize.

(** Properties whose keys are no array indices are enumerated in the
    order of their creation. *)
Lemma enumerate_no_index {A} (props : list (string * A)) :
  forallb (fun k => negb (bool_decide (is_Some (indexKey k))))
          (map fst props) = true ->
  enumerate props = props.
Proof.
  intros H. unfold enumerate.
  assert (Hi : foldr (fun (kx : string * A) acc =>
                        match indexKey (fst kx) with
                        | Some i => insertSorted i kx acc
                        | None => acc
                        end) [] props = []).
  { induction props as [|[k x] props IH]; [reflexivity|].
    cbn [map fst forallb] in H. apply andb_true_iff in H as [Hk Hr].
    cbn [foldr fst]. rewrite (IH Hr).
    destruct (indexKey k) as [i|]; [|reflexivity].
    rewrite bool_decide_eq_true_2 in Hk by eauto. discriminate. }
  rewrite Hi. cbn [map app].
  induction props as [|[k x] props IH]; [reflexivity|].
  cbn [map fst forallb] in H. apply andb_true_iff in H as [Hk Hr].
  cbn [List.filter fst]. rewrite Hk. f_equal. apply IH; [exact Hr|].
  clear -Hr. induction props as [|[k x] props IH]; [reflexivity|].
  cbn [map fst forallb] in Hr. apply andb_true_iff in Hr as [Hk Hr].
  cbn [foldr fst]. rewrite (IH Hr).
  destruct (indexKey k) as [i|]; [|reflexivity].
  rewrite bool_decide_eq_true_2 in Hk by eauto. discriminate.
Qed.

Lemma insertSorted_In {A} (i : N) (x y : A) (j : N) (l : list (N * A)) :
  In (j, y) (insertSorted i x l) -> (j, y) = (i, x) \/ In (j, y) l.
Proof.
  induction l as [|[k z] l IH]; cbn [insertSorted].
  - intros [H | []]; left; now symmetry.
  - destruct (i <? k)%N.
    + intros [H | H]; [left; now symmetry | now right].
    + intros [H | H]; [right; now left|].
      destruct (IH H) as [E | E]; [now left | right; now right].
Qed.

(** Enumeration gives properties of the object, nothing else. *)
Lemma enumerate_In {A} (props : list (string * A)) (kx : string * A) :
  In kx (enumerate props) -> In kx props.
Proof.
  unfold enumerate. rewrite in_app_iff. intros [H | H].
  - apply in_map_iff in H as ([j kx'] & E & H). cbn [snd] in E. subst kx'.
    induction props as [|p props IH]; [destruct H|].
    cbn [foldr] in H. destruct (indexKey (fst p)) as [i|].
    + apply insertSorted_In in H as [E | H];
        [injection E as _ ->; now left | right; now apply IH].
    + right. now apply IH.
  - now apply List.filter_In in H as [H _].
Qed.

End Enumeration.

Section Rendering.
Import Render.

Lemma lookupLeaf_first (name : string) (e : LeafType)
    (pre post : list (string * LeafType)) :
  name ∉ map fst pre ->
  lookupLeaf name (pre ++ (name, e) :: post) = Some e.
Proof.
  induction pre as [|[k e'] pre IH]; simpl; intros Hn.
  - now rewrite String.eqb_refl.
  - destruct (String.eqb_spec name k) as [-> | Hk].
    + exfalso. apply Hn. left.
    + apply IH. intros Hin. apply Hn. now right.
Qed.

Lemma find_first {A} (f : A -> bool) (pre post : list A) (x : A) :
  Forall (fun y => f y = false) pre -> f x = true ->
  List.find f (pre ++ x :: post) = Some x.
Proof.
  intros Hpre Hx. induction Hpre as [|y pre Hy _ IH]; cbn.
  - now rewrite Hx.
  - now rewrite Hy.
Qed.

Lemma find_none {A} (f : A -> bool) (l : list A) :
  Forall (fun y => f y = false) l -> List.find f l = None.
Proof.
  induction 1 as [|y l Hy _ IH]; [reflexivity|]. cbn. now rewrite Hy.
Qed.

(** [renderLeaf] by the keys of [enabledLeaves], in the order
    [Object.keys] gives them. *)
Lemma renderLeaf_first_key (enabledLeaves : list (string * LeafType))
    (pre post : list string) (name : string) (leaf : Slate.Node) :
  keys enabledLeaves = pre ++ name :: post ->
  Forall (fun k => leafHas leaf k = false) pre ->
  leafHas leaf name = true ->
  renderLeaf enabledLeaves leaf
  = match lookupLeaf name enabledLeaves with
    | Some {| Leaf := Some component |} => CustomLeaf component
    | _ => Span
    end.
Proof.
  intros Hkeys Hpre Hname. unfold renderLeaf, matchedLeafName.
  rewrite Hkeys, (find_first _ _ _ _ Hpre Hname). reflexivity.
Qed.

(** X17: a leaf is rendered by one component at most.  For leaf types
    none of which is registered under an array index, it is that of the
    first registered type whose member on the leaf is truthy, a mark of the
    leaf or a member every object inherits: types registered later do not
    count, and when that first type has no [Leaf] component the leaf is a
    plain [<span>]. *)
Theorem renderLeaf_first_mark (pre post : list (string * LeafType))
    (name : string) (e : LeafType) (leaf : Slate.Node) :
  forallb (fun k => negb (bool_decide (is_Some (Serialize.indexKey k))))
    (map fst (pre ++ (name, e) :: post)) = true ->
  Forall (fun k => leafHas leaf k = false) (map fst pre) ->
  leafHas leaf name = true ->
  renderLeaf (pre ++ (name, e) :: post) leaf
  = match Leaf e with
    | Some component => CustomLeaf component
    | None => Span
    end.
Proof.
  intros Hkeys Hpre Hname.
  assert (Hnot : name ∉ map fst pre).
  { intros Hin. rewrite List.Forall_forall in Hpre.
    apply list_elem_of_In in Hin. rewrite (Hpre _ Hin) in Hname.
    discriminate. }
  rewrite (renderLeaf_first_key _ (map fst pre) (map fst post) name leaf);
    [|unfold keys; rewrite (enumerate_no_index _ Hkeys);
      now rewrite map_app|exact Hpre|exact Hname].
  rewrite (lookupLeaf_first name e pre post Hnot).
  now destruct e as [[c|] b].
Qed.

Lemma renderLeaf_first_mark_witness :
  renderLeaf
    [("bold", {| Leaf := Some "Bold"; Button := Some "BoldButton" |});
     ("italic", {| Leaf := Some "Italic"; Button := None |});
     ("code", {| Leaf := Some "Code"; Button := None |})]
    (Slate.Text "both"
       [("bold", JS.Bool false); ("code", JS.Bool true);
        ("italic", JS.Bool true)])
  = CustomLeaf "Italic".
Proof.
  apply (renderLeaf_first_mark
           [("bold", {| Leaf := Some "Bold"; Button := Some "BoldButton" |})]
           [("code", {| Leaf := Some "Code"; Button := None |})]
           "italic" {| Leaf := Some "Italic"; Button := None |}
           (Slate.Text "both"
              [("bold", JS.Bool false); ("code", JS.Bool true);
               ("italic", JS.Bool true)])).
  - vm_compute. reflexivity.
  - repeat constructor.
  - reflexivity.
Defined.

(** Where registration order is not the order of the keys, and where a
    name is found on every leaf: a type registered under ["0"] comes
    before one registered earlier under ["bold"], and a type registered
    under ["constructor"] matches a leaf without marks. *)
Lemma renderLeaf_index_and_inherited :
  renderLeaf
    [("bold", {| Leaf := Some "Bold"; Button := None |});
     ("0", {| Leaf := Some "Zero"; Button := None |})]
    (Slate.Text "x" [("bold", JS.Bool true); ("0", JS.Bool true)])
  = CustomLeaf "Zero"
  /\ renderLeaf
       [("constructor", {| Leaf := Some "C"; Button := None |})]
       (Slate.Text "plain" [])
     = CustomLeaf "C".
Proof. split; vm_compute; reflexivity. Qed.

(** X18: a leaf on which no registered name is truthy, neither as a mark of
    its own nor as a member it inherits, is a plain [<span>] (no leaf type
    being registered under the name ["undefined"], which is the key read
    when nothing matches). *)
Theorem renderLeaf_plain_text (enabledLeaves : list (string * LeafType))
    (leaf : Slate.Node) :
  Forall (fun k => leafHas leaf k = false) (map fst enabledLeaves) ->
  lookupLeaf "undefined" enabledLeaves = None ->
  renderLeaf enabledLeaves leaf = Span.
Proof.
  intros Hall Hu. unfold renderLeaf, matchedLeafName.
  rewrite find_none.
  - change (default "undefined" None) with "undefined". now rewrite Hu.
  - unfold keys. apply List.Forall_forall. intros k Hk.
    apply in_map_iff in Hk as (kx & <- & Hin).
    apply enumerate_In in Hin.
    rewrite List.Forall_forall in Hall. apply Hall.
    now apply in_map.
Qed.

Lemma renderLeaf_plain_text_witness :
  renderLeaf
    [("bold", {| Leaf := Some "Bold"; Button := Some "BoldButton" |});
     ("italic", {| Leaf := Some "Italic"; Button := None |})]
    (Slate.Text "plain" [("bold", JS.Bool false)])
  = Span.
Proof.
  apply renderLeaf_plain_text; [repeat constructor | reflexivity].
Defined.

Lemma get_cons (i : nat) (c : ascii) (s : string) :
  String.get (S i) (String c s) = String.get i s.
Proof. reflexivity. Qed.

Lemma replaceDots_no_dot (path : string) (i : nat) :
  String.get i (replaceDots path) <> Some "."%char.
Proof.
  revert i. induction path as [|c rest IH]; intros i; [now destruct i|].
  cbn [replaceDots]. destruct (Ascii.eqb_spec c ".") as [-> | Hc].
  - destruct i as [|[|i]]; [discriminate | discriminate | apply IH].
  - destruct i as [|i]; [|apply IH]. cbn. congruence.
Qed.

(** X19: the id of a field has no dot in it, and a path with a dot has the
    id of the path with two underscores in the dot's place: the two fields
    share their id. *)
Theorem fieldId_has_no_dot (path a b : string) (i : nat) :
  String.get i (fieldId path) <> Some "."%char
  /\ fieldId (a +:+ "." +:+ b) = fieldId (a +:+ "__" +:+ b).
Proof.
  split.
  - unfold fieldId.
    do 6 (destruct i as [|i]; [discriminate|]).
    apply replaceDots_no_dot.
  - unfold fieldId. f_equal.
    induction a as [|c rest IH]; [reflexivity|].
    change (String c rest +:+ "." +:+ b)
      with (String c (rest +:+ "." +:+ b)).
    change (String c rest +:+ "__" +:+ b)
      with (String c (rest +:+ "__" +:+ b)).
    cbn [replaceDots]. now rewrite IH.
Qed.

End Rendering.

(** ** Serialising and parsing back *)

Section RoundTrip.
Import JSNumber JSON Serialize.

Lemma value_ind (P : JS.Value -> Prop) :
  P JS.Undefined -> P JS.Null -> (forall b, P (JS.Bool b)) ->
  (forall m e, P (JS.Num m e)) -> (forall s, P (JS.Str s)) ->
  (forall xs, Forall P xs -> P (JS.Arr xs)) ->
  (forall kvs, Forall (fun kv => P (snd kv)) kvs -> P (JS.Obj kvs)) ->
  forall v, P v.
Proof.
  intros Hu Hn Hb Hnum Hs Ha Ho. fix IH 1.
  intros [| | b | m e | s | xs | kvs];
    [exact Hu | exact Hn | apply Hb | apply Hnum | apply Hs | |].
  - apply Ha. induction xs as [|x xs IHx]; constructor; [apply IH | exact IHx].
  - apply Ho. induction kvs as [|[k x] kvs IHk]; constructor;
      [apply IH | exact IHk].
Qed.

(** One escaped character is read back as the character. *)
Lemma parseChars_escapeChar (c : ascii) (cs : list ascii) :
  parseChars (escapeChar c ++ cs)
  = ('(s, r) ← parseChars cs; Some (c :: s, r)).
Proof.
  destruct c as [[] [] [] [] [] [] [] []]; reflexivity.
Qed.

Lemma parseChars_escaped (s : list ascii) (rest : list ascii) :
  parseChars (List.concat (map escapeChar s) ++ ascii_of_N 34 :: rest)
  = Some (s, rest).
Proof.
  induction s as [|c s IH]; [reflexivity|].
  cbn [map List.concat]. rewrite <- app_assoc, parseChars_escapeChar, IH.
  reflexivity.
Qed.

Lemma parseString_quote (s : string) (rest : list ascii) :
  parseString (List.concat (map escapeChar (list_ascii_of_string s))
               ++ ascii_of_N 34 :: rest)
  = Some (s, rest).
Proof.
  unfold parseString. rewrite parseChars_escaped. cbn.
  now rewrite string_of_list_ascii_of_string.
Qed.

Lemma literal_word (word : string) (v : JS.Value) (rest : list ascii) :
  literal word v (list_ascii_of_string word ++ rest) = Some (v, rest).
Proof.
  unfold literal. rewrite take_app_length, drop_app_length.
  now rewrite decide_True.
Qed.

(** *** Whole numbers *)

Lemma digit_digitChar (n : N) :
  (n < 10)%N -> digit (digitChar n) = Some (Z.of_N n).
Proof.
  intros H.
  assert (E : n = 0%N \/ n = 1%N \/ n = 2%N \/ n = 3%N \/ n = 4%N
              \/ n = 5%N \/ n = 6%N \/ n = 7%N \/ n = 8%N \/ n = 9%N)
    by lia.
  repeat (destruct E as [-> | E]; [reflexivity|]). subst. reflexivity.
Qed.

Lemma digits_digitsOf (f : nat) :
  forall (n : N) (acc : Z) (c : nat) (cs : list ascii),
    (n < 10 ^ N.of_nat f)%N ->
    digits acc c (digitsOf f n ++ cs)
    = digits (10 ^ Z.of_nat (List.length (digitsOf f n)) * acc + Z.of_N n)
        (c + List.length (digitsOf f n)) cs.
Proof.
  induction f as [|f IH]; intros n acc c cs Hn.
  - cbn in *. assert (n = 0%N) by lia. subst.
    f_equal; [lia | lia].
  - cbn [digitsOf]. destruct (N.ltb_spec n 10) as [Hlt | Hge].
    + cbn [app List.length digits]. rewrite (digit_digitChar n Hlt).
      f_equal; lia.
    + rewrite <- app_assoc. rewrite IH.
      2:{ rewrite Nat2N.inj_succ, N.pow_succ_r' in Hn.
          apply N.Div0.div_lt_upper_bound. lia. }
      cbn [app digits].
      rewrite digit_digitChar by (apply N.mod_lt; lia).
      rewrite length_app. cbn [List.length].
      f_equal; [|lia].
      rewrite Nat2Z.inj_add. cbn [Z.of_nat Pos.of_succ_nat].
      rewrite Z.pow_add_r by lia.
      pose proof (N.div_mod n 10 ltac:(lia)) as Hdm.
      rewrite N2Z.inj_div, N2Z.inj_mod.
      rewrite (Z.div_mod (Z.of_N n) 10) at 3 by lia. 
      change (Z.of_N 10) with 10%Z.
      change (10 ^ Z.of_nat 1)%Z with 10%Z. ring.
Qed.

Lemma digits_zeros (z : nat) :
  forall (acc : Z) (c : nat) (cs : list ascii),
    digits acc c (repeat "0"%char z ++ cs)
    = digits (10 ^ Z.of_nat z * acc) (c + z) cs.
Proof.
  induction z as [|z IH]; intros acc c cs.
  - cbn. f_equal; lia.
  - cbn [repeat app].
    change (digits acc c ("0"%char :: repeat "0"%char z ++ cs))
      with (digits (10 * acc + 0) (S c) (repeat "0"%char z ++ cs)).
    rewrite IH. f_equal; [|lia].
    rewrite Nat2Z.inj_succ, Z.pow_succ_r by lia. ring.
Qed.

Lemma digits_stop (acc : Z) (c : nat) (rest : list ascii) :
  stops rest -> digits acc c rest = (acc, c, rest).
Proof.
  destruct rest as [|x rest]; [reflexivity|].
  intros [-> | [-> | ->]]; reflexivity.
Qed.

Lemma log2_fuel (n : N) : (n < 10 ^ N.of_nat (S (N.to_nat (N.log2 n))))%N.
Proof.
  rewrite Nat2N.inj_succ, N2Nat.id.
  destruct (N.eq_dec n 0) as [-> | Hn]; [reflexivity|].
  pose proof (N.log2_spec n ltac:(lia)) as [_ Hlt].
  eapply N.lt_le_trans; [exact Hlt|].
  apply N.pow_le_mono_l. lia.
Qed.

Lemma stripZeros_spec (f : nat) :
  forall (a : N) (z0 : nat) (s : N) (z : nat),
    stripZeros f a z0 = (s, z) ->
    (a = s * 10 ^ N.of_nat (z - z0))%N /\ (z0 <= z)%nat
    /\ (a <> 0%N -> s <> 0%N).
Proof.
  induction f as [|f IH]; intros a z0 s z H; cbn [stripZeros] in H.
  - injection H as <- <-. rewrite Nat.sub_diag. cbn. split; [lia|].
    split; [lia | auto].
  - destruct ((a mod 10 =? 0)%N && negb (a =? 0)%N) eqn:E.
    + apply andb_true_iff in E as [E1 E2].
      apply N.eqb_eq in E1. apply negb_true_iff, N.eqb_neq in E2.
      destruct (IH _ _ _ _ H) as (Ha & Hz & Hs).
      pose proof (N.div_mod a 10 ltac:(lia)) as Hdm.
      split; [|split; [lia|]].
      * replace (z - z0)%nat with (S (z - S z0)) by lia.
        rewrite Nat2N.inj_succ, N.pow_succ_r'. lia.
      * intros _. apply Hs. intros H0. lia.
    + injection H as <- <-. rewrite Nat.sub_diag. cbn.
      split; [lia|]. split; [lia | auto].
Qed.

(** The first digit of a positive number is not a zero. *)
Lemma digitsOf_head (f : nat) :
  forall n : N,
    (0 < n)%N -> (n < 10 ^ N.of_nat f)%N ->
    exists c r, digitsOf f n = c :: r
                /\ (49 <= code c)%N /\ (code c <= 57)%N.
Proof.
  induction f as [|f IH]; intros n Hpos Hn; [cbn in Hn; lia|].
  cbn [digitsOf]. destruct (N.ltb_spec n 10) as [Hlt | Hge].
  - exists (digitChar n), [].
    assert (E : n = 1%N \/ n = 2%N \/ n = 3%N \/ n = 4%N \/ n = 5%N
                \/ n = 6%N \/ n = 7%N \/ n = 8%N \/ n = 9%N) by lia.
    repeat (destruct E as [-> | E];
            [split; [reflexivity | split; cbv; discriminate]|]).
    subst. split; [reflexivity | split; cbv; discriminate].
  - destruct (IH (n / 10)%N) as (c & r & -> & Hc).
    + apply N.div_str_pos. lia.
    + rewrite Nat2N.inj_succ, N.pow_succ_r' in Hn.
      apply N.Div0.div_lt_upper_bound. lia.
    + exists c, (r ++ [digitChar (n mod 10)]). split; [reflexivity | exact Hc].
Qed.

(** A positive number is at least the power of ten of its digits but one. *)
Lemma digitsOf_bound (f : nat) :
  forall n : N,
    (0 < n)%N -> (n < 10 ^ N.of_nat f)%N ->
    (10 ^ N.of_nat (List.length (digitsOf f n) - 1) <= n)%N.
Proof.
  induction f as [|f IH]; intros n Hpos Hn; [cbn in Hn; lia|].
  cbn [digitsOf]. destruct (N.ltb_spec n 10) as [Hlt | Hge].
  - cbn. lia.
  - assert (Hdiv : (0 < n / 10)%N) by (apply N.div_str_pos; lia).
    assert (Hfuel : (n / 10 < 10 ^ N.of_nat f)%N).
    { rewrite Nat2N.inj_succ, N.pow_succ_r' in Hn.
      apply N.Div0.div_lt_upper_bound. lia. }
    specialize (IH _ Hdiv Hfuel).
    destruct (digitsOf_head f _ Hdiv Hfuel) as (c & r & E & _).
    rewrite length_app. cbn [List.length]. rewrite E in *.
    cbn [List.length] in *.
    replace (S (List.length r) + 1 - 1)%nat with (S (List.length r - 0))
      by lia.
    replace (S (List.length r) - 1)%nat with (List.length r - 0)%nat in IH
      by lia.
    rewrite Nat2N.inj_succ, N.pow_succ_r'.
    pose proof (N.Div0.mul_div_le n 10). lia.
Qed.

Lemma parseNumber_whole (neg : bool) (c : ascii) (r rest : list ascii)
    (V : Z) (n : nat) :
  (49 <= code c)%N -> (code c <= 57)%N ->
  digits 0 0 (c :: r ++ rest) = (V, n, rest) -> n <> 0%nat ->
  stops rest ->
  parseNumber ((if neg then ["-"%char] else []) ++ c :: r ++ rest)
  = Some (JS.Num (if neg then - V else V) 0, rest).
Proof.
  intros Hlo Hhi Hd Hn Hst.
  assert (Hc : c = ascii_of_N (code c))
    by (symmetry; apply ascii_N_embedding).
  assert (E : code c = 49%N \/ code c = 50%N \/ code c = 51%N
              \/ code c = 52%N \/ code c = 53%N \/ code c = 54%N
              \/ code c = 55%N \/ code c = 56%N \/ code c = 57%N) by lia.
  assert (Htail : forall i : Z,
             (fracPart ←
                match rest with
                | "."%char :: rest0 =>
                    let '(v, n0, rest') := digits i 0 rest0 in
                    if (n0 =? 0)%nat then None
                    else Some (v, Z.of_nat n0, rest')
                | _ => Some (i, 0, rest)
                end;
              let '(m, scale, cs3) := fracPart in
              expPart ←
                match cs3 with
                | c0 :: rest0 =>
                    if (code c0 =? 101)%N || (code c0 =? 69)%N then
                      let '(eneg, rest1) :=
                        match rest0 with
                        | "-"%char :: r0 => (true, r0)
                        | "+"%char :: r0 => (false, r0)
                        | _ => (false, rest0)
                        end in
                      let '(v, n0, rest2) := digits 0 0 rest1 in
                      if (n0 =? 0)%nat then None
                      else Some (if eneg then - v else v, rest2)
                    else Some (0, cs3)
                | [] => Some (0, cs3)
                end;
              let '(e, cs4) := expPart in
              Some (JS.Num (if neg then - m else m) (e - scale), cs4))
             = Some (JS.Num (if neg then - i else i) 0, rest)).
  { intros i. destruct rest as [|x rest']; [reflexivity|].
    destruct Hst as [-> | [-> | ->]]; reflexivity. }
  destruct n as [|n']; [now destruct Hn|].
  unfold parseNumber.
  assert (Hcase : forall k : N,
             code c = k ->
             match c with
             | "0"%char => False | "-"%char => False | _ => True
             end ->
             parseNumber ((if neg then ["-"%char] else []) ++ c :: r ++ rest)
             = Some (JS.Num (if neg then - V else V) 0, rest)).
  { intros k _ Hnot. unfold parseNumber.
    destruct c as [[] [] [] [] [] [] [] []]; try (now destruct Hnot);
      destruct neg; cbn [app]; rewrite Hd; exact (Htail V). }
  repeat (destruct E as [E | E];
          [apply (Hcase _ E); rewrite Hc, E; exact I|]).
  apply (Hcase _ E). rewrite Hc, E. exact I.
Qed.

Lemma plain_bound (m : Z) :
  (Z.abs m <=? 2 ^ 53)%Z = true -> (Z.abs m < 10 ^ 21)%Z.
Proof.
  intros H. apply Z.leb_le in H.
  apply (Z.le_lt_trans _ _ _ H). reflexivity.
Qed.

(** How a whole number other than zero is written: a sign, a first digit
    that is not zero, more digits. *)
Lemma numberToString_whole (m : Z) :
  m <> 0%Z -> (Z.abs m < 10 ^ 21)%Z ->
  exists c r k,
    numberToString m 0 = (if (m <? 0)%Z then ["-"%char] else []) ++ c :: r
    /\ (49 <= code c)%N /\ (code c <= 57)%N
    /\ forall rest, stops rest ->
                    digits 0 0 (c :: r ++ rest) = (Z.abs m, S k, rest).
Proof.
  intros Hm0 Hm. unfold numberToString.
  destruct (Z.eqb_spec m 0) as [-> | _]; [now destruct Hm0|].
  set (a := Z.abs_N m).
  assert (Ha : a <> 0%N) by (unfold a; lia).
  destruct (stripZeros (S (N.to_nat (N.log2 a))) a 0) as [s zeros] eqn:Es.
  destruct (stripZeros_spec _ _ _ _ _ Es) as (Has & _ & Hs).
  specialize (Hs Ha). rewrite Nat.sub_0_r in Has.
  assert (Hspos : (0 < s)%N) by lia.
  pose proof (log2_fuel s) as Hfuel. fold (decimal s) in *.
  destruct (digitsOf_head _ s Hspos Hfuel) as (c & r & Hdec & Hlo & Hhi).
  pose proof (digitsOf_bound _ s Hspos Hfuel) as Hbound.
  fold (decimal s) in Hdec, Hbound.
  set (k := List.length (decimal s)) in *.
  assert (Hk : (0 < k)%nat) by (unfold k; rewrite Hdec; cbn; lia).
  assert (Hlen : (k + zeros <= 21)%nat).
  { destruct (Nat.le_gt_cases (k + zeros) 21) as [|Hgt]; [assumption|].
    exfalso.
    assert (H1 : (10 ^ N.of_nat (k - 1) * 10 ^ N.of_nat zeros <= a)%N).
    { rewrite Has. apply N.mul_le_mono_r. exact Hbound. }
    rewrite <- N.pow_add_r in H1.
    assert (H2 : (10 ^ 21 <= 10 ^ (N.of_nat (k - 1) + N.of_nat zeros))%N)
      by (apply N.pow_le_mono_r; lia).
    assert (H3 : (a < 10 ^ 21)%N).
    { unfold a. apply N2Z.inj_lt. rewrite N2Z.inj_abs_N.
      change (Z.of_N (10 ^ 21)) with (10 ^ 21)%Z. exact Hm. }
    lia. }
  replace ((Z.of_nat k <=? Z.of_nat k + Z.of_nat zeros + 0)%Z
           && (Z.of_nat k + Z.of_nat zeros + 0 <=? 21)%Z) with true
    by (symmetry; apply andb_true_iff; split; apply Z.leb_le; lia).
  replace (Z.to_nat (Z.of_nat k + Z.of_nat zeros + 0 - Z.of_nat k))
    with zeros by lia.
  exists c, (r ++ repeat "0"%char zeros), (k + zeros - 1)%nat.
  split; [now rewrite Hdec|]. split; [exact Hlo|]. split; [exact Hhi|].
  intros rest Hst.
  assert (Hd : digits 0 0 (decimal s ++ repeat "0"%char zeros ++ rest)
               = (Z.of_N a, (0 + k + zeros)%nat, rest)).
  { unfold decimal. rewrite (digits_digitsOf _ s 0 0 _ Hfuel).
    rewrite digits_zeros, (digits_stop _ _ rest Hst).
    fold (decimal s). fold k. f_equal. f_equal.
    rewrite Has, N2Z.inj_mul, N2Z.inj_pow, nat_N_Z.
    change (Z.of_N 10) with 10%Z. ring. }
  rewrite Hdec in Hd. cbn [app] in Hd. rewrite <- app_assoc, Hd.
  replace (S (k + zeros - 1)) with (0 + k + zeros)%nat by lia.
  unfold a. now rewrite N2Z.inj_abs_N.
Qed.

Lemma parseNumber_numberToString (m : Z) (rest : list ascii) :
  (Z.abs m < 10 ^ 21)%Z -> stops rest ->
  parseNumber (numberToString m 0 ++ rest) = Some (JS.Num m 0, rest).
Proof.
  intros Hm Hst.
  destruct (Z.eq_dec m 0) as [-> | Hm0].
  { unfold numberToString, parseNumber. cbn.
    destruct rest as [|x rest']; [reflexivity|].
    destruct Hst as [-> | [-> | ->]]; reflexivity. }
  destruct (numberToString_whole m Hm0 Hm) as (c & r & k & -> & Hlo & Hhi & Hd).
  rewrite <- app_assoc. cbn [app].
  rewrite (parseNumber_whole (m <? 0)%Z c r rest (Z.abs m) (S k) Hlo Hhi
             (Hd rest Hst) ltac:(discriminate) Hst).
  f_equal. f_equal. f_equal. destruct (Z.ltb_spec m 0); lia.
Qed.

(** *** Values *)

Lemma skipWs_head (c : ascii) (cs : list ascii) :
  isWs c = false -> skipWs (c :: cs) = c :: cs.
Proof. intros H. cbn. now rewrite H. Qed.

Lemma digit_not_structural (c : ascii) :
  (49 <= code c)%N -> (code c <= 57)%N ->
  isWs c = false /\ (code c =? 93)%N = false /\ (code c =? 125)%N = false
  /\ (code c =? 34)%N = false /\ (code c =? 91)%N = false
  /\ (code c =? 123)%N = false /\ (code c =? 116)%N = false
  /\ (code c =? 102)%N = false /\ (code c =? 110)%N = false.
Proof.
  intros Hlo Hhi. unfold isWs.
  assert (E : code c = 49%N \/ code c = 50%N \/ code c = 51%N
              \/ code c = 52%N \/ code c = 53%N \/ code c = 54%N
              \/ code c = 55%N \/ code c = 56%N \/ code c = 57%N) by lia.
  repeat (destruct E as [-> | E]; [repeat split|]).
  rewrite E. repeat split.
Qed.

Lemma parseValue_number (f : nat) (c : ascii) (cs : list ascii) :
  (code c =? 34)%N = false -> (code c =? 91)%N = false ->
  (code c =? 123)%N = false -> (code c =? 116)%N = false ->
  (code c =? 102)%N = false -> (code c =? 110)%N = false ->
  parseValue (S f) (c :: cs) = parseNumber (c :: cs).
Proof.
  intros H1 H2 H3 H4 H5 H6. rewrite parseValue_S.
  now rewrite H1, H2, H3, H4, H5, H6.
Qed.

Lemma joinWith_cons (sep : ascii) (p q : list ascii)
    (l : list (list ascii)) :
  joinWith sep (p :: q :: l) = p ++ sep :: joinWith sep (q :: l).
Proof. reflexivity. Qed.

Lemma skipWs_join (c : ascii) (r : list ascii) (ps : list (list ascii))
    (l : list ascii) :
  isWs c = false ->
  skipWs (joinWith ","%char ((c :: r) :: ps) ++ l)
  = joinWith ","%char ((c :: r) :: ps) ++ l.
Proof.
  intros H. destruct ps as [|q qs];
    [cbn [joinWith]|rewrite joinWith_cons]; cbn [app];
    apply skipWs_head; exact H.
Qed.

(** What is written for a plain value starts with a character that is
    neither white space nor a closing bracket or brace. *)
Lemma write_plain (v : JS.Value) :
  plain v = true ->
  exists c r, write v = Some (c :: r) /\ isWs c = false
              /\ (code c =? 93)%N = false /\ (code c =? 125)%N = false.
Proof.
  destruct v as [| | [] | m e | s | xs | kvs]; cbn [plain write]; intros Hp;
    try discriminate; try (eexists _, _; repeat split; reflexivity).
  apply andb_true_iff in Hp as [He Hm].
  apply Z.eqb_eq in He as ->. apply plain_bound in Hm.
  destruct (Z.eq_dec m 0) as [-> | Hm0].
  { eexists _, _; repeat split; reflexivity. }
  destruct (numberToString_whole m Hm0 Hm) as (c & r & k & -> & Hlo & Hhi & _).
  destruct (digit_not_structural c Hlo Hhi) as (Hw & H93 & H125 & _).
  destruct (m <? 0)%Z; cbn [app].
  - eexists _, _; repeat split; reflexivity.
  - exists c, r. repeat split; assumption.
Qed.

(** The elements of an array, written with commas between them and
    followed by the closing bracket, are read back. *)
Lemma parseElements_join (xs : list JS.Value) :
  Forall (fun x => plain x = true -> forall out, write x = Some out ->
            exists f0, forall f rest, (f0 <= f)%nat -> stops rest ->
              parseValue f (out ++ rest) = Some (x, rest)) xs ->
  forallb plain xs = true -> xs <> [] ->
  exists f0, forall f rest, (f0 <= f)%nat ->
    parseElements f
      (joinWith ","%char (map (fun x => default (chars "null") (write x)) xs)
       ++ "]"%char :: rest)
    = Some (xs, rest).
Proof.
  induction 1 as [|x xs Hx Hxs IH]; intros Hp Hne; [now destruct Hne|].
  cbn [forallb] in Hp. apply andb_true_iff in Hp as [Hpx Hpxs].
  destruct (write_plain x Hpx) as (c & r & Hw & _).
  destruct (Hx Hpx _ Hw) as [fx Hfx].
  destruct xs as [|y ys].
  - exists (S fx). intros [|f] rest Hf; [lia|].
    rewrite parseElements_S. cbn [map joinWith]. rewrite Hw.
    change (default (chars "null") (Some (c :: r))) with (c :: r).
    rewrite (Hfx f ("]"%char :: rest)) by (cbn; auto; lia).
    reflexivity.
  - destruct (IH Hpxs ltac:(discriminate)) as [fr Hfr].
    exists (S (Nat.max fx fr)). intros [|f] rest Hf; [lia|].
    rewrite parseElements_S.
    cbn [map]. rewrite joinWith_cons, Hw.
    change (default (chars "null") (Some (c :: r))) with (c :: r).
    rewrite <- app_assoc.
    match goal with
    | |- context [(c :: r) ++ (","%char :: ?J) ++ ?l] =>
        change ((c :: r) ++ (","%char :: J) ++ l)
          with ((c :: r) ++ ","%char :: J ++ l)
    end.
    rewrite (Hfx f (","%char :: _)) by (cbn; auto; lia).
    cbn [mbind option_bind].
    change (skipWs (","%char :: ?l)) with (","%char :: l).
    cbn [forallb] in Hpxs. apply andb_true_iff in Hpxs as [Hpy Hpys].
    destruct (write_plain y Hpy) as (cy & ry & Hwy & Hws & _).
    assert (Hskip : forall l,
               skipWs (joinWith ","%char
                         (map (fun x => default (chars "null") (write x))
                              (y :: ys)) ++ l)
               = joinWith ","%char
                   (map (fun x => default (chars "null") (write x))
                        (y :: ys)) ++ l).
    { intros l. cbn [map]. rewrite Hwy.
      change (default (chars "null") (Some (cy :: ry))) with (cy :: ry).
      destruct ys as [|z zs]; [cbn [map joinWith]|cbn [map];
                                                  rewrite joinWith_cons];
        cbn [app]; apply skipWs_head; exact Hws. }
    change (code ","%char =? 44)%N with true. cbv iota.
    rewrite Hskip, (Hfr f rest) by lia. reflexivity.
Qed.

Lemma omap_written (k : string) (x : JS.Value) (out : list ascii)
    (kvs : list (string * JS.Value)) :
  write x = Some out ->
  omap (fun kw : string * option (list ascii) =>
          match snd kw with
          | Some out => Some (quote (fst kw) ++ ":"%char :: out)
          | None => None
          end)
       (map (fun kx => (fst kx, write (snd kx))) ((k, x) :: kvs))
  = (quote k ++ ":"%char :: out)
    :: omap (fun kw : string * option (list ascii) =>
               match snd kw with
               | Some out => Some (quote (fst kw) ++ ":"%char :: out)
               | None => None
               end)
            (map (fun kx => (fst kx, write (snd kx))) kvs).
Proof. intros H. cbn. now rewrite H. Qed.

(** The members of an object, written with commas between them and
    followed by the closing brace, are read back. *)
Lemma parseMembers_join (kvs : list (string * JS.Value)) :
  Forall (fun kv => plain (snd kv) = true ->
            forall out, write (snd kv) = Some out ->
            exists f0, forall f rest, (f0 <= f)%nat -> stops rest ->
              parseValue f (out ++ rest) = Some (snd kv, rest)) kvs ->
  forallb (fun kx => plain (snd kx)) kvs = true -> kvs <> [] ->
  exists f0, forall f rest, (f0 <= f)%nat ->
    parseMembers f
      (joinWith ","%char
         (omap (fun kw : string * option (list ascii) =>
                  match snd kw with
                  | Some out => Some (quote (fst kw) ++ ":"%char :: out)
                  | None => None
                  end)
               (map (fun kx => (fst kx, write (snd kx))) kvs))
       ++ "}"%char :: rest)
    = Some (kvs, rest).
Proof.
  induction 1 as [|[k x] kvs Hx Hxs IH]; intros Hp Hne; [now destruct Hne|].
  cbn [forallb snd] in Hp. apply andb_true_iff in Hp as [Hpx Hpxs].
  cbn [snd] in Hx.
  destruct (write_plain x Hpx) as (c & r & Hw & Hws & _).
  destruct (Hx Hpx _ Hw) as [fx Hfx].
  rewrite (omap_written k x _ kvs Hw).
  assert (Hshape : forall tail,
             (quote k ++ ":"%char :: c :: r) ++ tail
             = ascii_of_N 34
               :: List.concat (map escapeChar (list_ascii_of_string k))
               ++ ascii_of_N 34 :: ":"%char :: (c :: r) ++ tail).
  { intros tail. unfold quote. cbn [app]. f_equal.
    rewrite <- !app_assoc. reflexivity. }
  assert (Hkey : forall f tail,
             parseMembers (S f) ((quote k ++ ":"%char :: c :: r) ++ tail)
             = '(v, r2) ← parseValue f ((c :: r) ++ tail);
               match skipWs r2 with
               | c' :: r3 =>
                   if (code c' =? 44)%N then
                     '(kvs, r4) ← parseMembers f (skipWs r3);
                     Some ((k, v) :: kvs, r4)
                   else if (code c' =? 125)%N then Some ([(k, v)], r3)
                   else None
               | [] => None
               end).
  { intros f tail. rewrite parseMembers_S, Hshape.
    change (code (ascii_of_N 34) =? 34)%N with true. cbv iota.
    rewrite parseString_quote. cbn [mbind option_bind].
    change (skipWs (":"%char :: (c :: r) ++ tail))
      with (":"%char :: (c :: r) ++ tail).
    change (code ":"%char =? 58)%N with true. cbv iota.
    change ((c :: r) ++ tail) with (c :: (r ++ tail)).
    now rewrite (skipWs_head c (r ++ tail) Hws). }
  destruct kvs as [|[k2 y] kvs'].
  - exists (S fx). intros [|f] rest Hf; [lia|].
    cbn [map omap list_omap joinWith].
    rewrite Hkey, (Hfx f ("}"%char :: rest)) by (cbn; auto; lia).
    reflexivity.
  - destruct (IH Hpxs ltac:(discriminate)) as [fr Hfr].
    exists (S (Nat.max fx fr)). intros [|f] rest Hf; [lia|].
    cbn [forallb snd] in Hpxs. apply andb_true_iff in Hpxs as [Hpy Hpys].
    destruct (write_plain y Hpy) as (cy & ry & Hwy & _).
    rewrite (omap_written k2 y _ kvs' Hwy) in Hfr |- *.
    rewrite joinWith_cons, <- app_assoc.
    match goal with
    | |- context [?p ++ (","%char :: ?J) ++ ?l] =>
        change (p ++ (","%char :: J) ++ l) with (p ++ ","%char :: J ++ l)
    end.
    rewrite Hkey, (Hfx f (","%char :: _)) by (cbn; auto; lia).
    cbn [mbind option_bind].
    match goal with
    | |- context [skipWs (","%char :: ?l)] =>
        change (skipWs (","%char :: l)) with (","%char :: l)
    end.
    change (code ","%char =? 44)%N with true. cbv iota.
    match goal with
    | |- context [skipWs (joinWith ","%char (?p :: ?ps) ++ ?l)] =>
        assert (Hskip : skipWs (joinWith ","%char (p :: ps) ++ l)
                        = joinWith ","%char (p :: ps) ++ l)
    end.
    { apply (skipWs_join (ascii_of_N 34)); reflexivity. }
    rewrite Hskip, (Hfr f rest) by lia. reflexivity.
Qed.

Lemma write_Obj (kvs : list (string * JS.Value)) :
  write (JS.Obj kvs)
  = Some ("{"%char
          :: joinWith ","%char
               (omap (fun kw : string * option (list ascii) =>
                        match snd kw with
                        | Some out => Some (quote (fst kw) ++ ":"%char :: out)
                        | None => None
                        end)
                     (enumerate
                        (map (fun kx => (fst kx, write (snd kx))) kvs)))
          ++ ["}"%char]).
Proof. reflexivity. Qed.

(** What is written for a plain value is read back as the value, whatever
    follows it, once the fuel suffices. *)
Lemma parseValue_write (v : JS.Value) :
  plain v = true -> forall out, write v = Some out ->
  exists f0, forall f rest, (f0 <= f)%nat -> stops rest ->
    parseValue f (out ++ rest) = Some (v, rest).
Proof.
  induction v as [| | b | m e | s | xs IH | kvs IH] using value_ind;
    intros Hp out Hw; cbn [plain] in Hp; try discriminate;
    [cbn [write] in Hw; injection Hw as <- ..
    |rewrite write_Obj in Hw; apply (inj Some) in Hw; subst out].
  - exists 1%nat. intros [|f] rest Hf _; [lia|].
    change (parseValue (S f) (chars "null" ++ rest))
      with (literal "null" JS.Null (list_ascii_of_string "null" ++ rest)).
    apply literal_word.
  - exists 1%nat. intros [|f] rest Hf _; [lia|]. destruct b.
    + change (parseValue (S f) (chars "true" ++ rest))
        with (literal "true" (JS.Bool true)
                (list_ascii_of_string "true" ++ rest)).
      apply literal_word.
    + change (parseValue (S f) (chars "false" ++ rest))
        with (literal "false" (JS.Bool false)
                (list_ascii_of_string "false" ++ rest)).
      apply literal_word.
  - apply andb_true_iff in Hp as [He Hm].
    apply Z.eqb_eq in He as ->. apply plain_bound in Hm.
    exists 1%nat. intros [|f] rest Hf Hst; [lia|].
    rewrite <- (parseNumber_numberToString m rest Hm Hst).
    destruct (Z.eq_dec m 0) as [-> | Hm0]; [reflexivity|].
    destruct (numberToString_whole m Hm0 Hm)
      as (c & r & k & -> & Hlo & Hhi & _).
    destruct (digit_not_structural c Hlo Hhi)
      as (_ & _ & _ & H1 & H2 & H3 & H4 & H5 & H6).
    destruct (m <? 0)%Z; cbn [app]; [reflexivity|].
    now apply parseValue_number.
  - exists 1%nat. intros [|f] rest Hf _; [lia|].
    rewrite parseValue_S. unfold quote. cbn [app].
    change (code (ascii_of_N 34) =? 34)%N with true. cbv iota.
    rewrite <- app_assoc. cbn [app].
    now rewrite parseString_quote.
  - destruct xs as [|x xs]; [exists 1%nat; intros [|f] rest Hf _; [lia|];
                             reflexivity|].
    destruct (parseElements_join (x :: xs) IH Hp ltac:(discriminate))
      as [f0 Hf0].
    cbn [forallb] in Hp. apply andb_true_iff in Hp as [Hpx _].
    destruct (write_plain x Hpx) as (c & r & Hwx & Hws & H93 & _).
    exists (S f0). intros [|f] rest Hf _; [lia|].
    set (J := joinWith ","%char _) in *.
    assert (Hshape : ("["%char :: J ++ ["]"%char]) ++ rest
                     = "["%char :: J ++ "]"%char :: rest)
      by (cbn [app]; now rewrite <- app_assoc).
    assert (Hhead : exists r', J ++ "]"%char :: rest = c :: r').
    { subst J. cbn [map]. rewrite Hwx.
      change (default (chars "null") (Some (c :: r))) with (c :: r).
      destruct (map _ xs) as [|q qs];
        [cbn [joinWith]|rewrite joinWith_cons]; cbn [app]; eauto. }
    destruct Hhead as [r' Hhead].
    rewrite Hshape, parseValue_S.
    change (code "["%char =? 34)%N with false.
    change (code "["%char =? 91)%N with true. cbv iota.
    rewrite Hhead, (skipWs_head c r' Hws), H93, <- Hhead.
    rewrite (Hf0 f rest) by lia. reflexivity.
  - apply andb_true_iff in Hp as [Hp Hpl].
    apply andb_true_iff in Hp as [_ Hkeys].
    rewrite enumerate_no_index
      by (rewrite map_map; cbn [fst]; exact Hkeys).
    destruct kvs as [|[k x] kvs]; [exists 1%nat; intros [|f] rest Hf _; [lia|];
                                  reflexivity|].
    destruct (parseMembers_join ((k, x) :: kvs) IH Hpl ltac:(discriminate))
      as [f0 Hf0].
    cbn [forallb snd] in Hpl. apply andb_true_iff in Hpl as [Hpx _].
    destruct (write_plain x Hpx) as (c & r & Hwx & _).
    exists (S f0). intros [|f] rest Hf _; [lia|].
    specialize (Hf0 f rest ltac:(lia)).
    rewrite (omap_written k x _ kvs Hwx) in Hf0 |- *.
    set (J := joinWith ","%char _) in *.
    assert (Hshape : ("{"%char :: J ++ ["}"%char]) ++ rest
                     = "{"%char :: J ++ "}"%char :: rest)
      by (cbn [app]; now rewrite <- app_assoc).
    assert (Hhead : exists r', J ++ "}"%char :: rest = ascii_of_N 34 :: r').
    { subst J. destruct (omap _ _) as [|q qs];
        [cbn [joinWith]|rewrite joinWith_cons]; unfold quote; cbn [app];
        eauto. }
    destruct Hhead as [r' Hhead].
    rewrite Hshape, parseValue_S.
    change (code "{"%char =? 34)%N with false.
    change (code "{"%char =? 91)%N with false.
    change (code "{"%char =? 123)%N with true. cbv iota.
    rewrite Hhead, (skipWs_head (ascii_of_N 34) r' eq_refl).
    change (code (ascii_of_N 34) =? 125)%N with false. cbv iota.
    rewrite <- Hhead, Hf0. reflexivity.
Qed.

Lemma assoc_set_fresh (k : string) (v : JS.Value)
    (acc : list (string * JS.Value)) :
  k ∉ map fst acc -> JS.assoc_set k v acc = acc ++ [(k, v)].
Proof.
  induction acc as [|[k' v'] acc IH]; intros H; [reflexivity|].
  cbn [map fst] in H. apply not_elem_of_cons in H as [Hne Hnot].
  cbn [JS.assoc_set app].
  destruct (String.eqb_spec k k') as [->|_]; [now destruct Hne|].
  now rewrite IH.
Qed.

Lemma foldl_assoc_set (kvs : list (string * JS.Value)) :
  forall acc,
    NoDup (map fst acc ++ map fst kvs) ->
    foldl (fun acc kv => JS.assoc_set (fst kv) (snd kv) acc) acc kvs
    = acc ++ kvs.
Proof.
  induction kvs as [|[k v] kvs IH]; intros acc H.
  - cbn. now rewrite app_nil_r.
  - cbn [foldl fst snd]. cbn [map fst] in H.
    assert (Hk : k ∉ map fst acc).
    { apply NoDup_app in H as (_ & H & _). intros Hin.
      apply (H k Hin). left. }
    rewrite assoc_set_fresh by exact Hk.
    rewrite IH; [now rewrite <- app_assoc|].
    rewrite map_app. cbn [map fst]. now rewrite <- app_assoc.
Qed.

(** Reading keeps a plain value as it is: it has no key twice. *)
Lemma dedup_plain (v : JS.Value) : plain v = true -> dedup v = v.
Proof.
  induction v as [| | b | m e | s | xs IH | kvs IH] using value_ind;
    intros Hp; try reflexivity; cbn [plain dedup] in *.
  - f_equal. induction IH as [|x xs Hx _ IHxs]; [reflexivity|].
    cbn [forallb] in Hp. apply andb_true_iff in Hp as [Hpx Hpxs].
    cbn [map]. now rewrite Hx, IHxs.
  - apply andb_true_iff in Hp as [Hp Hpl].
    apply andb_true_iff in Hp as [Hnd _].
    apply bool_decide_eq_true in Hnd.
    assert (E : map (fun kv : string * JS.Value => (fst kv, dedup (snd kv)))
                    kvs = kvs).
    { clear Hnd. induction IH as [|[k x] kvs Hx _ IHk]; [reflexivity|].
      cbn [forallb snd] in Hpl. apply andb_true_iff in Hpl as [Hpx Hpxs].
      cbn [map fst snd] in *. now rewrite Hx, IHk. }
    rewrite E, foldl_assoc_set; [reflexivity|exact Hnd].
Qed.

Lemma write_defined (v : JS.Value) : plain v = true -> is_Some (write v).
Proof. intros H. destruct (write_plain v H) as (c & r & -> & _). eauto. Qed.

(** The text written for a plain value parses to the value. *)
Lemma parse_written (v : JS.Value) (s : string) :
  plain v = true -> stringify v = Some s -> JSON.parse s = Some v.
Proof.
  intros Hp Hs. unfold stringify in Hs.
  destruct (write v) as [out|] eqn:Hw; [|discriminate].
  cbn in Hs. injection Hs as <-.
  destruct (parseValue_write v Hp out Hw) as [f0 Hf0].
  destruct (write_plain v Hp) as (c & r & Hw' & Hws & _).
  rewrite Hw in Hw'. injection Hw' as ->.
  rewrite (parse_fuel_enough _
             (Nat.max f0 (2 * List.length
                               (list_ascii_of_string
                                  (string_of_list_ascii (c :: r))) + 2)))
    by lia.
  rewrite list_ascii_of_string_of_list_ascii, (skipWs_head c r Hws).
  pose proof (Hf0 (Nat.max f0 (2 * List.length (c :: r) + 2)) []
                ltac:(lia) I) as H.
  rewrite app_nil_r in H. rewrite H. cbn.
  now rewrite (dedup_plain v Hp).
Qed.

(** X20: [JSON.parse] reads back what [JSON.stringify] writes for a value
    without [undefined], with whole numbers up to [2^53] and with object
    keys that are distinct and no array indices. *)
Theorem parse_stringify (v : JS.Value) (s : string) :
  plain v = true -> stringify v = Some s -> JSON.parse s = Some v.
Proof. exact (parse_written v s). Qed.

Lemma parse_stringify_witness :
  plain Documents.richTextValue = true
  /\ JSON.parse (default EmptyString (stringify Documents.richTextValue))
     = Some Documents.richTextValue.
Proof.
  split; [vm_compute; reflexivity|].
  apply (parse_stringify Documents.richTextValue);
    vm_compute; reflexivity.
Defined.

(** X21: a value given to the field as its JSON text is rendered as the
    value itself, when it is truthy and plain. *)
Theorem valueToRender_of_stringified (v : JS.Value) (s : string) :
  plain v = true -> JS.truthy v = true -> stringify v = Some s ->
  RichText.valueToRender (JS.Str s) = v.
Proof.
  intros Hp Ht Hs. unfold RichText.valueToRender, RichText.parsedValue.
  rewrite (parse_written v s Hp Hs). cbv zeta. now rewrite Ht.
Qed.

Lemma valueToRender_of_stringified_witness :
  JS.truthy Documents.richTextValue = true
  /\ RichText.valueToRender
       (JS.Str (default EmptyString (stringify Documents.richTextValue)))
     = Documents.richTextValue.
Proof.
  split; [reflexivity|].
  apply (valueToRender_of_stringified Documents.richTextValue);
    vm_compute; reflexivity.
Defined.

(** X22: the key of the editor is the same for two plain initial values
    exactly when the values are the same, a falsy value counting as the
    empty string: the editor is created anew when, and only when, the
    initial value changes. *)
Theorem initialValueKey_same_value (a b : JS.Value) :
  plain a = true -> plain b = true ->
  (initialValueKey a = initialValueKey b
   <-> (if JS.truthy a then a else JS.Str EmptyString)
       = (if JS.truthy b then b else JS.Str EmptyString)).
Proof.
  intros Ha Hb. unfold initialValueKey.
  set (na := if JS.truthy a then a else JS.Str EmptyString).
  set (nb := if JS.truthy b then b else JS.Str EmptyString).
  assert (Hna : plain na = true) by (subst na; now destruct (JS.truthy a)).
  assert (Hnb : plain nb = true) by (subst nb; now destruct (JS.truthy b)).
  split; [|now intros ->].
  intros E.
  destruct (write_defined na Hna) as [oa Hoa].
  assert (Hsa : stringify na = Some (string_of_list_ascii oa))
    by (unfold stringify; now rewrite Hoa).
  assert (Hsb : stringify nb = Some (string_of_list_ascii oa))
    by now rewrite <- E.
  pose proof (parse_written na _ Hna Hsa) as Pa.
  pose proof (parse_written nb _ Hnb Hsb) as Pb.
  congruence.
Qed.

Lemma initialValueKey_same_value_witness :
  initialValueKey JS.Null = initialValueKey (JS.Num 0 0)
  /\ initialValueKey Documents.richTextValue
     <> initialValueKey (JS.Arr []).
Proof.
  split.
  - apply (initialValueKey_same_value JS.Null (JS.Num 0 0));
      reflexivity.
  - intros E.
    apply (initialValueKey_same_value Documents.richTextValue (JS.Arr []))
      in E; [discriminate E | vm_compute; reflexivity | reflexivity].
Defined.

End RoundTrip.
